(** * ReaPack: index model, package versions, downloads and the transaction engine

    A shallow embedding of these parts of ReaPack:

    - [index.cpp]: [RemoteIndex::load], [addCategory], [addLink], [links],
      [Category::addPackage];
    - [package.hpp] (declarations) with the version container behind it;
    - [download.cpp]: [Download::run], [Download::WriteData];
    - [transaction.cpp]: the whole orchestrator;
    - [dialog.cpp]: timers, [boundedMove], saved window state;
    - [browser_entry.hpp]: the flags of an entry.

    C++ exceptions ([reapack_error]) are values of [result]; objects that
    are compared by address carry their address in a field; calls into
    collaborators whose code is elsewhere (download queue, tasks, registry,
    observers) are recorded, in order, in an event trace. *)

From Stdlib Require Import ZArith Ascii String.
From stdpp Require Import base option list sorting strings pretty gmap.

Local Open Scope string_scope.
Local Open Scope list_scope.
Set Warnings "-register-all".

(** ** Exceptions *)

Inductive result (A : Type) : Type :=
| Ok (a : A)
| Throw (what : string).
Arguments Ok {A} a.
Arguments Throw {A} what.

Definition is_throw {A} (r : result A) : bool :=
  match r with Ok _ => false | Throw _ => true end.

Definition is_ok {A} (r : result A) : bool := negb (is_throw r).

(** Addresses of heap objects ([this], back-references). *)
Definition ptr := nat.

(** ** The C type [int]

    32 bits, two's complement. [to_int] is what a value becomes when it is
    stored in an [int]: the result of [int] arithmetic that leaves the
    range (wrap-around, which is what the builds do where the language
    leaves it undefined) and of a conversion from [long]. *)
Definition INT_MIN : Z := (- 2 ^ 31)%Z.
Definition INT_MAX : Z := (2 ^ 31 - 1)%Z.

Definition to_int (z : Z) : Z := ((z + 2 ^ 31) mod 2 ^ 32 - 2 ^ 31)%Z.

(** A [Path] is a sequence of directory components; [join] glues them. *)
Definition Path := list string.

Definition join (p : Path) : string := String.concat "/" p.

(** ** Sources, versions, packages (package.hpp) *)

Record Source := {
  src_platform : string;
  src_url : string;
  src_targetPath : Path;
}.

Record Version := {
  ver_name : string;
  ver_sources : list Source;
}.

Module Package.

Inductive Type_ := UnknownType | ScriptType.

Definition Type_eqb (a b : Type_) : bool :=
  match a, b with
  | UnknownType, UnknownType | ScriptType, ScriptType => true
  | _, _ => false
  end.

End Package.

Record Package := {
  m_category : ptr;
  m_type : Package.Type_;
  pkg_name : string;
  m_versions : list Version;
}.

(** ** index.cpp *)

Module Index.

Inductive LinkType := WebsiteLink | DonationLink.

Record Link := {
  link_name : string;
  link_url : string;
}.

Record Category := {
  cat_this : ptr;
  m_index : ptr;
  cat_name : string;
  cat_packages : list Package;
}.

(** [m_links] is a [std::multimap<LinkType, Link>]: entries with the same
    key stay in insertion order, which is what the association list keeps;
    [links] reads the range of one key. *)
Record RemoteIndex := {
  ri_this : ptr;
  ri_name : string;
  m_categories : list Category;
  m_packages : list Package;
  m_links : list (LinkType * Link);
}.

Definition LinkType_eqb (a b : LinkType) : bool :=
  match a, b with
  | WebsiteLink, WebsiteLink | DonationLink, DonationLink => true
  | _, _ => false
  end.

(** [RemoteIndex::linkTypeFor] *)
Definition linkTypeFor (rel : string) : LinkType :=
  if String.eqb rel "donation" then DonationLink else WebsiteLink.

(** [RemoteIndex::RemoteIndex] *)
Definition new_RemoteIndex (this : ptr) (name : string) : result RemoteIndex :=
  if String.eqb name "" then Throw "empty index name"
  else Ok {| ri_this := this; ri_name := name; m_categories := [];
             m_packages := []; m_links := [] |}.

(** [Category::Category] *)
Definition new_Category (this : ptr) (name : string) (ri : ptr) : result Category :=
  if String.eqb name "" then Throw "empty category name"
  else Ok {| cat_this := this; m_index := ri; cat_name := name;
             cat_packages := [] |}.

(** [Category::addPackage] *)
Definition addPackage (pkg : Package) (cat : Category) : result Category :=
  if negb (Nat.eqb (m_category pkg) (cat_this cat)) then
    Throw "package belongs to another category"
  else if Package.Type_eqb (m_type pkg) Package.UnknownType then
    Ok cat
  else if bool_decide (m_versions pkg = []) then
    Ok cat
  else
    Ok {| cat_this := cat_this cat; m_index := m_index cat;
          cat_name := cat_name cat;
          cat_packages := cat_packages cat ++ [pkg] |}.

(** [RemoteIndex::addCategory] *)
Definition addCategory (cat : Category) (ri : RemoteIndex) : result RemoteIndex :=
  if negb (Nat.eqb (m_index cat) (ri_this ri)) then
    Throw "category belongs to another index"
  else if bool_decide (cat_packages cat = []) then
    Ok ri
  else
    Ok {| ri_this := ri_this ri; ri_name := ri_name ri;
          m_categories := m_categories ri ++ [cat];
          m_packages := m_packages ri ++ cat_packages cat;
          m_links := m_links ri |}.

(** [cat->addPackage(pkg)] when the category is already stored in an
    index. [addCategory] stores the pointer it is given
    ([m_categories.push_back(cat)]), so the stored category is the very
    object that [addPackage] changes, while [m_packages] of the index was
    copied from the category when it was added and is not touched.
    [this] is the address of the category the call is made on; a call that
    throws changes nothing. *)
Definition addPackage_at (this : ptr) (pkg : Package) (cat : Category) : Category :=
  if Nat.eqb (cat_this cat) this then
    match addPackage pkg cat with
    | Ok cat' => cat'
    | Throw _ => cat
    end
  else cat.

Definition addPackage_later (this : ptr) (pkg : Package) (ri : RemoteIndex)
    : RemoteIndex :=
  {| ri_this := ri_this ri; ri_name := ri_name ri;
     m_categories := addPackage_at this pkg <$> m_categories ri;
     m_packages := m_packages ri;
     m_links := m_links ri |}.

(** [boost::algorithm::starts_with(input, test)] *)
Fixpoint starts_with (input test : string) {struct test} : bool :=
  match test, input with
  | EmptyString, _ => true
  | String _ _, EmptyString => false
  | String t test', String i input' =>
      if Ascii.eqb i t then starts_with input' test' else false
  end.

(** [RemoteIndex::addLink] *)
Definition addLink (type : LinkType) (link : Link) (ri : RemoteIndex) : RemoteIndex :=
  if starts_with (link_url link) "http" then
    {| ri_this := ri_this ri; ri_name := ri_name ri;
       m_categories := m_categories ri; m_packages := m_packages ri;
       m_links := m_links ri ++ [(type, link)] |}
  else ri.

(** [RemoteIndex::links] *)
Definition links (type : LinkType) (ri : RemoteIndex) : list Link :=
  snd <$> filter (λ e, LinkType_eqb (fst e) type = true) (m_links ri).

(** *** The XML document handed to [RemoteIndex::load]

    TinyXML is a library outside the repository; an element is its tag
    ([Value()]), its attributes and its child elements. *)
Inductive TiXmlElement :=
| XmlElement (value : string) (attributes : list (string * string))
             (children : list TiXmlElement).

Definition Value (e : TiXmlElement) : string :=
  match e with XmlElement v _ _ => v end.

Definition attributes (e : TiXmlElement) : list (string * string) :=
  match e with XmlElement _ a _ => a end.

Fixpoint find_attribute (name : string) (l : list (string * string)) : option string :=
  match l with
  | [] => None
  | (k, v) :: l' => if String.eqb k name then Some v else find_attribute name l'
  end.

Definition digit_of (c : ascii) : option Z :=
  let n := Z.of_nat (nat_of_ascii c) in
  if (48 <=? n)%Z && (n <=? 57)%Z then Some (n - 48)%Z else None.

Definition isspace (c : ascii) : bool :=
  let n := nat_of_ascii c in
  Nat.eqb n 32 || (Nat.leb 9 n && Nat.leb n 13).

Fixpoint atoi_digits (acc : Z) (s : string) : Z :=
  match s with
  | EmptyString => acc
  | String c s' =>
      match digit_of c with
      | Some d => atoi_digits (10 * acc + d)%Z s'
      | None => acc
      end
  end.

(** The number a string starts with, as [strtol] reads it in base 10:
    white space, an optional sign, digits; 0 when no digit is there. *)
Fixpoint strtol_value (s : string) : Z :=
  match s with
  | EmptyString => 0%Z
  | String c s' =>
      if isspace c then strtol_value s'
      else if Ascii.eqb c "-" then (- atoi_digits 0 s')%Z
      else if Ascii.eqb c "+" then atoi_digits 0 s'
      else atoi_digits 0 s
  end.

(** [strtol] gives that number kept within the range of [long] (64 bits),
    and [atoi] is [(int) strtol(s, NULL, 10)]: a number outside the range
    of [int] is cut to its low 32 bits, so "4294967297" reads as 1. (The C
    standard leaves [atoi] undefined outside the range of [int]; this is
    what the C library does.) *)
Definition LONG_MIN : Z := (- 2 ^ 63)%Z.
Definition LONG_MAX : Z := (2 ^ 63 - 1)%Z.

Definition strtol (s : string) : Z :=
  Z.max LONG_MIN (Z.min LONG_MAX (strtol_value s)).

Definition atoi (s : string) : Z := to_int (strtol s).

(** [int version = 0; root->Attribute("version", &version);] the integer
    is the attribute's text read by [atoi], and stays [0] when the
    attribute is absent or does not start with a number. *)
Definition Attribute_int (name : string) (e : TiXmlElement) (init : Z) : Z :=
  match find_attribute name (attributes e) with
  | Some v => atoi v
  | None => init
  end.

(** What [RemoteIndex::load] finds behind [pathFor(name)]: [fopen] fails
    (with the [strerror] text), [doc.LoadFile] fails (with [ErrorDesc]), or
    a document is there, whose [RootElement()] may be null. *)
Inductive IndexFile :=
| Unreadable (strerror : string)
| Malformed (ErrorDesc : string)
| Document (root : option TiXmlElement).

(** [RemoteIndex::load]. [loadV1] (index_v1.cpp) is not among the sources
    and is a parameter. [None] stands for the undefined behaviour of
    [root->Value()] on a null root. *)
Definition load (loadV1 : TiXmlElement → string → result RemoteIndex)
    (name : string) (file : IndexFile) : option (result RemoteIndex) :=
  match file with
  | Unreadable strerror => Some (Throw strerror)
  | Malformed ErrorDesc => Some (Throw ErrorDesc)
  | Document None => None
  | Document (Some root) =>
      if negb (String.eqb (Value root) "index") then
        Some (Throw "invalid index")
      else
        let version := Attribute_int "version" root 0 in
        if (version =? 0)%Z then Some (Throw "invalid version")
        else if (version =? 1)%Z then Some (loadV1 root name)
        else Some (Throw "unsupported version")
  end.

End Index.

(** ** Version names and the version container of a package

    package.hpp only declares [addVersion], [versions] and [lastVersion];
    package.cpp and version.cpp are not among the sources. *)

(** Modelled from the spec: the numeric segments of a version name
    (version.cpp is missing). "1.10" has the segments 1 and 10: every
    maximal run of decimal digits is one number, anything else separates. *)
Fixpoint segments_from (cur : option N) (s : string) : list N :=
  match s with
  | EmptyString => match cur with Some n => [n] | None => [] end
  | String c s' =>
      match Index.digit_of c with
      | Some d =>
          segments_from (Some (10 * default 0%N cur + Z.to_N d)%N) s'
      | None =>
          match cur with
          | Some n => n :: segments_from None s'
          | None => segments_from None s'
          end
      end
  end.

Definition segments (name : string) : list N := segments_from None name.

Definition all_zero (l : list N) : bool := forallb (N.eqb 0) l.

(** Modelled from the spec: "numeric-segment comparison, not string
    comparison" (the comparison of version.cpp is missing). Segments are
    compared as numbers from the left; a name that runs out of segments
    counts as continued with zeros. *)
Fixpoint compare_segments (a b : list N) : comparison :=
  match a, b with
  | [], _ => if all_zero b then Eq else Lt
  | _ :: _, [] => if all_zero a then Eq else Gt
  | x :: a', y :: b' =>
      match N.compare x y with
      | Eq => compare_segments a' b'
      | c => c
      end
  end.

Definition Version_compare (a b : Version) : comparison :=
  compare_segments (segments (ver_name a)) (segments (ver_name b)).

Definition Version_lt (a b : Version) : Prop := Version_compare a b = Lt.
Definition Version_le (a b : Version) : Prop := Version_compare a b ≠ Gt.

(** Modelled from the spec: insertion into the "ordered set of Version
    sorted ascending by version-name comparison" ([VersionSet], whose
    declaration in version.hpp is missing). As in a [std::set], an element
    equivalent to a stored one is not inserted again. *)
Fixpoint VersionSet_insert (ver : Version) (s : list Version) : list Version :=
  match s with
  | [] => [ver]
  | w :: s' =>
      match Version_compare ver w with
      | Lt => ver :: w :: s'
      | Eq => w :: s'
      | Gt => w :: VersionSet_insert ver s'
      end
  end.

(** Modelled from the spec: [Package::addVersion] (package.cpp is missing):
    "A Version added with zero sources is rejected/dropped", otherwise it
    joins the sorted container. *)
Definition addVersion (ver : Version) (pkg : Package) : Package :=
  if bool_decide (ver_sources ver = []) then pkg
  else {| m_category := m_category pkg; m_type := m_type pkg;
          pkg_name := pkg_name pkg;
          m_versions := VersionSet_insert ver (m_versions pkg) |}.

(** [Package::versions] *)
Definition versions (pkg : Package) : list Version := m_versions pkg.

(** Modelled from the spec: [Package::lastVersion] (package.cpp is
    missing): the last element of the sorted container, [None] (a null
    pointer, as test/package.cpp expects) when there is no version. *)
Definition lastVersion (pkg : Package) : option Version := last (m_versions pkg).

(** Modelled from the spec: [Package::Package] with no version yet. *)
Definition new_Package (type : Package.Type_) (name : string) (cat : ptr) : Package :=
  {| m_category := cat; m_type := type; pkg_name := name; m_versions := [] |}.

(** Modelled from the spec: [Version::files] (version.cpp is missing): the
    set of target paths of the version's sources, each path once. The
    list is the order in which the [std::set<Path>] is walked; the order
    of [Path] is declared in path.hpp, which is missing, and nothing below
    depends on it. *)
Definition Version_files (ver : Version) : list Path :=
  remove_dups (src_targetPath <$> ver_sources ver).

(** ** download.cpp *)

Module Download.

Inductive State := Idle | Running | Success | Failure | Aborted.

Record NetworkOpts := {
  proxy : string;
  verifyPeer : bool;
}.

Record Download := {
  m_name : string;
  m_url : string;
  m_opts : NetworkOpts;
  m_flags : Z;
}.

(** [has(flag)]: the flag's bit is set in [m_flags]. The value of
    [NoCacheFlag] is declared in download.hpp, which is missing, and is a
    parameter of [run]. *)
Definition has (dl : Download) (flag : Z) : bool :=
  negb (Z.land (m_flags dl) flag =? 0)%Z.

Inductive CurlOption :=
| CURLOPT_URL (url : string)
| CURLOPT_PROXY (proxy : string)
| CURLOPT_SSL_VERIFYPEER (on : bool)
| CURLOPT_PROGRESSFUNCTION
| CURLOPT_PROGRESSDATA
| CURLOPT_WRITEFUNCTION
| CURLOPT_WRITEDATA
| CURLOPT_HTTPHEADER (headers : list string)
| CURLOPT_ERRORBUFFER.

(** What [run] does to the outside, in order. *)
Inductive Effect :=
| notify (state : State)
| curl_easy_setopt (option : CurlOption)
| curl_easy_perform
| finish (state : State) (message : option string)
| curl_slist_free_all.

(** What the outside answers during one [run]: the abort flag when the
    worker enters [run], the outcome of the transfer ([CURLcode], its
    [curl_easy_strerror] text and the error buffer) and the abort flag
    after the transfer. *)
Record Env := {
  aborted_on_entry : bool;
  res : Z;
  res_strerror : string;
  errbuf : string;
  aborted_after_transfer : bool;
}.

Definition CURLE_OK : Z := 0.

(** [Download::UpdateProgress]: the value handed back to the transport. *)
Definition UpdateProgress (aborted : bool) : Z := if aborted then 1 else 0.

(** [Download::run] *)
Definition run (NoCacheFlag : Z) (dl : Download) (env : Env) : list Effect :=
  if aborted_on_entry env then
    [finish Aborted (Some "cancelled")]
  else
    let headers :=
      if has dl NoCacheFlag then ["Cache-Control: no-cache"] else [] in
    [notify Running;
     curl_easy_setopt (CURLOPT_URL (m_url dl));
     curl_easy_setopt (CURLOPT_PROXY (proxy (m_opts dl)));
     curl_easy_setopt (CURLOPT_SSL_VERIFYPEER (verifyPeer (m_opts dl)));
     curl_easy_setopt CURLOPT_PROGRESSFUNCTION;
     curl_easy_setopt CURLOPT_PROGRESSDATA;
     curl_easy_setopt CURLOPT_WRITEFUNCTION;
     curl_easy_setopt CURLOPT_WRITEDATA;
     curl_easy_setopt (CURLOPT_HTTPHEADER headers);
     curl_easy_setopt CURLOPT_ERRORBUFFER;
     curl_easy_perform]
    ++ [if aborted_after_transfer env then
          finish Aborted (Some "aborted by user")
        else if negb (res env =? CURLE_OK)%Z then
          finish Failure
            (Some (res_strerror env +:+ " (" +:+ pretty (res env) +:+ "): "
                   +:+ errbuf env))
        else
          finish Success None]
    ++ [curl_slist_free_all].

(** The effects that touch the network: anything done through curl. *)
Definition is_network (e : Effect) : bool :=
  match e with
  | curl_easy_setopt _ | curl_easy_perform | curl_slist_free_all => true
  | notify _ | finish _ _ => false
  end.

Definition is_finish (e : Effect) : bool :=
  match e with finish _ _ => true | _ => false end.

(** The terminal state a run reports: the state of its one [finish]. *)
Definition final_state (l : list Effect) : option State :=
  match filter (λ e, is_finish e = true) l with
  | [finish s _] => Some s
  | _ => None
  end.

End Download.

(** ** transaction.cpp *)

Module Registry.

(** registry.hpp is missing; the statuses are those of the data model. *)
Inductive Status := Uninstalled | UpToDate | UpdateAvailable | Obsolete.

Definition Status_eqb (a b : Status) : bool :=
  match a, b with
  | Uninstalled, Uninstalled | UpToDate, UpToDate
  | UpdateAvailable, UpdateAvailable | Obsolete, Obsolete => true
  | _, _ => false
  end.

Record Entry := {
  id : Z;
  status : Status;
  version : string;
}.

Definition set_status (s : Status) (e : Entry) : Entry :=
  {| id := id e; status := s; version := version e |}.

End Registry.

Record Remote := {
  remote_name : string;
  remote_url : string;
}.

Inductive Step := Unknown | Synchronize | Install.

Definition PackageEntry : Type := Version * Registry.Entry.

Definition Error : Type := string * string.

(** A task together with what its [onCommit] observer captured: the
    [PackageEntry] for an [InstallTask] (its version is the entry's first
    component), the registry entry for a [RemoveTask]. *)
Inductive Task :=
| InstallTask (entry : PackageEntry) (currentFiles : list Path)
| RemoveTask (files : list Path) (entry : Registry.Entry).

(** Calls that leave the transaction, in the order they are made. *)
Inductive Event :=
| RecursiveCreateDirectory (path : string)
| WriteFile (path : string) (contents : string)
| QueuePush (name url : string)
| QueueAbort
| NewTask (task : Task)
| TaskCommit (task : Task)
| TaskRollback (task : Task)
| RegistryPush (ver : Version)
| RegistryForget (entry : Registry.Entry)
| RegistryCommit
| AddToREAPER (ver : Version)
| OnFinish
| OnDestroy.

(** The collaborators whose code is not among the sources. Each answer
    may depend on everything the transaction did before the call (the
    trace), so a registry or a disk that changes under the transaction is
    covered. *)
Record World := {
  loadV1 : Index.TiXmlElement → string → result Index.RemoteIndex;
  Registry_query : list Event → Package → Registry.Entry;
  Registry_queryAll : list Event → Remote → list Registry.Entry;
  Registry_getFiles : list Event → Registry.Entry → list Path;
  Registry_addToREAPER : list Event → Version → Path → bool;
  file_exists : list Event → string → bool;
  (** whether [Task::commit] reaches the task's [onCommit] observer *)
  Task_commit : list Event → Task → bool;
  RemoveTask_removedFiles : list Event → Task → list Path;
  Version_fullName : Version → string;
}.

(** A finished [Download] as [saveRemoteIndex] sees it, with what the
    disk answers: the error of opening the output stream, if any, and
    what [RemoteIndex::load] then finds in the file. *)
Record Fetched := {
  dl_name : string;
  dl_url : string;
  dl_status : Z;
  dl_contents : string;
  ofstream_error : option string;
  on_disk : Index.IndexFile;
}.

(** [m_queue] holds the downloads that have not reached a terminal state;
    [idle()] is "none left". *)
Record Transaction := {
  m_root : Path;
  m_dbPath : Path;
  m_step : Step;
  m_isCancelled : bool;
  m_hasConflicts : bool;
  m_remoteIndexes : list Index.RemoteIndex;
  m_packages : list PackageEntry;
  m_new : list PackageEntry;
  m_updates : list PackageEntry;
  m_removals : list Path;
  m_tasks : list Task;
  m_files : gset Path;
  m_errors : list Error;
  m_queue : list (string * string);
  trace : list Event;
}.

Definition emit (e : Event) (t : Transaction) : Transaction :=
  {| m_root := m_root t; m_dbPath := m_dbPath t; m_step := m_step t;
     m_isCancelled := m_isCancelled t; m_hasConflicts := m_hasConflicts t;
     m_remoteIndexes := m_remoteIndexes t; m_packages := m_packages t;
     m_new := m_new t; m_updates := m_updates t; m_removals := m_removals t;
     m_tasks := m_tasks t; m_files := m_files t; m_errors := m_errors t;
     m_queue := m_queue t; trace := trace t ++ [e] |}.

Definition set_step (s : Step) (t : Transaction) : Transaction :=
  {| m_root := m_root t; m_dbPath := m_dbPath t; m_step := s;
     m_isCancelled := m_isCancelled t; m_hasConflicts := m_hasConflicts t;
     m_remoteIndexes := m_remoteIndexes t; m_packages := m_packages t;
     m_new := m_new t; m_updates := m_updates t; m_removals := m_removals t;
     m_tasks := m_tasks t; m_files := m_files t; m_errors := m_errors t;
     m_queue := m_queue t; trace := trace t |}.

Definition set_isCancelled (b : bool) (t : Transaction) : Transaction :=
  {| m_root := m_root t; m_dbPath := m_dbPath t; m_step := m_step t;
     m_isCancelled := b; m_hasConflicts := m_hasConflicts t;
     m_remoteIndexes := m_remoteIndexes t; m_packages := m_packages t;
     m_new := m_new t; m_updates := m_updates t; m_removals := m_removals t;
     m_tasks := m_tasks t; m_files := m_files t; m_errors := m_errors t;
     m_queue := m_queue t; trace := trace t |}.

Definition set_hasConflicts (b : bool) (t : Transaction) : Transaction :=
  {| m_root := m_root t; m_dbPath := m_dbPath t; m_step := m_step t;
     m_isCancelled := m_isCancelled t; m_hasConflicts := b;
     m_remoteIndexes := m_remoteIndexes t; m_packages := m_packages t;
     m_new := m_new t; m_updates := m_updates t; m_removals := m_removals t;
     m_tasks := m_tasks t; m_files := m_files t; m_errors := m_errors t;
     m_queue := m_queue t; trace := trace t |}.

Definition push_remoteIndex (ri : Index.RemoteIndex) (t : Transaction) : Transaction :=
  {| m_root := m_root t; m_dbPath := m_dbPath t; m_step := m_step t;
     m_isCancelled := m_isCancelled t; m_hasConflicts := m_hasConflicts t;
     m_remoteIndexes := m_remoteIndexes t ++ [ri]; m_packages := m_packages t;
     m_new := m_new t; m_updates := m_updates t; m_removals := m_removals t;
     m_tasks := m_tasks t; m_files := m_files t; m_errors := m_errors t;
     m_queue := m_queue t; trace := trace t |}.

Definition push_package (e : PackageEntry) (t : Transaction) : Transaction :=
  {| m_root := m_root t; m_dbPath := m_dbPath t; m_step := m_step t;
     m_isCancelled := m_isCancelled t; m_hasConflicts := m_hasConflicts t;
     m_remoteIndexes := m_remoteIndexes t; m_packages := m_packages t ++ [e];
     m_new := m_new t; m_updates := m_updates t; m_removals := m_removals t;
     m_tasks := m_tasks t; m_files := m_files t; m_errors := m_errors t;
     m_queue := m_queue t; trace := trace t |}.

Definition push_new (e : PackageEntry) (t : Transaction) : Transaction :=
  {| m_root := m_root t; m_dbPath := m_dbPath t; m_step := m_step t;
     m_isCancelled := m_isCancelled t; m_hasConflicts := m_hasConflicts t;
     m_remoteIndexes := m_remoteIndexes t; m_packages := m_packages t;
     m_new := m_new t ++ [e]; m_updates := m_updates t;
     m_removals := m_removals t;
     m_tasks := m_tasks t; m_files := m_files t; m_errors := m_errors t;
     m_queue := m_queue t; trace := trace t |}.

Definition push_update (e : PackageEntry) (t : Transaction) : Transaction :=
  {| m_root := m_root t; m_dbPath := m_dbPath t; m_step := m_step t;
     m_isCancelled := m_isCancelled t; m_hasConflicts := m_hasConflicts t;
     m_remoteIndexes := m_remoteIndexes t; m_packages := m_packages t;
     m_new := m_new t; m_updates := m_updates t ++ [e];
     m_removals := m_removals t;
     m_tasks := m_tasks t; m_files := m_files t; m_errors := m_errors t;
     m_queue := m_queue t; trace := trace t |}.

Definition add_removals (l : list Path) (t : Transaction) : Transaction :=
  {| m_root := m_root t; m_dbPath := m_dbPath t; m_step := m_step t;
     m_isCancelled := m_isCancelled t; m_hasConflicts := m_hasConflicts t;
     m_remoteIndexes := m_remoteIndexes t; m_packages := m_packages t;
     m_new := m_new t; m_updates := m_updates t;
     m_removals := m_removals t ++ l;
     m_tasks := m_tasks t; m_files := m_files t; m_errors := m_errors t;
     m_queue := m_queue t; trace := trace t |}.

Definition push_task (task : Task) (t : Transaction) : Transaction :=
  {| m_root := m_root t; m_dbPath := m_dbPath t; m_step := m_step t;
     m_isCancelled := m_isCancelled t; m_hasConflicts := m_hasConflicts t;
     m_remoteIndexes := m_remoteIndexes t; m_packages := m_packages t;
     m_new := m_new t; m_updates := m_updates t; m_removals := m_removals t;
     m_tasks := m_tasks t ++ [task]; m_files := m_files t;
     m_errors := m_errors t;
     m_queue := m_queue t; trace := trace t |}.

Definition insert_files (l : list Path) (t : Transaction) : Transaction :=
  {| m_root := m_root t; m_dbPath := m_dbPath t; m_step := m_step t;
     m_isCancelled := m_isCancelled t; m_hasConflicts := m_hasConflicts t;
     m_remoteIndexes := m_remoteIndexes t; m_packages := m_packages t;
     m_new := m_new t; m_updates := m_updates t; m_removals := m_removals t;
     m_tasks := m_tasks t; m_files := m_files t ∪ list_to_set l;
     m_errors := m_errors t;
     m_queue := m_queue t; trace := trace t |}.

Definition set_queue (q : list (string * string)) (t : Transaction) : Transaction :=
  {| m_root := m_root t; m_dbPath := m_dbPath t; m_step := m_step t;
     m_isCancelled := m_isCancelled t; m_hasConflicts := m_hasConflicts t;
     m_remoteIndexes := m_remoteIndexes t; m_packages := m_packages t;
     m_new := m_new t; m_updates := m_updates t; m_removals := m_removals t;
     m_tasks := m_tasks t; m_files := m_files t; m_errors := m_errors t;
     m_queue := q; trace := trace t |}.

(** [Transaction::addError] *)
Definition addError (message title : string) (t : Transaction) : Transaction :=
  {| m_root := m_root t; m_dbPath := m_dbPath t; m_step := m_step t;
     m_isCancelled := m_isCancelled t; m_hasConflicts := m_hasConflicts t;
     m_remoteIndexes := m_remoteIndexes t; m_packages := m_packages t;
     m_new := m_new t; m_updates := m_updates t; m_removals := m_removals t;
     m_tasks := m_tasks t; m_files := m_files t;
     m_errors := m_errors t ++ [(message, title)];
     m_queue := m_queue t; trace := trace t |}.

(** [m_queue.push(dl)] and [m_queue.idle()] *)
Definition queue_push (name url : string) (t : Transaction) : Transaction :=
  emit (QueuePush name url) (set_queue (m_queue t ++ [(name, url)]) t).

Definition idle (t : Transaction) : bool := bool_decide (m_queue t = []).

(** [Transaction::Transaction] *)
Definition new_Transaction (root : Path) : Transaction :=
  let dbPath : Path := root ++ ["ReaPack"] in
  {| m_root := root; m_dbPath := dbPath; m_step := Unknown;
     m_isCancelled := false; m_hasConflicts := false;
     m_remoteIndexes := []; m_packages := [];
     m_new := []; m_updates := []; m_removals := [];
     m_tasks := []; m_files := ∅; m_errors := [];
     m_queue := []; trace := [RecursiveCreateDirectory (join dbPath)] |}.

(** [Transaction::synchronize] *)
Definition synchronize (remote : Remote) (t : Transaction) : Transaction :=
  queue_push (remote_name remote) (remote_url remote) (set_step Synchronize t).

(** [path.dirname()] *)
Definition dirname (p : Path) : string := join (removelast p).

(** [Transaction::saveFile] *)
Definition saveFile (dl : Fetched) (path : Path) (t : Transaction)
    : bool * Transaction :=
  if negb (dl_status dl =? 200)%Z then
    (false, addError (dl_contents dl) (dl_url dl) t)
  else
    let t := emit (RecursiveCreateDirectory (dirname path)) t in
    let strPath := join path in
    match ofstream_error dl with
    | Some strerror => (false, addError strerror strPath t)
    | None => (true, emit (WriteFile strPath (dl_contents dl)) t)
    end.

(** [Transaction::saveRemoteIndex]; [None] is the undefined behaviour
    inherited from [RemoteIndex::load]. *)
Definition saveRemoteIndex (w : World) (dl : Fetched) (t : Transaction)
    : option Transaction :=
  let path : Path := m_dbPath t ++ ["remote_" +:+ dl_name dl +:+ ".xml"] in
  let '(saved, t) := saveFile dl path t in
  if negb saved then Some t
  else
    match Index.load (loadV1 w) (dl_name dl) (on_disk dl) with
    | None => None
    | Some (Ok ri) => Some (push_remoteIndex ri t)
    | Some (Throw what) => Some (addError what (dl_url dl) t)
    end.

(** [Transaction::prefixPath] *)
Definition prefixPath (t : Transaction) (input : Path) : Path :=
  m_root t ++ input.

(** [Transaction::allFilesExists] *)
Definition allFilesExists (w : World) (list : list Path) (t : Transaction) : bool :=
  forallb (λ path, file_exists w (trace t) (join (prefixPath t path))) list.

Definition conflict_message : string :=
  "Conflict: This file is owned by more than one package".

(** [Transaction::registerFiles] *)
Definition registerFiles (list : list Path) (t : Transaction) : Transaction :=
  insert_files list
    (foldl (λ t path,
              if bool_decide (path ∈ m_files t) then
                set_hasConflicts true
                  (addError conflict_message (join path) t)
              else t)
           t list).

(** The [onCommit] observers installed by [install] and [uninstall]. *)
Definition onCommit (w : World) (task : Task) (t : Transaction) : Transaction :=
  match task with
  | InstallTask entry _ =>
      let ver := fst entry in
      let regEntry := snd entry in
      let t :=
        if Registry.Status_eqb (Registry.status regEntry) Registry.UpdateAvailable
        then push_update entry t
        else push_new entry t in
      let t := emit (RegistryPush ver) t in
      let registered := Registry_addToREAPER w (trace t) ver (m_root t) in
      let t := emit (AddToREAPER ver) t in
      if negb registered then
        addError
          ("Cannot register the package in REAPER. "
           +:+ "Are you using REAPER v5.12 or more recent?")
          (Version_fullName w ver) t
      else t
  | RemoveTask _ entry =>
      let removedFiles := RemoveTask_removedFiles w (trace t) task in
      let t := emit (RegistryForget entry) t in
      add_removals removedFiles t
  end.

(** [task->commit()]: the call, then the observer when the task reaches
    it. *)
Definition commit (w : World) (t : Transaction) (task : Task) : Transaction :=
  let reached := Task_commit w (trace t) task in
  let t := emit (TaskCommit task) t in
  if reached then onCommit w task t else t.

(** [Transaction::finish] *)
Definition finish (w : World) (t : Transaction) : Transaction :=
  let t :=
    if negb (m_isCancelled t) then
      emit RegistryCommit (foldl (commit w) t (m_tasks t))
    else t in
  emit OnDestroy (emit OnFinish t).

(** [Transaction::addTask] *)
Definition addTask (w : World) (task : Task) (t : Transaction) : Transaction :=
  let t := push_task task t in
  if idle t then finish w t else t.

(** Modelled from the spec: the constructor of [InstallTask] (task.cpp is
    missing) "enqueues one Download per Source of version onto the shared
    queue". *)
Definition new_InstallTask (entry : PackageEntry) (currentFiles : list Path)
    (t : Transaction) : Task * Transaction :=
  let task := InstallTask entry currentFiles in
  (task,
   foldl (λ t src, queue_push (ver_name (fst entry)) (src_url src) t)
         (emit (NewTask task) t) (ver_sources (fst entry))).

(** Modelled from the spec: the constructor of [RemoveTask] (task.cpp is
    missing) starts no download: "nothing is mutated until commit". *)
Definition new_RemoveTask (files : list Path) (entry : Registry.Entry)
    (t : Transaction) : Task * Transaction :=
  let task := RemoveTask files entry in
  (task, emit (NewTask task) t).

(** [Transaction::install] *)
Definition install (w : World) (t : Transaction) : Transaction :=
  foldl (λ t entry,
           let regEntry := snd entry in
           let currentFiles := Registry_getFiles w (trace t) regEntry in
           let '(task, t) := new_InstallTask entry currentFiles t in
           addTask w task t)
        (set_step Install t) (m_packages t).

(** One turn of the inner loop of [Transaction::updateAll]; [None] is the
    undefined behaviour of [ver->files()] on a null [lastVersion()]. *)
Definition updateAll_package (w : World) (pkg : Package) (t : Transaction)
    : option Transaction :=
  let entry := Registry_query w (trace t) pkg in
  match lastVersion pkg with
  | None => None
  | Some ver =>
      let files := Version_files ver in
      let t := registerFiles files t in
      if Registry.Status_eqb (Registry.status entry) Registry.UpToDate then
        if allFilesExists w files t then Some t
        else Some (push_package
                     (ver, Registry.set_status Registry.Uninstalled entry) t)
      else Some (push_package (ver, entry) t)
  end.

Fixpoint updateAll_packages (w : World) (pkgs : list Package) (t : Transaction)
    : option Transaction :=
  match pkgs with
  | [] => Some t
  | pkg :: pkgs' =>
      match updateAll_package w pkg t with
      | None => None
      | Some t' => updateAll_packages w pkgs' t'
      end
  end.

Fixpoint updateAll_indexes (w : World) (ris : list Index.RemoteIndex)
    (t : Transaction) : option Transaction :=
  match ris with
  | [] => Some t
  | ri :: ris' =>
      match updateAll_packages w (Index.m_packages ri) t with
      | None => None
      | Some t' => updateAll_indexes w ris' t'
      end
  end.

(** [Transaction::updateAll] *)
Definition updateAll (w : World) (t : Transaction) : option Transaction :=
  match updateAll_indexes w (m_remoteIndexes t) t with
  | None => None
  | Some t =>
      if bool_decide (m_packages t = []) || m_hasConflicts t then
        Some (finish w t)
      else
        Some (install w t)
  end.

(** [Transaction::cancel] *)
Definition cancel (w : World) (t : Transaction) : Transaction :=
  let t := set_isCancelled true t in
  let t := foldl (λ t task, emit (TaskRollback task) t) t (m_tasks t) in
  if idle t then finish w t else emit QueueAbort t.

(** [Transaction::uninstall] *)
Definition uninstall (w : World) (remote : Remote) (t : Transaction) : Transaction :=
  let entries := Registry_queryAll w (trace t) remote in
  if bool_decide (entries = []) then cancel w t
  else
    foldl (λ t entry,
             let files := Registry_getFiles w (trace t) entry in
             let '(task, t) := new_RemoveTask files entry t in
             addTask w task t)
          t entries.

(** The observer registered with [m_queue.onDone] by the constructor. *)
Definition onDone (w : World) (t : Transaction) : option Transaction :=
  match m_step t with
  | Synchronize => updateAll w t
  | _ => Some (finish w t)
  end.

(** *** Runs

    What can happen to a transaction from outside: a call of its public
    interface, the completion of an index download (its [onFinish]
    observer is [saveRemoteIndex]) and the queue's drain signal, at which
    no download is outstanding any more. *)
Inductive Op :=
| OpSynchronize (remote : Remote)
| OpIndexDownloaded (dl : Fetched)
| OpQueueDone
| OpUninstall (remote : Remote)
| OpCancel.

Definition step (w : World) (op : Op) (t : Transaction) : option Transaction :=
  match op with
  | OpSynchronize remote => Some (synchronize remote t)
  | OpIndexDownloaded dl => saveRemoteIndex w dl t
  | OpQueueDone => onDone w (set_queue [] t)
  | OpUninstall remote => Some (uninstall w remote t)
  | OpCancel => Some (cancel w t)
  end.

Fixpoint run (w : World) (ops : list Op) (t : Transaction) : option Transaction :=
  match ops with
  | [] => Some t
  | op :: ops' =>
      match step w op t with
      | None => None
      | Some t' => run w ops' t'
      end
  end.

(** ** Notions used to state the properties *)

(** Categories and indexes as the code can build them: from the
    constructors, by [addPackage], [addCategory] and [addLink] calls that
    did not throw, and by [addPackage] calls on a category after it was
    added to the index. *)
Inductive built_category : Index.Category → Prop :=
| built_new_Category this name ri cat :
    Index.new_Category this name ri = Ok cat → built_category cat
| built_addPackage pkg cat cat' :
    built_category cat → Index.addPackage pkg cat = Ok cat' →
    built_category cat'.

Inductive built_index : Index.RemoteIndex → Prop :=
| built_new_RemoteIndex this name ri :
    Index.new_RemoteIndex this name = Ok ri → built_index ri
| built_addCategory cat ri ri' :
    built_index ri → built_category cat →
    Index.addCategory cat ri = Ok ri' → built_index ri'
| built_addLink type link ri :
    built_index ri → built_index (Index.addLink type link ri)
| built_addPackage_later this pkg ri :
    built_index ri → built_index (Index.addPackage_later this pkg ri).

(** The scheme of a URL in the specification's sense: the text in front
    of the first colon. *)
Fixpoint url_scheme (url : string) : option string :=
  match url with
  | EmptyString => None
  | String c url' =>
      if Ascii.eqb c ":" then Some EmptyString
      else String c <$> url_scheme url'
  end.

(** An allow-list of schemes, as the specification words the filter. *)
Definition scheme_on (allowed : list string) (url : string) : bool :=
  match url_scheme url with
  | Some s => bool_decide (s ∈ allowed)
  | None => false
  end.

Definition web_schemes : list string := ["http"; "https"].

(** A URL of [n] letters x after "http", then a colon: its scheme has
    [n + 4] letters. *)
Fixpoint pad (n : nat) (rest : string) : string :=
  match n with
  | 0 => rest
  | S n' => String "x" (pad n' rest)
  end.

Definition long_scheme_url (n : nat) : string :=
  String "h" (String "t" (String "t" (String "p" (pad n ":")))).

Definition longest (l : list string) : nat :=
  foldr (λ s m, Nat.max (String.length s) m) 0 l.

(** The failures of index parsing that the specification lists, read on
    the input of [Index.load]: wrong root tag, version attribute missing
    or not a positive number, unsupported version, and a failure inside
    the version 1 loader (where a [Source] without URL is met). *)
Definition listed_failure (loadV1 : Index.TiXmlElement → string → result Index.RemoteIndex)
    (name : string) (file : Index.IndexFile) : bool :=
  match file with
  | Index.Document (Some root) =>
      let version := Index.Attribute_int "version" root 0 in
      negb (String.eqb (Index.Value root) "index")
      || (version <=? 0)%Z
      || negb (version =? 1)%Z
      || is_throw (loadV1 root name)
  | _ => false
  end.

(** All the failures of [Index.load]: the listed ones and the two that
    come before a root element exists. *)
Definition load_failure (loadV1 : Index.TiXmlElement → string → result Index.RemoteIndex)
    (name : string) (file : Index.IndexFile) : bool :=
  match file with
  | Index.Unreadable _ | Index.Malformed _ => true
  | _ => listed_failure loadV1 name file
  end.

(** The packages a resolution pass walks through, in order: those of
    every loaded index. *)
Definition all_packages (t : Transaction) : list Package :=
  concat (Index.m_packages <$> m_remoteIndexes t).

(** A package claims the files of its last version; a path is claimed
    twice when two packages at different places of the walk claim it. *)
Definition claims (pkg : Package) (p : Path) : Prop :=
  ∃ ver, lastVersion pkg = Some ver ∧ p ∈ Version_files ver.

Definition doubly_claimed (pkgs : list Package) (p : Path) : Prop :=
  ∃ l1 a l2 b l3, pkgs = l1 ++ a :: l2 ++ b :: l3 ∧ claims a p ∧ claims b p.

(** Events of the commit of a task: the call and what its observer does. *)
Definition is_task_commit (e : Event) : bool :=
  match e with
  | TaskCommit _ | RegistryPush _ | RegistryForget _ | AddToREAPER _ => true
  | _ => false
  end.

(** Events by which anything is committed, tasks or registry. *)
Definition is_commit (e : Event) : bool :=
  match e with
  | RegistryCommit => true
  | _ => is_task_commit e
  end.

(** Events by which an installation starts or a file is written before
    any commit: a task is created, a download is queued, a directory or a
    file is written. *)
Definition is_install_work (e : Event) : bool :=
  match e with
  | NewTask _ | QueuePush _ _ | WriteFile _ _ | RecursiveCreateDirectory _ => true
  | _ => false
  end.

(** The tasks committed by a stretch of events, in order. *)
Definition commits_of (evs : list Event) : list Task :=
  omap (λ e, match e with TaskCommit task => Some task | _ => None end) evs.

Definition is_OnFinish (e : Event) : bool :=
  match e with OnFinish => true | _ => false end.

Definition is_OnDestroy (e : Event) : bool :=
  match e with OnDestroy => true | _ => false end.

Definition is_RegistryCommit (e : Event) : bool :=
  match e with RegistryCommit => true | _ => false end.

Definition count (P : Event → bool) (evs : list Event) : nat :=
  length (filter (λ e, P e = true) evs).

(** Everything a cancelled transaction may still do: it stays cancelled
    and what it adds to the trace commits nothing. *)
Definition stays_cancelled (t t' : Transaction) : Prop :=
  m_isCancelled t = true →
  m_isCancelled t' = true ∧
  ∃ evs, trace t' = trace t ++ evs ∧ Forall (λ e, is_commit e = false) evs.

(** The two observers of the end of a transaction. *)
Definition is_observer (e : Event) : bool :=
  match e with OnFinish | OnDestroy => true | _ => false end.

(** While downloads are outstanding and the drain signal has not come:
    the queue stays busy and no observer fires. *)
Definition keeps_waiting (t t' : Transaction) : Prop :=
  idle t = false →
  idle t' = false ∧
  ∃ evs, trace t' = trace t ++ evs ∧ Forall (λ e, is_observer e = false) evs.

Definition is_OpQueueDone (op : Op) : bool :=
  match op with OpQueueDone => true | _ => false end.

(** What a resolution pass leaves alone. *)
Definition same_tasks (t t' : Transaction) : Prop :=
  trace t' = trace t ∧ m_tasks t' = m_tasks t ∧
  m_isCancelled t' = m_isCancelled t ∧ m_queue t' = m_queue t ∧
  m_step t' = m_step t.

(** What a resolution pass only lets grow. *)
Definition grows (t t' : Transaction) : Prop :=
  m_files t ⊆ m_files t' ∧
  (m_hasConflicts t = true → m_hasConflicts t' = true) ∧
  (∀ e, e ∈ m_errors t → e ∈ m_errors t').

(** ** Concrete objects used in the examples *)

Definition ex_source (url : string) (target : Path) : Source :=
  {| src_platform := "all"; src_url := url; src_targetPath := target |}.

Definition ex_version (name : string) (target : Path) : Version :=
  {| ver_name := name;
     ver_sources := [ex_source "https://example.com/file" target] |}.

(** An index at address 1 and a category at address 2 that belongs to it. *)
Definition ex_index : Index.RemoteIndex :=
  {| Index.ri_this := 1; Index.ri_name := "repo"; Index.m_categories := [];
     Index.m_packages := []; Index.m_links := [] |}.

Definition ex_category : Index.Category :=
  {| Index.cat_this := 2; Index.m_index := 1; Index.cat_name := "Category";
     Index.cat_packages := [] |}.

Definition ex_package (type : Package.Type_) (vers : list Version) : Package :=
  {| m_category := 2; m_type := type; pkg_name := "a"; m_versions := vers |}.

Definition ex_script : Package :=
  ex_package Package.ScriptType [ex_version "1.0" ["Scripts"; "a.lua"]].

Definition ex_category_1 : Index.Category :=
  {| Index.cat_this := 2; Index.m_index := 1; Index.cat_name := "Category";
     Index.cat_packages := [ex_script] |}.

Definition ex_index_1 : Index.RemoteIndex :=
  {| Index.ri_this := 1; Index.ri_name := "repo";
     Index.m_categories := [ex_category_1];
     Index.m_packages := [ex_script]; Index.m_links := [] |}.

Definition ex_link (url : string) : Index.Link :=
  {| Index.link_name := "link"; Index.link_url := url |}.

(** A version 1 loader that takes every document for an index without
    categories; it stands in for index_v1.cpp in examples that never
    reach the loader. *)
Definition ex_loadV1 (root : Index.TiXmlElement) (name : string)
    : result Index.RemoteIndex :=
  Index.new_RemoteIndex 1 name.

Definition ex_root (tag : string) (attrs : list (string * string))
    : Index.TiXmlElement :=
  Index.XmlElement tag attrs [].

(** Packages as the code can build them: the constructor, then any
    number of [addVersion] calls. *)
Inductive built_package : Package → Prop :=
| built_new_Package type name cat :
    built_package (new_Package type name cat)
| built_addVersion ver pkg :
    built_package pkg → built_package (addVersion ver pkg).

Definition ex_versions_package : Package :=
  addVersion (ex_version "0.5" ["c.lua"])
    (addVersion (ex_version "1.10" ["b.lua"])
       (addVersion (ex_version "1.9" ["a.lua"])
          (new_Package Package.ScriptType "a" 2))).

Definition ex_empty_version : Version :=
  {| ver_name := "1"; ver_sources := [] |}.

(** The objects of test/package.cpp, "package versions are sorted". *)
Definition test_source : Source :=
  {| src_platform := "generic"; src_url := "google.com"; src_targetPath := [] |}.

Definition test_final : Version :=
  {| ver_name := "1"; ver_sources := [test_source] |}.

Definition test_alpha : Version :=
  {| ver_name := "0.1"; ver_sources := [test_source] |}.

Definition test_pack : Package := new_Package Package.ScriptType "a" 2.

Definition ex_download : Download.Download :=
  {| Download.m_name := "repo"; Download.m_url := "https://example.com/index.xml";
     Download.m_opts := {| Download.proxy := ""; Download.verifyPeer := true |};
     Download.m_flags := 1 |}.

Definition ex_env (aborted : bool) : Download.Env :=
  {| Download.aborted_on_entry := aborted; Download.res := 0;
     Download.res_strerror := "No error"; Download.errbuf := "No details";
     Download.aborted_after_transfer := false |}.

(** A world for the examples: nothing is installed for the packages of an
    index, the remote "repo" has two installed packages, every task
    commits and every file it owned is removed. *)
Definition ex_entry (n : Z) : Registry.Entry :=
  {| Registry.id := n; Registry.status := Registry.Uninstalled;
     Registry.version := "" |}.

Definition ex_installed (n : Z) : Registry.Entry :=
  {| Registry.id := n; Registry.status := Registry.UpToDate;
     Registry.version := "1.0" |}.

Definition ex_remote : Remote :=
  {| remote_name := "repo"; remote_url := "https://example.com/index.xml" |}.

(** Two packages of one category whose last versions both write
    Scripts/foo.lua, and a third one that writes its own file. *)
Definition ex_conflict_index : Index.RemoteIndex :=
  let a := ex_package Package.ScriptType [ex_version "1.0" ["Scripts"; "foo.lua"]] in
  let b := ex_package Package.ScriptType
             [ex_version "0.9" ["Scripts"; "old.lua"];
              ex_version "2.0" ["Scripts"; "foo.lua"]] in
  let c := ex_package Package.ScriptType [ex_version "1.0" ["Scripts"; "bar.lua"]] in
  {| Index.ri_this := 1; Index.ri_name := "repo";
     Index.m_categories :=
       [{| Index.cat_this := 2; Index.m_index := 1;
           Index.cat_name := "Category"; Index.cat_packages := [a; b; c] |}];
     Index.m_packages := [a; b; c]; Index.m_links := [] |}.

Definition ex_world : World :=
  {| loadV1 := λ _ _, Ok ex_conflict_index;
     Registry_query := λ _ _, ex_entry 0;
     Registry_queryAll := λ _ _, [ex_installed 1; ex_installed 2];
     Registry_getFiles := λ _ e, [["Scripts"; pretty (Registry.id e) +:+ ".lua"]];
     Registry_addToREAPER := λ _ _ _, true;
     file_exists := λ _ _, false;
     Task_commit := λ _ _, true;
     RemoveTask_removedFiles :=
       λ _ task, match task with RemoveTask files _ => files | _ => [] end;
     Version_fullName := ver_name |}.

Definition ex_remove (n : Z) : Task :=
  RemoveTask [["Scripts"; pretty n +:+ ".lua"]] (ex_installed n).

Definition ex_fetched : Fetched :=
  {| dl_name := "repo"; dl_url := "https://example.com/index.xml";
     dl_status := 200; dl_contents := "<index version='1'/>";
     ofstream_error := None;
     on_disk := Index.Document (Some (ex_root "index" [("version", "1")])) |}.

(** The transaction after the index of [ex_remote] has been downloaded,
    saved and loaded, when the queue's drain signal is due. *)
Definition ex_synchronized : Transaction :=
  default (new_Transaction ["REAPER"])
    (run ex_world [OpSynchronize ex_remote; OpIndexDownloaded ex_fetched]
       (new_Transaction ["REAPER"])).

(** A second world, whose index has two packages with files of their
    own. *)
Definition ex_plain_index : Index.RemoteIndex :=
  let a := ex_package Package.ScriptType [ex_version "1.0" ["Scripts"; "foo.lua"]] in
  let c := ex_package Package.ScriptType [ex_version "1.0" ["Scripts"; "bar.lua"]] in
  {| Index.ri_this := 1; Index.ri_name := "repo";
     Index.m_categories :=
       [{| Index.cat_this := 2; Index.m_index := 1;
           Index.cat_name := "Category"; Index.cat_packages := [a; c] |}];
     Index.m_packages := [a; c]; Index.m_links := [] |}.

Definition ex_plain_world : World :=
  {| loadV1 := λ _ _, Ok ex_plain_index;
     Registry_query := Registry_query ex_world;
     Registry_queryAll := Registry_queryAll ex_world;
     Registry_getFiles := λ _ _, [];
     Registry_addToREAPER := Registry_addToREAPER ex_world;
     file_exists := file_exists ex_world;
     Task_commit := Task_commit ex_world;
     RemoveTask_removedFiles := RemoveTask_removedFiles ex_world;
     Version_fullName := ver_name |}.

(** A third world with two remotes: "repo" serves the index with two
    packages of their own files, every other remote the index in which two
    packages write Scripts/foo.lua. *)
Definition ex_two_remotes_world : World :=
  {| loadV1 := λ _ name, if String.eqb name "repo" then Ok ex_plain_index
                         else Ok ex_conflict_index;
     Registry_query := Registry_query ex_world;
     Registry_queryAll := Registry_queryAll ex_world;
     Registry_getFiles := λ _ _, [];
     Registry_addToREAPER := Registry_addToREAPER ex_world;
     file_exists := file_exists ex_world;
     Task_commit := Task_commit ex_world;
     RemoveTask_removedFiles := RemoveTask_removedFiles ex_world;
     Version_fullName := ver_name |}.

Definition ex_other_remote : Remote :=
  {| remote_name := "other"; remote_url := "https://example.org/index.xml" |}.

Definition ex_other_fetched : Fetched :=
  {| dl_name := "other"; dl_url := "https://example.org/index.xml";
     dl_status := 200; dl_contents := "<index version='1'/>";
     ofstream_error := None;
     on_disk := Index.Document (Some (ex_root "index" [("version", "1")])) |}.

(** The two install tasks of the packages of [ex_plain_index]. *)
Definition ex_install (file : string) : Task :=
  InstallTask (ex_version "1.0" ["Scripts"; file], ex_entry 0) [].

(** A transaction with one task and one download outstanding. *)
Definition ex_busy : Transaction :=
  queue_push "a" "https://example.com/file"
    (push_task (ex_remove 1) (new_Transaction ["REAPER"])).

(** ** More of download.cpp *)

(** [Download::WriteData]: [size_t] arithmetic is taken on 64 bits; [data]
    is what the pointer handed in by curl points to, of which the first
    [size] bytes are appended to the string behind [ptr]. The result is
    the returned count and the new contents. *)
Definition WriteData (data : string) (rawsize nmemb : N) (contents : string)
    : N * string :=
  let size := ((rawsize * nmemb) mod 2 ^ 64)%N in
  (size, contents +:+ substring 0 (N.to_nat size) data).

(** A transfer as a sequence of [WriteData] calls, one per chunk that curl
    delivers with [rawsize] 1. *)
Definition receive (chunks : list string) (contents : string) : string :=
  foldl (λ contents data,
           snd (WriteData data 1 (N.of_nat (String.length data)) contents))
        contents chunks.

(** ** The elementary updates of a transaction

    Every operation of transaction.cpp changes the working set through a
    handful of elementary updates; [update] lists them together with the
    condition under which the code performs each one. *)
Inductive update (w : World) : Transaction → Transaction → Prop :=
| update_emit e t :
    is_commit e = false → is_observer e = false → update w t (emit e t)
| update_observer e t :
    is_observer e = true → update w t (emit e t)
| update_commit e t :
    is_commit e = true → m_isCancelled t = false → update w t (emit e t)
| update_push_new entry t :
    m_isCancelled t = false →
    Registry.status (snd entry) ≠ Registry.UpdateAvailable →
    update w t (push_new entry t)
| update_push_update entry t :
    m_isCancelled t = false →
    Registry.status (snd entry) = Registry.UpdateAvailable →
    update w t (push_update entry t)
| update_add_removals l t :
    m_isCancelled t = false → update w t (add_removals l t)
| update_set_step s t : update w t (set_step s t)
| update_cancel t : update w t (set_isCancelled true t)
| update_conflict path t :
    path ∈ m_files t →
    update w t (set_hasConflicts true (addError conflict_message (join path) t))
| update_push_remoteIndex ri t :
    (∃ root name, loadV1 w root name = Ok ri) →
    update w t (push_remoteIndex ri t)
| update_push_package entry t :
    Registry.status (snd entry) ≠ Registry.UpToDate →
    update w t (push_package entry t)
| update_push_task task t : update w t (push_task task t)
| update_insert_files l t : update w t (insert_files l t)
| update_set_queue q t : update w t (set_queue q t)
| update_addError message title t : update w t (addError message title t).

(** What no elementary update takes back: lists only get longer at the
    end, the set of registered files only gets larger, the two flags are
    only ever set, and the two root paths stay. *)
Definition only_grows (t t' : Transaction) : Prop :=
  m_errors t `prefix_of` m_errors t' ∧
  m_tasks t `prefix_of` m_tasks t' ∧
  trace t `prefix_of` trace t' ∧
  m_remoteIndexes t `prefix_of` m_remoteIndexes t' ∧
  m_packages t `prefix_of` m_packages t' ∧
  m_new t `prefix_of` m_new t' ∧
  m_updates t `prefix_of` m_updates t' ∧
  m_removals t `prefix_of` m_removals t' ∧
  m_files t ⊆ m_files t' ∧
  (m_hasConflicts t = true → m_hasConflicts t' = true) ∧
  (m_isCancelled t = true → m_isCancelled t' = true) ∧
  m_root t' = m_root t ∧ m_dbPath t' = m_dbPath t.

(** The outcome lists agree with the registry statuses they were filed
    under. *)
Definition well_reported (t : Transaction) : Prop :=
  Forall (λ entry, Registry.status (snd entry) = Registry.UpdateAvailable)
         (m_updates t) ∧
  Forall (λ entry, Registry.status (snd entry) ≠ Registry.UpdateAvailable)
         (m_new t) ∧
  Forall (λ entry, Registry.status (snd entry) ≠ Registry.UpToDate)
         (m_packages t).

(** A raised conflict flag is backed by a recorded conflict error. *)
Definition conflict_backed (t : Transaction) : Prop :=
  m_hasConflicts t = true →
  ∃ title, (conflict_message, title) ∈ m_errors t.

(** The runs of the two examples up to their end. *)
Definition ex_plain_ops : list Op :=
  [OpSynchronize ex_remote; OpIndexDownloaded ex_fetched;
   OpQueueDone; OpQueueDone].

Definition ex_conflict_ops : list Op :=
  [OpSynchronize ex_remote; OpIndexDownloaded ex_fetched; OpQueueDone].

(** The paths a walk over [pkgs] registers: the files of the last version
    of each package, in order. *)
Definition claimed_paths (pkgs : list Package) : list Path :=
  pkgs ≫= λ pkg,
    match lastVersion pkg with
    | Some ver => Version_files ver
    | None => []
    end.

(** The file [saveRemoteIndex] writes for a download. *)
Definition remote_index_path (t : Transaction) (dl : Fetched) : Path :=
  m_dbPath t ++ ["remote_" +:+ dl_name dl +:+ ".xml"].

Definition is_WriteFile (e : Event) : bool :=
  match e with WriteFile _ _ => true | _ => false end.

Definition task_entry (task : Task) : option PackageEntry :=
  match task with InstallTask entry _ => Some entry | RemoveTask _ _ => None end.

Definition task_removal (task : Task) : option Registry.Entry :=
  match task with RemoveTask _ entry => Some entry | InstallTask _ _ => None end.

Definition is_RegistryPush (e : Event) : bool :=
  match e with RegistryPush _ => true | _ => false end.

Definition is_RegistryForget (e : Event) : bool :=
  match e with RegistryForget _ => true | _ => false end.

(** A package that the resolution pass finds satisfied in state [t]: the
    registry says up to date and every file of its last version exists
    under the root. *)
Definition satisfied (w : World) (t : Transaction) (pkg : Package) : Prop :=
  ∃ ver, lastVersion pkg = Some ver ∧
         Registry.status (Registry_query w (trace t) pkg) = Registry.UpToDate ∧
         Forall (λ p, file_exists w (trace t) (join (m_root t ++ p)) = true)
                (Version_files ver).

(** The registry calls of a stretch of events, in order. *)
Definition pushes_of (evs : list Event) : list Version :=
  omap (λ e, match e with RegistryPush ver => Some ver | _ => None end) evs.

Definition forgets_of (evs : list Event) : list Registry.Entry :=
  omap (λ e, match e with RegistryForget entry => Some entry | _ => None end) evs.

Definition is_update (entry : PackageEntry) : bool :=
  Registry.Status_eqb (Registry.status (snd entry)) Registry.UpdateAvailable.

(** The loop bodies of [install] and [uninstall], by name. *)
Definition install_step (w : World) (t : Transaction) (entry : PackageEntry)
    : Transaction :=
  let regEntry := snd entry in
  let currentFiles := Registry_getFiles w (trace t) regEntry in
  let '(task, t) := new_InstallTask entry currentFiles t in
  addTask w task t.

Definition uninstall_step (w : World) (t : Transaction) (entry : Registry.Entry)
    : Transaction :=
  let files := Registry_getFiles w (trace t) entry in
  let '(task, t) := new_RemoveTask files entry t in
  addTask w task t.

(** A world in which the registry reports every package up to date, every
    file exists and the remote has no registry entry, and a transaction
    that has loaded the plain index. *)
Definition ex_installed_world : World :=
  {| loadV1 := loadV1 ex_plain_world;
     Registry_query := λ _ _, ex_installed 0;
     Registry_queryAll := λ _ _, [];
     Registry_getFiles := λ _ _, [];
     Registry_addToREAPER := λ _ _ _, true;
     file_exists := λ _ _, true;
     Task_commit := λ _ _, true;
     RemoveTask_removedFiles := λ _ _, [];
     Version_fullName := ver_name |}.

Definition ex_installed_tx : Transaction :=
  push_remoteIndex ex_plain_index (new_Transaction ["REAPER"]).

(** ** dialog.cpp

    [int] and [LONG] values are integers of [Z]; the arithmetic below is
    that of the code as long as no intermediate value leaves the range of
    [int], which the code leaves undefined. *)

Module Dialog.

Record RECT := {
  left : Z;
  top : Z;
  right : Z;
  bottom : Z;
}.

(** The virtual screen ([GetSystemMetrics]) or the viewport of the
    current screen ([SWELL_GetViewPort]), as the four values
    [boundedMove] computes from either. *)
Record Viewport := {
  viewportX : Z;
  viewportWidth : Z;
  viewportY : Z;
  viewportHeight : Z;
}.

(** Calls into the window system. *)
Inductive Call :=
| SetTimer (id ms : Z)
| KillTimer (id : Z)
| SetWindowPos_size (width height : Z)
| SetWindowPos_move (x y : Z)
| onResize.

(** [*m_timers.rbegin()], the greatest element of the set ([m_timers] is
    an ordered set of [int], declared in dialog.hpp). *)
Definition greatest (timers : gset Z) : Z :=
  let l := elements timers in foldr Z.max (hd 0%Z l) l.

(** [Dialog::startTimer]: the returned id, the timers afterwards and the
    calls made. [*m_timers.rbegin() + 1] is [int] arithmetic: past
    [INT_MAX] it comes out as [INT_MIN]. *)
Definition startTimer (ms id : Z) (replace : bool) (m_timers : gset Z)
    : Z * gset Z * list Call :=
  let start (id : Z) := (id, m_timers ∪ {[id]}, [SetTimer id ms]) in
  if (id =? 0)%Z then
    if bool_decide (m_timers = ∅) then start 1%Z
    else start (to_int (greatest m_timers + 1))
  else if negb replace && bool_decide (id ∈ m_timers) then
    (0%Z, m_timers, [])
  else start id.

(** [Dialog::stopTimer] *)
Definition stopTimer (id : Z) (m_timers : gset Z) : gset Z * list Call :=
  (m_timers ∖ {[id]}, [KillTimer id]).

(** [Dialog::boundedMove]: the position handed to [SetWindowPos], from the
    window rectangle, the viewport and the position asked for. *)
Definition boundedMove (rect : RECT) (vp : Viewport) (x y : Z) : Z * Z :=
  let width := (right rect - left rect)%Z in
  let height := (bottom rect - top rect)%Z in
  (Z.min (Z.max (viewportX vp) x)
         (viewportWidth vp - width - Z.abs (viewportX vp)),
   Z.min (Z.max (viewportY vp) y)
         (viewportHeight vp - height - Z.abs (viewportY vp)))%Z.

(** The window system, as far as the dialog relies on it: a call with
    [SWP_NOMOVE] gives the window the size asked for and keeps its top
    left corner, a call with [SWP_NOSIZE] moves the top left corner and
    keeps the size. *)
Definition resize (width height : Z) (rect : RECT) : RECT :=
  {| left := left rect; top := top rect;
     right := left rect + width; bottom := top rect + height |}.

Definition move (x y : Z) (rect : RECT) : RECT :=
  {| left := x; top := y;
     right := x + (right rect - left rect);
     bottom := y + (bottom rect - top rect) |}.

(** [Serializer::Data]: a sequence of records of two integers (the
    declaration is in serializer.hpp, which is missing; the code builds
    records from two values and reads their components 0 and 1). *)
Definition Data := list (Z * Z).

(** [Dialog::saveState] *)
Definition saveState (rect : RECT) (data : Data) : Data :=
  data ++ [(left rect, top rect);
           (right rect - left rect, bottom rect - top rect)%Z].

(** [Dialog::restoreState]: the window rectangle and the data afterwards,
    and the calls made. [boundedMove] reads the window rectangle after the
    resize. *)
Definition restoreState (vp : Viewport) (rect : RECT) (data : Data)
    : RECT * Data * list Call :=
  match data with
  | pos :: size :: rest =>
      let rect1 := resize (fst size) (snd size) rect in
      let '(x, y) := boundedMove rect1 vp (fst pos) (snd pos) in
      (move x y rect1, rest,
       [SetWindowPos_size (fst size) (snd size); onResize;
        SetWindowPos_move x y])
  | _ => (rect, data, [])
  end.

End Dialog.

(** ** browser_entry.hpp *)

Module Entry.

Inductive Flag := UninstalledFlag | InstalledFlag | OutOfDateFlag | ObsoleteFlag.

Definition Flag_value (f : Flag) : Z :=
  match f with
  | UninstalledFlag => Z.shiftl 1 0
  | InstalledFlag => Z.shiftl 1 1
  | OutOfDateFlag => Z.shiftl 1 2
  | ObsoleteFlag => Z.shiftl 1 3
  end.

#[export] Instance Flag_eq_dec : EqDecision Flag.
Proof. solve_decision. Defined.

(** [Browser::Entry::test] on the flag word [m_flags]. *)
Definition test (m_flags : Z) (f : Flag) : bool :=
  negb (Z.land m_flags (Flag_value f) =? 0)%Z.

(** [Browser::Entry::canPin]: [target] is the [boost::optional] of a
    version pointer, which may be null. *)
Definition canPin (m_flags : Z) (target : option (option Version)) : bool :=
  match target with
  | Some version => bool_decide (version ≠ None)
  | None => test m_flags InstalledFlag
  end.

(** A flag word that has the bits of the given flags. *)
Definition flags_of (l : list Flag) : Z :=
  foldr (λ f acc, Z.lor (Flag_value f) acc) 0%Z l.

End Entry.

Definition ex_viewport : Dialog.Viewport :=
  {| Dialog.viewportX := 0; Dialog.viewportWidth := 1920;
     Dialog.viewportY := 0; Dialog.viewportHeight := 1080 |}.

Definition ex_rect : Dialog.RECT :=
  {| Dialog.left := 100; Dialog.top := 50;
     Dialog.right := 900; Dialog.bottom := 650 |}.

(** An operation of a run that cannot hit the null root of
    [RemoteIndex::load]: a downloaded index whose document has a root
    element, or any other operation. *)
Definition rooted (op : Op) : Prop :=
  match op with
  | OpIndexDownloaded dl => on_disk dl ≠ Index.Document None
  | _ => True
  end.

Definition versioned (pkgs : list Package) : Prop :=
  Forall (λ pkg, m_versions pkg ≠ []) pkgs.

(** * Properties *)

(** ** Index model *)

Section IndexModel.

Import Index.

Lemma eqb_ptr_false (a b : ptr) : a ≠ b → negb (Nat.eqb a b) = true.
Proof. intros H. apply negb_true_iff, Nat.eqb_neq, H. Qed.

Lemma eqb_ptr_true (a b : ptr) : a = b → negb (Nat.eqb a b) = false.
Proof. intros ->. by rewrite Nat.eqb_refl. Qed.

Lemma addPackage_foreign (pkg : Package) (cat : Category) :
  m_category pkg ≠ cat_this cat →
  addPackage pkg cat = Throw "package belongs to another category".
Proof. intros H. unfold addPackage. by rewrite eqb_ptr_false. Qed.

Lemma addCategory_foreign (cat : Category) (ri : RemoteIndex) :
  m_index cat ≠ ri_this ri →
  addCategory cat ri = Throw "category belongs to another index".
Proof. intros H. unfold addCategory. by rewrite eqb_ptr_false. Qed.

(** A successful [addPackage] either leaves the category as it was or
    appends the package, which then points back to the category. *)
Lemma addPackage_Ok (pkg : Package) (cat cat' : Category) :
  addPackage pkg cat = Ok cat' →
  m_category pkg = cat_this cat ∧
  cat_this cat' = cat_this cat ∧ m_index cat' = m_index cat ∧
  (cat_packages cat' = cat_packages cat ∨
   (cat_packages cat' = cat_packages cat ++ [pkg] ∧ m_versions pkg ≠ [])).
Proof.
  unfold addPackage.
  destruct (Nat.eqb (m_category pkg) (cat_this cat)) eqn:E; simpl; [|done].
  apply Nat.eqb_eq in E.
  destruct (Package.Type_eqb _ _); [intros [= <-]; auto|].
  case_bool_decide as Hv; intros [= <-]; simpl; [auto|].
  repeat split; try done. right. by split.
Qed.

Lemma addCategory_Ok (cat : Category) (ri ri' : RemoteIndex) :
  addCategory cat ri = Ok ri' →
  m_index cat = ri_this ri ∧ ri_this ri' = ri_this ri ∧
  (ri' = ri ∨
   (m_categories ri' = m_categories ri ++ [cat] ∧
    m_packages ri' = m_packages ri ++ cat_packages cat)).
Proof.
  unfold addCategory.
  destruct (Nat.eqb (m_index cat) (ri_this ri)) eqn:E; simpl; [|done].
  apply Nat.eqb_eq in E.
  case_bool_decide; intros [= <-]; simpl; auto.
Qed.

Lemma addLink_fields (type : LinkType) (link : Link) (ri : RemoteIndex) :
  ri_this (addLink type link ri) = ri_this ri ∧
  m_categories (addLink type link ri) = m_categories ri ∧
  m_packages (addLink type link ri) = m_packages ri.
Proof. unfold addLink. by destruct (starts_with _ _). Qed.

(** [addPackage] on a stored category keeps its address, back-reference
    and name, and either leaves its packages or appends the package. *)
Lemma addPackage_at_fields (this : ptr) (pkg : Package) (cat : Category) :
  cat_this (addPackage_at this pkg cat) = cat_this cat ∧
  m_index (addPackage_at this pkg cat) = m_index cat ∧
  cat_name (addPackage_at this pkg cat) = cat_name cat ∧
  (cat_packages (addPackage_at this pkg cat) = cat_packages cat ∨
   cat_packages (addPackage_at this pkg cat) = cat_packages cat ++ [pkg]).
Proof.
  unfold addPackage_at. destruct (Nat.eqb _ _); [|auto].
  unfold addPackage. destruct (negb (Nat.eqb _ _)); [auto|].
  destruct (Package.Type_eqb _ _); [auto|].
  case_bool_decide; simpl; auto.
Qed.

Lemma addPackage_at_built (this : ptr) (pkg : Package) (cat : Category) :
  built_category cat → built_category (addPackage_at this pkg cat).
Proof.
  intros Hb. unfold addPackage_at. destruct (Nat.eqb _ _); [|done].
  destruct (addPackage pkg cat) as [cat'|] eqn:Hadd; [|done].
  by apply (built_addPackage pkg cat).
Qed.

Lemma built_category_inv (cat : Category) :
  built_category cat →
  ∀ pkg, pkg ∈ cat_packages cat →
         m_category pkg = cat_this cat ∧ m_versions pkg ≠ [].
Proof.
  induction 1 as [this name ri cat Hnew | pkg cat cat' _ IH Hadd].
  - unfold new_Category in Hnew. destruct (String.eqb name ""); [done|].
    injection Hnew as <-. simpl. intros pkg Hin. by apply elem_of_nil in Hin.
  - apply addPackage_Ok in Hadd as (Hcat & Hthis & _ & [Hp | [Hp Hv]]);
      rewrite Hp, Hthis; [exact IH|].
    intros p [Hin | ->%list_elem_of_singleton]%elem_of_app; auto.
Qed.

Lemma built_index_inv (ri : RemoteIndex) :
  built_index ri →
  (∀ cat, cat ∈ m_categories ri →
     m_index cat = ri_this ri ∧ built_category cat) ∧
  (∀ pkg, pkg ∈ m_packages ri →
     ∃ cat, cat ∈ m_categories ri ∧ pkg ∈ cat_packages cat).
Proof.
  induction 1 as [this name ri Hnew | cat ri ri' _ [IHc IHp] Hcat Hadd
                 | type link ri _ IH | this pkg ri _ [IHc IHp]].
  - unfold new_RemoteIndex in Hnew. destruct (String.eqb name ""); [done|].
    injection Hnew as <-. simpl.
    split; intros x Hin; by apply elem_of_nil in Hin.
  - apply addCategory_Ok in Hadd as (Hidx & Hthis & [-> | [Hc Hp]]); [done|].
    rewrite Hc, Hp, Hthis. split.
    + intros c [Hin | ->%list_elem_of_singleton]%elem_of_app; auto.
    + intros p [Hin | Hin]%elem_of_app.
      * destruct (IHp p Hin) as (c & Hc' & Hpc).
        exists c. split; [apply elem_of_app; auto | done].
      * exists cat. split; [apply elem_of_app; right; by left | done].
  - destruct (addLink_fields type link ri) as (-> & -> & ->). exact IH.
  - simpl. split.
    + intros cat' (cat & -> & Hin)%list_elem_of_fmap.
      destruct (IHc cat Hin) as [Hidx Hb].
      destruct (addPackage_at_fields this pkg cat) as (_ & -> & _).
      split; [done|]. by apply addPackage_at_built.
    + intros p (cat & Hin & Hp)%IHp.
      exists (addPackage_at this pkg cat). split.
      * apply list_elem_of_fmap. by exists cat.
      * destruct (addPackage_at_fields this pkg cat) as (_ & _ & _ & [-> | ->]);
          [done|]. apply elem_of_app. by left.
Qed.

(** Every package of an index the code has built has a version, which is
    what the resolution pass of the transaction relies on. *)
Lemma built_index_versions (ri : RemoteIndex) :
  built_index ri → Forall (λ pkg, m_versions pkg ≠ []) (m_packages ri).
Proof.
  intros [Hc Hp]%built_index_inv. apply Forall_forall.
  intros pkg (cat & Hin & Hpc)%Hp.
  destruct (Hc cat Hin) as [_ Hb].
  by apply (built_category_inv cat Hb).
Qed.

(** C5. A package of unknown type or without versions added to its own
    category, and a category without packages added to its own index, are
    dropped: the call returns normally (no exception) and hands back the
    container it was given, unchanged. *)
Theorem dropped_silently (pkg : Package) (cat : Category) (ri : RemoteIndex) :
  m_category pkg = cat_this cat →
  m_index cat = ri_this ri →
  (m_type pkg = Package.UnknownType ∨ m_versions pkg = [] →
   addPackage pkg cat = Ok cat) ∧
  (cat_packages cat = [] → addCategory cat ri = Ok ri).
Proof.
  intros Hpkg Hcat. split.
  - intros Hdrop. unfold addPackage. rewrite eqb_ptr_true by done.
    destruct Hdrop as [-> | ->]; [done|].
    by destruct (Package.Type_eqb _ _).
  - intros Hempty. unfold addCategory. rewrite eqb_ptr_true by done.
    by rewrite Hempty.
Qed.

Lemma dropped_silently_witness :
  addPackage (ex_package Package.UnknownType [ex_version "1.0" ["a.lua"]])
    ex_category_1 = Ok ex_category_1 ∧
  addPackage (ex_package Package.ScriptType []) ex_category_1
    = Ok ex_category_1 ∧
  addCategory ex_category ex_index_1 = Ok ex_index_1.
Proof.
  split; [|split].
  - apply (dropped_silently _ ex_category_1 ex_index_1); [reflexivity..|].
    left; reflexivity.
  - apply (dropped_silently _ ex_category_1 ex_index_1); [reflexivity..|].
    right; reflexivity.
  - apply (dropped_silently ex_script ex_category ex_index_1);
      reflexivity.
Defined.

(** C10. [addCategory] throws on a category whose back-reference is
    another index, [addPackage] throws on a package whose back-reference is
    another category; hence in every index the code has built, each stored
    category points to the index, each package stored in a category points
    to that category, and each package listed by the index sits in one of
    its categories. *)
Theorem parent_consistency (ri : RemoteIndex) :
  built_index ri →
  (∀ cat ri0, m_index cat ≠ ri_this ri0 → is_throw (addCategory cat ri0) = true) ∧
  (∀ pkg cat, m_category pkg ≠ cat_this cat → is_throw (addPackage pkg cat) = true) ∧
  (∀ cat, cat ∈ m_categories ri →
     m_index cat = ri_this ri ∧
     ∀ pkg, pkg ∈ cat_packages cat → m_category pkg = cat_this cat) ∧
  (∀ pkg, pkg ∈ m_packages ri →
     ∃ cat, cat ∈ m_categories ri ∧ pkg ∈ cat_packages cat ∧
            m_category pkg = cat_this cat).
Proof.
  intros [Hc Hp]%built_index_inv. repeat split.
  - intros cat ri0 H. by rewrite addCategory_foreign.
  - intros pkg cat H. by rewrite addPackage_foreign.
  - by apply Hc.
  - intros pkg Hin. apply (built_category_inv cat); [by apply Hc | done].
  - intros pkg (cat & Hin & Hpc)%Hp. exists cat. repeat split; try done.
    apply (built_category_inv cat); [by apply Hc | done].
Qed.

Lemma ex_index_1_built : built_index ex_index_1.
Proof.
  apply (built_addCategory ex_category_1 ex_index).
  - by apply (built_new_RemoteIndex 1 "repo").
  - apply (built_addPackage ex_script ex_category); [|reflexivity].
    by apply (built_new_Category 2 "Category" 1).
  - reflexivity.
Qed.

Lemma parent_consistency_witness :
  built_index ex_index_1 ∧
  m_index ex_category_1 = ri_this ex_index_1 ∧
  m_category ex_script = cat_this ex_category_1.
Proof.
  split; [exact ex_index_1_built|].
  destruct (parent_consistency ex_index_1 ex_index_1_built)
    as (_ & _ & Hc & _).
  destruct (Hc ex_category_1) as [Hi Hp]; [by left|].
  split; [exact Hi|]. apply Hp. by left.
Defined.

(** A URL whose scheme is http or https begins with the letters "http". *)
Lemma web_scheme_starts_with_http (url : string) :
  scheme_on web_schemes url = true → starts_with url "http" = true.
Proof.
  unfold scheme_on.
  destruct (url_scheme url) as [s|] eqn:Hs; [|done].
  intros Hin%bool_decide_eq_true.
  assert (∃ r, s = String "h" (String "t" (String "t" (String "p" r))))
    as [r ->].
  { unfold web_schemes in Hin.
    apply elem_of_cons in Hin as [-> | Hin]; [by eexists|].
    apply list_elem_of_singleton in Hin as ->. by eexists. }
  destruct url as [|c1 [|c2 [|c3 [|c4 url]]]]; simpl in Hs;
    repeat (match type of Hs with
            | context [Ascii.eqb ?c ":"] => destruct (Ascii.eqb c ":")
            end; simpl in Hs);
    try discriminate.
  destruct (url_scheme url); simpl in Hs; [|discriminate].
  injection Hs as -> -> -> -> _. reflexivity.
Qed.

Lemma longest_bound (l : list string) (s : string) :
  s ∈ l → (String.length s ≤ longest l)%nat.
Proof.
  induction l as [|x l IH]; [by intros ?%elem_of_nil|].
  intros [-> | H]%elem_of_cons; simpl; [lia|].
  specialize (IH H). lia.
Qed.

Lemma url_scheme_pad (n : nat) : url_scheme (pad n ":") = Some (pad n "").
Proof. induction n as [|n IH]; simpl; [done|]. by rewrite IH. Qed.

Lemma length_pad (n : nat) : String.length (pad n "") = n.
Proof. induction n as [|n IH]; simpl; [done|]. by rewrite IH. Qed.

(** The test of [addLink] is no allow-list of schemes: whatever finite
    list of schemes one takes, some URL with a scheme outside the list
    passes it. *)
Lemma no_scheme_list_matches (allowed : list string) :
  starts_with (long_scheme_url (S (longest allowed))) "http" = true ∧
  scheme_on allowed (long_scheme_url (S (longest allowed))) = false.
Proof.
  split; [done|]. unfold scheme_on, long_scheme_url.
  cbn [url_scheme Ascii.eqb Bool.eqb]. rewrite url_scheme_pad. simpl.
  apply bool_decide_eq_false. intros Hin%longest_bound.
  simpl in Hin. rewrite length_pad in Hin. lia.
Qed.

(** C8 (amended). A link is retained exactly when its URL begins with the
    four letters "http": it is then appended to the links of its type, and
    otherwise the index is left as it was. URLs whose scheme is http or
    https pass this test. *)
Theorem addLink_keeps_http_prefix (type : LinkType) (link : Link) (ri : RemoteIndex) :
  links type (addLink type link ri)
    = links type ri
      ++ (if starts_with (link_url link) "http" then [link] else []) ∧
  (starts_with (link_url link) "http" = false → addLink type link ri = ri) ∧
  (scheme_on web_schemes (link_url link) = true →
   links type (addLink type link ri) = links type ri ++ [link]).
Proof.
  assert (links type (addLink type link ri)
          = links type ri
            ++ (if starts_with (link_url link) "http" then [link] else []))
    as Hlinks.
  { unfold addLink, links.
    destruct (starts_with _ _); simpl; [|by rewrite app_nil_r].
    rewrite filter_app, fmap_app. f_equal.
    rewrite filter_cons, filter_nil. simpl.
    destruct type; reflexivity. }
  split; [exact Hlinks|]. split.
  - intros H. unfold addLink. by rewrite H.
  - intros H%web_scheme_starts_with_http. by rewrite Hlinks, H.
Qed.

Lemma addLink_keeps_http_prefix_witness :
  addLink WebsiteLink (ex_link "ftp://example.com/") ex_index_1 = ex_index_1 ∧
  links DonationLink
    (addLink DonationLink (ex_link "https://example.com/donate") ex_index_1)
    = [ex_link "https://example.com/donate"].
Proof.
  split.
  - apply (addLink_keeps_http_prefix WebsiteLink (ex_link "ftp://example.com/")).
    reflexivity.
  - apply (addLink_keeps_http_prefix DonationLink
             (ex_link "https://example.com/donate") ex_index_1).
    reflexivity.
Defined.

(** C8 (as stated) fails: the URL "httpx://example.com/" has the scheme
    "httpx", which is neither http nor https, and the link is stored. *)
Lemma addLink_keeps_unlisted_scheme :
  url_scheme "httpx://example.com/" = Some "httpx" ∧
  scheme_on web_schemes "httpx://example.com/" = false ∧
  links WebsiteLink
    (addLink WebsiteLink (ex_link "httpx://example.com/") ex_index)
    = [ex_link "httpx://example.com/"].
Proof. repeat split. Qed.

(** The version is an [int] whatever the attribute says. *)
Lemma to_int_range (z : Z) : (INT_MIN ≤ to_int z ≤ INT_MAX)%Z.
Proof.
  unfold to_int, INT_MIN, INT_MAX.
  pose proof (Z.mod_pos_bound (z + 2 ^ 31) (2 ^ 32)). lia.
Qed.

Lemma to_int_id (z : Z) : (INT_MIN ≤ z ≤ INT_MAX)%Z → to_int z = z.
Proof.
  unfold to_int, INT_MIN, INT_MAX. intros H.
  rewrite Z.mod_small; lia.
Qed.

Lemma Attribute_int_range (name : string) (e : TiXmlElement) :
  (INT_MIN ≤ Attribute_int name e 0 ≤ INT_MAX)%Z.
Proof.
  unfold Attribute_int. destruct (find_attribute _ _).
  - apply to_int_range.
  - unfold INT_MIN, INT_MAX. lia.
Qed.

(** C6 (amended). [load] has no defined outcome (it reads the tag through
    a null pointer: neither an error nor an index) exactly on a document
    that loaded without a root element. On every other input it returns;
    it throws exactly when the file cannot be opened, the document does
    not load, the root tag is not "index", the version attribute is
    missing, does not start with a number or reads as 0, the version, read
    as a C [int], is not 1, or the version 1 loader throws; and otherwise
    it hands back the index of the version 1 loader. *)
Theorem load_throws_iff (loadV1 : TiXmlElement → string → result RemoteIndex)
    (name : string) (file : IndexFile) :
  (load loadV1 name file = None ↔ file = Document None) ∧
  (file ≠ Document None →
   ∃ r, load loadV1 name file = Some r ∧
        is_throw r = load_failure loadV1 name file ∧
        ∀ ri, r = Ok ri →
          ∃ root, file = Document (Some root) ∧ loadV1 root name = Ok ri).
Proof.
  split.
  { destruct file as [e | e | [root|]]; simpl; [by split..| |by split].
    destruct (negb _); [by split|].
    destruct (_ =? 0)%Z; [by split|]. destruct (_ =? 1)%Z; by split. }
  intros Hroot. destruct file as [e | e | [root|]]; [| | |done].
  - eexists. split; [reflexivity|]. split; [reflexivity|]. discriminate.
  - eexists. split; [reflexivity|]. split; [reflexivity|]. discriminate.
  - unfold load, load_failure, listed_failure.
    destruct (String.eqb (Value root) "index"); simpl.
    2:{ eexists. split; [reflexivity|]. split; [reflexivity|]. discriminate. }
    destruct (Z.eqb_spec (Attribute_int "version" root 0) 0) as [-> | H0].
    { eexists. split; [reflexivity|]. split; [reflexivity|]. discriminate. }
    destruct (Z.eqb_spec (Attribute_int "version" root 0) 1) as [-> | H1].
    { eexists. split; [reflexivity|]. split; [reflexivity|].
      intros ri Hri. by exists root. }
    eexists. split; [reflexivity|]. split; [|discriminate]. simpl.
    by rewrite orb_true_r.
Qed.

Lemma load_throws_iff_witness :
  ∃ r, load ex_loadV1 "repo"
         (Document (Some (ex_root "index" [("version", "2")]))) = Some r ∧
       is_throw r = true.
Proof.
  destruct (load_throws_iff ex_loadV1 "repo"
              (Document (Some (ex_root "index" [("version", "2")]))))
    as [_ H].
  destruct H as (r & Hr & Ht & _); [discriminate|].
  exists r. split; [exact Hr | exact Ht].
Defined.

(** Each way through [load], on small documents. *)
Example load_by_case :
  load ex_loadV1 "repo" (Document (Some (ex_root "index" [("version", "1")])))
    = Some (Ok ex_index) ∧
  load ex_loadV1 "repo" (Document (Some (ex_root "index" [("version", "2")])))
    = Some (Throw "unsupported version") ∧
  load ex_loadV1 "repo" (Document (Some (ex_root "index" [("version", "-1")])))
    = Some (Throw "unsupported version") ∧
  load ex_loadV1 "repo" (Document (Some (ex_root "index" [("version", "one")])))
    = Some (Throw "invalid version") ∧
  load ex_loadV1 "repo" (Document (Some (ex_root "index" [("commit", "x")])))
    = Some (Throw "invalid version") ∧
  load ex_loadV1 "repo" (Document (Some (ex_root "html" [("version", "1")])))
    = Some (Throw "invalid index") ∧
  load ex_loadV1 "repo" (Malformed "Error reading end tag.")
    = Some (Throw "Error reading end tag.").
Proof. repeat split. Qed.

(** The version is compared as the [int] it was read into: 2^32 + 1 reads
    as 1 and reaches the version 1 loader, 2^32 reads as 0, and a number
    beyond the range of [long] reads as -1. *)
Example load_version_is_an_int :
  atoi "4294967297" = 1%Z ∧
  load ex_loadV1 "repo"
    (Document (Some (ex_root "index" [("version", "4294967297")])))
    = Some (Ok ex_index) ∧
  load ex_loadV1 "repo"
    (Document (Some (ex_root "index" [("version", "4294967296")])))
    = Some (Throw "invalid version") ∧
  load ex_loadV1 "repo"
    (Document (Some (ex_root "index" [("version", "9223372036854775808")])))
    = Some (Throw "unsupported version") ∧
  load ex_loadV1 "repo" (Document None) = None.
Proof. repeat split. Qed.

(** C6 (as stated) fails: an index file that cannot be opened makes [load]
    throw, and none of the listed causes is there (no root element, no
    version attribute, no source). *)
Lemma load_throws_on_unreadable_file :
  load ex_loadV1 "repo" (Unreadable "No such file or directory")
    = Some (Throw "No such file or directory") ∧
  listed_failure ex_loadV1 "repo" (Unreadable "No such file or directory")
    = false.
Proof. split; reflexivity. Qed.

End IndexModel.

(** ** Version names and the version container *)

Section Versions.

Lemma compare_segments_refl (a : list N) : compare_segments a a = Eq.
Proof.
  induction a as [|x a IH]; simpl; [done|]. by rewrite N.compare_refl.
Qed.

Lemma compare_segments_antisym (a b : list N) :
  compare_segments b a = CompOpp (compare_segments a b).
Proof.
  revert b. induction a as [|x a IH]; intros [|y b];
    cbn [compare_segments]; try done.
  - by destruct (all_zero (y :: b)).
  - by destruct (all_zero (x :: a)).
  - rewrite (N.compare_antisym x y).
    destruct (N.compare x y); simpl; auto.
Qed.

Lemma compare_segments_nil_r (a : list N) : compare_segments a [] ≠ Lt.
Proof.
  destruct a as [|x a]; [by compute|].
  cbn [compare_segments]. by destruct (all_zero (x :: a)).
Qed.

Lemma compare_segments_zero_r (b c : list N) :
  all_zero c = true → compare_segments b c ≠ Lt.
Proof.
  revert c. induction b as [|y b IH]; intros c Hc.
  - cbn [compare_segments]. by rewrite Hc.
  - destruct c as [|z c]; [apply compare_segments_nil_r|].
    cbn [compare_segments].
    change ((0 =? z)%N && all_zero c = true) in Hc.
    apply andb_true_iff in Hc as [Hz Hc]. apply N.eqb_eq in Hz. subst z.
    destruct (N.compare_spec y 0) as [-> | H | H]; [by apply IH | lia | done].
Qed.

Lemma compare_segments_trans (a b c : list N) :
  compare_segments a b = Lt → compare_segments b c = Lt →
  compare_segments a c = Lt.
Proof.
  revert b c. induction a as [|x a IH]; intros b c Hab Hbc.
  - cbn [compare_segments].
    destruct (all_zero c) eqn:Hz; [|done].
    by apply compare_segments_zero_r in Hbc.
  - destruct b as [|y b]; [by apply compare_segments_nil_r in Hab|].
    destruct c as [|z c]; [by apply compare_segments_nil_r in Hbc|].
    cbn [compare_segments] in *.
    destruct (N.compare_spec x y) as [-> | Hxy | Hxy]; [| |done].
    + destruct (N.compare_spec y z) as [-> | Hyz | Hyz]; [|done..].
      by apply (IH b).
    + destruct (N.compare_spec y z) as [-> | Hyz | Hyz]; [| |done].
      * by apply N.compare_lt_iff in Hxy as ->.
      * assert (x < z)%N as ->%N.compare_lt_iff by lia. done.
Qed.

#[local] Instance Version_lt_trans : Transitive Version_lt.
Proof. intros a b c. apply compare_segments_trans. Qed.

Lemma Version_compare_Gt (a b : Version) :
  Version_compare a b = Gt → Version_lt b a.
Proof.
  unfold Version_lt, Version_compare. intros H.
  by rewrite compare_segments_antisym, H.
Qed.

Lemma VersionSet_insert_elem (ver w : Version) (s : list Version) :
  w ∈ VersionSet_insert ver s → w = ver ∨ w ∈ s.
Proof.
  induction s as [|x s IH]; simpl.
  - intros ->%list_elem_of_singleton. by left.
  - destruct (Version_compare ver x).
    + by right.
    + intros [-> | H]%elem_of_cons; [by left | by right].
    + intros [-> | H]%elem_of_cons; [right; by left|].
      destruct (IH H) as [-> | ?]; [by left | right; by right].
Qed.

Lemma VersionSet_insert_keeps (ver w : Version) (s : list Version) :
  w ∈ s → w ∈ VersionSet_insert ver s.
Proof.
  induction s as [|x s IH]; simpl; [by intros ?%elem_of_nil|].
  destruct (Version_compare ver x); [done | by right |].
  intros [-> | H]%elem_of_cons; [by left | right; by apply IH].
Qed.

Lemma VersionSet_insert_stored (ver : Version) (s : list Version) :
  ∃ w, w ∈ VersionSet_insert ver s ∧ Version_compare ver w = Eq.
Proof.
  induction s as [|x s (w & Hin & Heq)]; simpl.
  - exists ver. split; [by left | apply compare_segments_refl].
  - destruct (Version_compare ver x) eqn:E.
    + exists x. split; [by left | done].
    + exists ver. split; [by left | apply compare_segments_refl].
    + exists w. split; [by right | done].
Qed.

Lemma VersionSet_insert_sorted (ver : Version) (s : list Version) :
  StronglySorted Version_lt s →
  StronglySorted Version_lt (VersionSet_insert ver s).
Proof.
  induction 1 as [|x s Hs IH Hx]; simpl.
  - repeat constructor.
  - destruct (Version_compare ver x) eqn:E.
    + by constructor.
    + constructor; [by constructor|].
      constructor; [done|].
      eapply Forall_impl; [exact Hx|]. intros y Hy. by transitivity x.
    + constructor; [done|].
      apply Forall_forall. intros y [-> | Hy]%VersionSet_insert_elem.
      * by apply Version_compare_Gt.
      * revert y Hy. by apply Forall_forall.
Qed.

Lemma built_package_sorted (pkg : Package) :
  built_package pkg → StronglySorted Version_lt (versions pkg).
Proof.
  induction 1 as [|ver pkg _ IH]; [constructor|].
  unfold addVersion. case_bool_decide; [done|].
  by apply VersionSet_insert_sorted.
Qed.

Lemma sorted_last_greatest (s : list Version) (m : Version) :
  StronglySorted Version_lt s → last s = Some m →
  m ∈ s ∧ ∀ v, v ∈ s → v = m ∨ Version_lt v m.
Proof.
  induction 1 as [|x s Hs IH Hx]; [done|].
  destruct s as [|y s].
  - intros [= ->]. split; [by left|].
    intros v ->%list_elem_of_singleton. by left.
  - intros Hlast. change (last (y :: s) = Some m) in Hlast.
    destruct (IH Hlast) as [Hin Hmax]. split; [by right|].
    intros v [-> | Hv]%elem_of_cons; [|by apply Hmax].
    right. by apply (proj1 (Forall_forall _ _) Hx).
Qed.

(** C3. In every package, the version container is sorted ascending
    (strictly) by numeric-segment comparison of the version names, and when
    it is not empty [lastVersion] is its greatest element: a stored
    version, with every other stored version strictly below it. Every
    version added with a source is stored, itself or the stored version
    of an equivalent name, and stays stored. So among "1.9", "1.10" and
    "0.5" the last version is "1.10". *)
Theorem lastVersion_greatest (pkg : Package) :
  built_package pkg →
  StronglySorted Version_lt (versions pkg) ∧
  (versions pkg ≠ [] →
   ∃ m, lastVersion pkg = Some m ∧ m ∈ versions pkg ∧
        ∀ v, v ∈ versions pkg → v = m ∨ Version_lt v m) ∧
  (∀ ver, ver_sources ver ≠ [] →
     (∃ w, w ∈ versions (addVersion ver pkg) ∧ Version_compare ver w = Eq) ∧
     ∀ v, v ∈ versions pkg → v ∈ versions (addVersion ver pkg)).
Proof.
  intros Hs%built_package_sorted. split; [done|]. split.
  - intros Hne. unfold lastVersion, versions in *.
    destruct (last (m_versions pkg)) as [m|] eqn:Hlast.
    + exists m. split; [done|]. by apply sorted_last_greatest.
    + by apply last_None in Hlast.
  - intros ver Hsrc. unfold addVersion, versions. rewrite bool_decide_false by done.
    simpl. split; [apply VersionSet_insert_stored|].
    intros v. apply VersionSet_insert_keeps.
Qed.

Lemma lastVersion_greatest_witness :
  built_package ex_versions_package ∧
  (ver_name <$> versions ex_versions_package) = ["0.5"; "1.9"; "1.10"] ∧
  ∃ m, lastVersion ex_versions_package = Some m ∧ ver_name m = "1.10" ∧
       ∀ v, v ∈ versions ex_versions_package → v = m ∨ Version_lt v m.
Proof.
  assert (built_package ex_versions_package) as Hb
    by (do 3 apply built_addVersion; apply built_new_Package).
  split; [exact Hb|]. split; [reflexivity|].
  destruct (lastVersion_greatest ex_versions_package Hb) as (_ & Hlast & _).
  destruct Hlast as (m & Hm & _ & Hmax); [discriminate|].
  exists m. split; [exact Hm|]. split; [|exact Hmax].
  injection Hm as <-. reflexivity.
Defined.

(** C7. Adding a version without sources leaves the package, and so its
    version set, as it was; a fresh package to which only such a version
    was added has no version and [lastVersion] gives none. *)
Theorem addVersion_drops_empty (ver : Version) (pkg : Package) :
  ver_sources ver = [] →
  addVersion ver pkg = pkg ∧
  versions (addVersion ver pkg) = versions pkg ∧
  ∀ type name cat,
    versions (addVersion ver (new_Package type name cat)) = [] ∧
    lastVersion (addVersion ver (new_Package type name cat)) = None.
Proof.
  intros H. unfold addVersion. rewrite H. simpl. done.
Qed.

Lemma addVersion_drops_empty_witness :
  versions (addVersion ex_empty_version ex_script) = versions ex_script ∧
  lastVersion (addVersion ex_empty_version
                 (new_Package Package.ScriptType "a" 0)) = None.
Proof.
  destruct (addVersion_drops_empty ex_empty_version ex_script) as (_ & H1 & _);
    [reflexivity|].
  destruct (addVersion_drops_empty ex_empty_version ex_script) as (_ & _ & H2);
    [reflexivity|].
  split; [exact H1 | apply H2].
Defined.

(** test/package.cpp, "package versions are sorted" and "drop empty
    version", on the model. *)
Example test_package_versions_are_sorted :
  versions test_pack = [] ∧
  versions (addVersion test_final test_pack) = [test_final] ∧
  versions (addVersion test_alpha (addVersion test_final test_pack))
    = [test_alpha; test_final] ∧
  lastVersion (addVersion test_alpha (addVersion test_final test_pack))
    = Some test_final.
Proof. repeat split. Qed.

Example test_drop_empty_version :
  versions (addVersion ex_empty_version test_pack) = [] ∧
  lastVersion (addVersion ex_empty_version test_pack) = None.
Proof. split; reflexivity. Qed.

End Versions.

(** ** Downloads *)

Section Downloads.

Import Download.

(** A job that is not aborted when the worker enters [run] does start a
    transfer, and reports exactly one terminal state after it. *)
Lemma run_transfers (NoCacheFlag : Z) (dl : Download) (env : Env) :
  aborted_on_entry env = false →
  curl_easy_perform ∈ run NoCacheFlag dl env ∧
  final_state (run NoCacheFlag dl env)
    = Some (if aborted_after_transfer env then Aborted
            else if negb (res env =? CURLE_OK)%Z then Failure else Success).
Proof.
  intros H. unfold run. rewrite H. split.
  - apply elem_of_app. left. do 10 right. by left.
  - unfold final_state.
    destruct (aborted_after_transfer env); [done|].
    by destruct (negb _).
Qed.

(** C9. A job already marked aborted when a worker enters [run] reports
    the terminal state [Aborted] at once: that report is all [run] does,
    nothing goes through curl and no transfer is started. *)
Theorem run_aborted_before_start (NoCacheFlag : Z) (dl : Download) (env : Env) :
  aborted_on_entry env = true →
  run NoCacheFlag dl env = [finish Aborted (Some "cancelled")] ∧
  final_state (run NoCacheFlag dl env) = Some Aborted ∧
  (curl_easy_perform ∉ run NoCacheFlag dl env) ∧
  Forall (λ e, is_network e = false) (run NoCacheFlag dl env).
Proof.
  intros H. unfold run. rewrite H. repeat split.
  - intros Hin. apply list_elem_of_singleton in Hin. discriminate.
  - by repeat constructor.
Qed.

Lemma run_aborted_before_start_witness :
  run 1 ex_download (ex_env true) = [finish Aborted (Some "cancelled")] ∧
  (curl_easy_perform ∉ run 1 ex_download (ex_env true)).
Proof.
  destruct (run_aborted_before_start 1 ex_download (ex_env true))
    as (H1 & _ & H2 & _); [reflexivity|].
  split; [exact H1 | exact H2].
Defined.

End Downloads.

(** ** The transaction *)

Section Transactions.

Context (w : World).

(** *** Commit and finish *)

Lemma onCommit_trace (task : Task) (t : Transaction) :
  ∃ evs, trace (onCommit w task t) = trace t ++ evs ∧
         Forall (λ e, is_task_commit e = true) evs ∧ commits_of evs = [].
Proof.
  destruct task as [entry files | files entry]; simpl.
  - exists [RegistryPush (fst entry); AddToREAPER (fst entry)].
    split; [|split; [by repeat constructor | done]].
    destruct (Registry.Status_eqb _ _), (negb _); simpl;
      by rewrite <- app_assoc.
  - exists [RegistryForget entry]. by repeat constructor.
Qed.

Lemma onCommit_fields (task : Task) (t : Transaction) :
  m_isCancelled (onCommit w task t) = m_isCancelled t ∧
  m_hasConflicts (onCommit w task t) = m_hasConflicts t ∧
  m_tasks (onCommit w task t) = m_tasks t ∧
  m_queue (onCommit w task t) = m_queue t ∧
  m_step (onCommit w task t) = m_step t ∧
  ∃ errs, m_errors (onCommit w task t) = m_errors t ++ errs.
Proof.
  destruct task as [entry files | files entry]; simpl.
  - destruct (Registry.Status_eqb _ _), (negb _); simpl; repeat split;
      solve [by eexists | exists []; by rewrite app_nil_r].
  - repeat split. exists []. by rewrite app_nil_r.
Qed.

Lemma commit_trace (t : Transaction) (task : Task) :
  ∃ evs, trace (commit w t task) = trace t ++ evs ∧
         Forall (λ e, is_task_commit e = true) evs ∧
         commits_of evs = [task].
Proof.
  unfold commit. destruct (Task_commit w (trace t) task).
  - destruct (onCommit_trace task (emit (TaskCommit task) t))
      as (evs & -> & Hall & Hnone).
    exists (TaskCommit task :: evs). simpl.
    rewrite <- app_assoc. split; [done|]. split; [by constructor|].
    unfold commits_of in *. simpl. by rewrite Hnone.
  - exists [TaskCommit task]. by repeat constructor.
Qed.

Lemma commit_fields (t : Transaction) (task : Task) :
  m_isCancelled (commit w t task) = m_isCancelled t ∧
  m_hasConflicts (commit w t task) = m_hasConflicts t ∧
  m_tasks (commit w t task) = m_tasks t ∧
  m_queue (commit w t task) = m_queue t ∧
  m_step (commit w t task) = m_step t ∧
  ∃ errs, m_errors (commit w t task) = m_errors t ++ errs.
Proof.
  unfold commit. destruct (Task_commit w (trace t) task).
  - apply (onCommit_fields task (emit (TaskCommit task) t)).
  - repeat split. exists []. by rewrite app_nil_r.
Qed.

Lemma commits_of_app (l1 l2 : list Event) :
  commits_of (l1 ++ l2) = commits_of l1 ++ commits_of l2.
Proof. apply omap_app. Qed.

Lemma commit_all_trace (tasks : list Task) (t : Transaction) :
  ∃ evs, trace (foldl (commit w) t tasks) = trace t ++ evs ∧
         Forall (λ e, is_task_commit e = true) evs ∧
         commits_of evs = tasks.
Proof.
  revert t. induction tasks as [|task tasks IH]; intros t; simpl.
  - exists []. by rewrite app_nil_r.
  - destruct (IH (commit w t task)) as (evs2 & -> & Hall2 & Hc2).
    destruct (commit_trace t task) as (evs1 & -> & Hall1 & Hc1).
    exists (evs1 ++ evs2). rewrite <- app_assoc. split; [done|].
    split; [by apply Forall_app|].
    by rewrite commits_of_app, Hc1, Hc2.
Qed.

Lemma commit_all_fields (tasks : list Task) (t : Transaction) :
  m_isCancelled (foldl (commit w) t tasks) = m_isCancelled t ∧
  m_hasConflicts (foldl (commit w) t tasks) = m_hasConflicts t ∧
  m_tasks (foldl (commit w) t tasks) = m_tasks t ∧
  m_queue (foldl (commit w) t tasks) = m_queue t ∧
  m_step (foldl (commit w) t tasks) = m_step t ∧
  ∃ errs, m_errors (foldl (commit w) t tasks) = m_errors t ++ errs.
Proof.
  revert t. induction tasks as [|task tasks IH]; intros t; simpl.
  - repeat split. exists []. by rewrite app_nil_r.
  - destruct (IH (commit w t task)) as (-> & -> & -> & -> & -> & errs2 & ->).
    destruct (commit_fields t task) as (-> & -> & -> & -> & -> & errs1 & ->).
    repeat split. exists (errs1 ++ errs2). by rewrite app_assoc.
Qed.

Lemma finish_fields (t : Transaction) :
  m_isCancelled (finish w t) = m_isCancelled t ∧
  m_hasConflicts (finish w t) = m_hasConflicts t ∧
  m_tasks (finish w t) = m_tasks t ∧
  m_queue (finish w t) = m_queue t ∧
  m_step (finish w t) = m_step t ∧
  ∃ errs, m_errors (finish w t) = m_errors t ++ errs.
Proof.
  unfold finish. destruct (m_isCancelled t) eqn:Hc; simpl.
  - rewrite Hc. repeat split. exists []. by rewrite app_nil_r.
  - rewrite <- Hc. apply commit_all_fields.
Qed.

Lemma finish_trace (t : Transaction) :
  ∃ evs,
    trace (finish w t) = trace t ++ evs ++ [OnFinish; OnDestroy] ∧
    (m_isCancelled t = true → evs = []) ∧
    (m_isCancelled t = false →
     ∃ cs, evs = cs ++ [RegistryCommit] ∧ commits_of cs = m_tasks t ∧
           Forall (λ e, is_task_commit e = true) cs).
Proof.
  unfold finish. destruct (m_isCancelled t) eqn:Hc; simpl.
  - exists []. simpl. rewrite <- app_assoc. by repeat split.
  - destruct (commit_all_trace (m_tasks t) t) as (cs & -> & Hall & Hcs).
    exists (cs ++ [RegistryCommit]). split; [|split; [done|]].
    + by rewrite <- !app_assoc.
    + intros _. by exists cs.
Qed.

(** *** The resolution pass *)

Lemma same_tasks_refl (t : Transaction) : same_tasks t t.
Proof. by repeat split. Qed.

Lemma same_tasks_trans (t1 t2 t3 : Transaction) :
  same_tasks t1 t2 → same_tasks t2 t3 → same_tasks t1 t3.
Proof.
  intros (? & ? & ? & ? & ?) (? & ? & ? & ? & ?).
  repeat split; congruence.
Qed.

Lemma grows_refl (t : Transaction) : grows t t.
Proof. by repeat split. Qed.

Lemma grows_trans (t1 t2 t3 : Transaction) :
  grows t1 t2 → grows t2 t3 → grows t1 t3.
Proof.
  intros (Hf1 & Hc1 & He1) (Hf2 & Hc2 & He2). repeat split.
  - by transitivity (m_files t2).
  - auto.
  - auto.
Qed.

(** The loop of [registerFiles], before the paths are inserted. *)
Lemma registerFiles_loop (list : list Path) (t : Transaction) :
  let t' := foldl (λ t path,
                     if bool_decide (path ∈ m_files t) then
                       set_hasConflicts true
                         (addError conflict_message (join path) t)
                     else t) t list in
  m_files t' = m_files t ∧ same_tasks t t' ∧ grows t t' ∧
  ∀ p, p ∈ list → p ∈ m_files t →
       m_hasConflicts t' = true ∧ (conflict_message, join p) ∈ m_errors t'.
Proof.
  revert t. induction list as [|path list IH]; intros t; simpl.
  - split; [done|]. split; [apply same_tasks_refl|].
    split; [apply grows_refl|]. by intros p ?%elem_of_nil.
  - match goal with |- context [foldl ?f ?a list] =>
      destruct (IH a) as (Hfiles & Hsame & Hgrows & Hconf); set (t1 := a) in *
    end.
    assert (m_files t1 = m_files t ∧ same_tasks t t1 ∧ grows t t1 ∧
            (path ∈ m_files t →
             m_hasConflicts t1 = true ∧
             (conflict_message, join path) ∈ m_errors t1))
      as (Hf1 & Hs1 & Hg1 & Hc1).
    { subst t1. case_bool_decide as Hin; simpl.
      - repeat split; try done.
        + intros e He. apply elem_of_app. by left.
        + apply elem_of_app. right. by left.
      - repeat split; done. }
    split; [congruence|].
    split; [by eapply same_tasks_trans|].
    split; [by eapply grows_trans|].
    intros p [-> | Hp]%elem_of_cons Hin.
    + destruct (Hc1 Hin) as [Hflag Herr].
      destruct Hgrows as (_ & Hc & He). auto.
    + apply Hconf; [done|]. by rewrite Hf1.
Qed.

Lemma registerFiles_spec (list : list Path) (t : Transaction) :
  same_tasks t (registerFiles list t) ∧ grows t (registerFiles list t) ∧
  ∀ p, p ∈ list →
       p ∈ m_files (registerFiles list t) ∧
       (p ∈ m_files t →
        m_hasConflicts (registerFiles list t) = true ∧
        (conflict_message, join p) ∈ m_errors (registerFiles list t)).
Proof.
  unfold registerFiles.
  destruct (registerFiles_loop list t) as (Hfiles & Hsame & Hgrows & Hconf).
  simpl in *.
  split; [exact Hsame|]. split.
  - destruct Hgrows as (Hf & Hc & He). repeat split; simpl; [|done..].
    rewrite Hfiles. apply union_subseteq_l.
  - intros p Hp. simpl. split; [|by apply Hconf].
    apply elem_of_union. right. by apply elem_of_list_to_set.
Qed.

Lemma updateAll_package_spec (pkg : Package) (t t' : Transaction) :
  updateAll_package w pkg t = Some t' →
  same_tasks t t' ∧ grows t t' ∧
  ∀ p, claims pkg p →
       p ∈ m_files t' ∧
       (p ∈ m_files t →
        m_hasConflicts t' = true ∧ (conflict_message, join p) ∈ m_errors t').
Proof.
  unfold updateAll_package.
  destruct (lastVersion pkg) as [ver|] eqn:Hlast; [|done].
  destruct (registerFiles_spec (Version_files ver) t) as (Hsame & Hgrows & Hreg).
  assert (∀ p, claims pkg p → p ∈ Version_files ver) as Hclaims.
  { intros p (ver' & Hver' & Hp). congruence. }
  destruct (Registry.Status_eqb _ _); [destruct (allFilesExists _ _ _)|];
    intros [= <-]; (split; [exact Hsame|]); (split; [exact Hgrows|]);
    intros p Hp%Hclaims; by apply Hreg.
Qed.

Lemma updateAll_package_total (pkg : Package) (t : Transaction) :
  m_versions pkg ≠ [] → is_Some (updateAll_package w pkg t).
Proof.
  intros Hne. unfold updateAll_package, lastVersion.
  destruct (last (m_versions pkg)) eqn:Hlast.
  - destruct (Registry.Status_eqb _ _); [destruct (allFilesExists _ _ _)|]; done.
  - by apply last_None in Hlast.
Qed.

Lemma updateAll_packages_app (l1 l2 : list Package) (t : Transaction) :
  updateAll_packages w (l1 ++ l2) t
  = updateAll_packages w l1 t ≫= updateAll_packages w l2.
Proof.
  revert t. induction l1 as [|pkg l1 IH]; intros t; simpl; [done|].
  destruct (updateAll_package w pkg t); [apply IH | done].
Qed.

Lemma updateAll_indexes_packages (ris : list Index.RemoteIndex) (t : Transaction) :
  updateAll_indexes w ris t
  = updateAll_packages w (concat (Index.m_packages <$> ris)) t.
Proof.
  revert t. induction ris as [|ri ris IH]; intros t; simpl; [done|].
  rewrite updateAll_packages_app.
  destruct (updateAll_packages w (Index.m_packages ri) t); simpl; [apply IH | done].
Qed.

Lemma updateAll_packages_spec (pkgs : list Package) (t t' : Transaction) :
  updateAll_packages w pkgs t = Some t' → same_tasks t t' ∧ grows t t'.
Proof.
  revert t. induction pkgs as [|pkg pkgs IH]; intros t; simpl.
  - intros [= <-]. split; [apply same_tasks_refl | apply grows_refl].
  - destruct (updateAll_package w pkg t) as [t1|] eqn:H1; [|done].
    intros [Hs Hg]%IH.
    apply updateAll_package_spec in H1 as (Hs1 & Hg1 & _).
    split; [by eapply same_tasks_trans | by eapply grows_trans].
Qed.

Lemma updateAll_packages_total (pkgs : list Package) (t : Transaction) :
  Forall (λ pkg, m_versions pkg ≠ []) pkgs →
  is_Some (updateAll_packages w pkgs t).
Proof.
  intros Hall. revert t. induction Hall as [|pkg pkgs Hne _ IH]; intros t; simpl.
  - done.
  - destruct (updateAll_package_total pkg t Hne) as [t1 ->]. apply IH.
Qed.

(** A path claimed by two packages of the walk is found out. *)
Lemma updateAll_packages_conflict (pkgs : list Package) (p : Path)
    (t t' : Transaction) :
  doubly_claimed pkgs p →
  updateAll_packages w pkgs t = Some t' →
  m_hasConflicts t' = true ∧ (conflict_message, join p) ∈ m_errors t'.
Proof.
  intros (l1 & a & l2 & b & l3 & -> & Ha & Hb).
  rewrite updateAll_packages_app.
  destruct (updateAll_packages w l1 t) as [t1|]; [simpl|done].
  destruct (updateAll_package w a t1) as [t2|] eqn:H2; [|done].
  rewrite updateAll_packages_app.
  destruct (updateAll_packages w l2 t2) as [t3|] eqn:H3; [simpl|done].
  destruct (updateAll_package w b t3) as [t4|] eqn:H4; [|done].
  intros (_ & _ & Hc & He)%updateAll_packages_spec.
  apply updateAll_package_spec in H2 as (_ & _ & H2).
  apply updateAll_packages_spec in H3 as (_ & Hf3 & _).
  apply updateAll_package_spec in H4 as (_ & _ & H4).
  destruct (H2 p Ha) as [Hin _].
  destruct (H4 p Hb) as [_ Hconf].
  destruct Hconf as [Hflag Herr]; [by apply Hf3|]. auto.
Qed.

(** C1 (amended). When a resolution pass meets a path claimed by two of
    the packages it walks through, the pass still goes through all
    packages, [m_hasConflicts] is set and a conflict error is recorded for
    every such path; [updateAll] then calls [finish] on the state the pass
    left, and never [install]: the task list is what it was, and between
    the pass and the two observers nothing creates a task, queues a
    download or writes a file. What [finish] commits is the tasks that were
    there before the pass, in creation order, and the registry, and nothing
    when the transaction is cancelled. With no task from before, all that
    happens is the registry commit of a transaction that is not cancelled,
    then [onFinish] and [onDestroy]. *)
Theorem conflict_refuses_install (t : Transaction) :
  Forall (λ pkg, m_versions pkg ≠ []) (all_packages t) →
  (∃ p, doubly_claimed (all_packages t) p) →
  ∃ t1,
    updateAll_indexes w (m_remoteIndexes t) t = Some t1 ∧
    updateAll w t = Some (finish w t1) ∧
    m_hasConflicts t1 = true ∧
    (∀ p, doubly_claimed (all_packages t) p →
          (conflict_message, join p) ∈ m_errors t1) ∧
    m_hasConflicts (finish w t1) = true ∧
    (∃ errs, m_errors (finish w t1) = m_errors t1 ++ errs) ∧
    m_tasks (finish w t1) = m_tasks t ∧
    ∃ evs,
      trace (finish w t1) = trace t ++ evs ++ [OnFinish; OnDestroy] ∧
      Forall (λ e, is_install_work e = false) evs ∧
      (m_isCancelled t = true → evs = []) ∧
      (m_isCancelled t = false →
       ∃ cs, evs = cs ++ [RegistryCommit] ∧ commits_of cs = m_tasks t ∧
             Forall (λ e, is_task_commit e = true) cs) ∧
      (m_tasks t = [] →
       evs = if m_isCancelled t then [] else [RegistryCommit]).
Proof.
  intros Hne [p0 Hp0]. unfold all_packages in *.
  destruct (updateAll_packages_total _ t Hne) as [t1 H1].
  exists t1.
  assert (∀ p, doubly_claimed (concat (Index.m_packages <$> m_remoteIndexes t)) p →
               m_hasConflicts t1 = true ∧
               (conflict_message, join p) ∈ m_errors t1) as Hconf.
  { intros p Hp. by eapply updateAll_packages_conflict. }
  destruct (Hconf p0 Hp0) as [Hflag _].
  destruct (updateAll_packages_spec _ _ _ H1)
    as ((Htrace & Htasks & Hcanc & _) & _).
  destruct (finish_fields t1) as (_ & Hfc & Hft & _ & _ & Herrs).
  split; [by rewrite updateAll_indexes_packages|].
  split.
  { unfold updateAll. rewrite updateAll_indexes_packages, H1, Hflag.
    by rewrite orb_true_r. }
  split; [done|].
  split; [intros p Hp; by apply Hconf|].
  split; [congruence|].
  split; [done|].
  split; [congruence|].
  destruct (finish_trace t1) as (evs & Hevs & Hc & Hn).
  exists evs. rewrite <- Htrace. split; [done|]. split; [|split; [|split]].
  - destruct (m_isCancelled t1).
    + rewrite Hc by done. constructor.
    + destruct Hn as (cs & -> & _ & Hall); [done|].
      apply Forall_app. split; [|by repeat constructor].
      eapply Forall_impl; [exact Hall|]. by intros [].
  - rewrite <- Hcanc. exact Hc.
  - rewrite <- Hcanc, <- Htasks. exact Hn.
  - intros Hnone. rewrite <- Hcanc.
    assert (trace (finish w t1)
            = trace t1
              ++ (if m_isCancelled t1 then [] else [RegistryCommit])
              ++ [OnFinish; OnDestroy]) as Hdirect.
    { unfold finish. rewrite Htasks, Hnone.
      destruct (m_isCancelled t1); simpl; by rewrite <- !app_assoc. }
    rewrite Hevs in Hdirect.
    apply app_inv_head in Hdirect. by apply app_inv_tail in Hdirect.
Qed.

(** *** Cancellation *)

Lemma stays_cancelled_refl (t : Transaction) : stays_cancelled t t.
Proof. intros H. split; [done|]. exists []. by rewrite app_nil_r. Qed.

Lemma stays_cancelled_trans (t1 t2 t3 : Transaction) :
  stays_cancelled t1 t2 → stays_cancelled t2 t3 → stays_cancelled t1 t3.
Proof.
  intros H12 H23 Hc.
  destruct (H12 Hc) as (Hc2 & evs1 & Ht1 & Hall1).
  destruct (H23 Hc2) as (Hc3 & evs2 & Ht2 & Hall2).
  split; [done|]. exists (evs1 ++ evs2).
  split; [by rewrite Ht2, Ht1, app_assoc | by apply Forall_app].
Qed.

Lemma stays_cancelled_quiet (t t' : Transaction) :
  m_isCancelled t' = m_isCancelled t → trace t' = trace t →
  stays_cancelled t t'.
Proof.
  intros Hc Ht H. split; [congruence|]. exists []. by rewrite app_nil_r.
Qed.

Lemma stays_cancelled_events (evs : list Event) (t t' : Transaction) :
  m_isCancelled t' = m_isCancelled t → trace t' = trace t ++ evs →
  Forall (λ e, is_commit e = false) evs →
  stays_cancelled t t'.
Proof. intros Hc Ht Hall H. split; [congruence|]. by exists evs. Qed.

Lemma stays_cancelled_emit (e : Event) (t : Transaction) :
  is_commit e = false → stays_cancelled t (emit e t).
Proof. intros He H. split; [done|]. exists [e]. by repeat constructor. Qed.

Lemma stays_cancelled_same_tasks (t t' : Transaction) :
  same_tasks t t' → stays_cancelled t t'.
Proof. intros (Ht & _ & Hc & _). by apply stays_cancelled_quiet. Qed.

Lemma stays_cancelled_foldl {A} (f : Transaction → A → Transaction)
    (l : list A) (t : Transaction) :
  (∀ t x, stays_cancelled t (f t x)) → stays_cancelled t (foldl f t l).
Proof.
  intros Hf. revert t. induction l as [|x l IH]; intros t; simpl.
  - apply stays_cancelled_refl.
  - eapply stays_cancelled_trans; [apply Hf | apply IH].
Qed.

Lemma stays_cancelled_finish (t : Transaction) :
  stays_cancelled t (finish w t).
Proof.
  intros Hc. destruct (finish_fields t) as (-> & _).
  split; [done|].
  destruct (finish_trace t) as (evs & Htr & Hev & _).
  rewrite Htr, (Hev Hc).
  exists [OnFinish; OnDestroy]. by repeat constructor.
Qed.

Lemma stays_cancelled_addTask (task : Task) (t : Transaction) :
  stays_cancelled t (addTask w task t).
Proof.
  unfold addTask. destruct (idle _).
  - eapply stays_cancelled_trans; [|apply stays_cancelled_finish].
    by apply stays_cancelled_quiet.
  - by apply stays_cancelled_quiet.
Qed.

Lemma stays_cancelled_queue_push (name url : string) (t : Transaction) :
  stays_cancelled t (queue_push name url t).
Proof.
  intros Hc. split; [done|]. exists [QueuePush name url]. by repeat constructor.
Qed.

Lemma stays_cancelled_install (t : Transaction) :
  stays_cancelled t (install w t).
Proof.
  unfold install.
  eapply stays_cancelled_trans;
    [apply (stays_cancelled_quiet t (set_step Install t)); reflexivity|].
  apply stays_cancelled_foldl. intros t0 entry. unfold new_InstallTask.
  eapply stays_cancelled_trans; [|apply stays_cancelled_addTask].
  eapply stays_cancelled_trans;
    [|apply stays_cancelled_foldl; intros t1 src;
      apply stays_cancelled_queue_push].
  by apply stays_cancelled_emit.
Qed.

Lemma stays_cancelled_updateAll (t t' : Transaction) :
  updateAll w t = Some t' → stays_cancelled t t'.
Proof.
  unfold updateAll. rewrite updateAll_indexes_packages.
  destruct (updateAll_packages w _ t) as [t1|] eqn:H1; [|done].
  apply updateAll_packages_spec in H1 as [Hsame _].
  apply stays_cancelled_same_tasks in Hsame.
  destruct (_ || _); intros [= <-];
    (eapply stays_cancelled_trans; [exact Hsame|]).
  - apply stays_cancelled_finish.
  - apply stays_cancelled_install.
Qed.

Lemma rollback_all_trace (tasks : list Task) (t : Transaction) :
  trace (foldl (λ t task, emit (TaskRollback task) t) t tasks)
    = trace t ++ (TaskRollback <$> tasks) ∧
  m_isCancelled (foldl (λ t task, emit (TaskRollback task) t) t tasks)
    = m_isCancelled t ∧
  m_queue (foldl (λ t task, emit (TaskRollback task) t) t tasks) = m_queue t ∧
  m_tasks (foldl (λ t task, emit (TaskRollback task) t) t tasks) = m_tasks t ∧
  m_step (foldl (λ t task, emit (TaskRollback task) t) t tasks) = m_step t.
Proof.
  revert t. induction tasks as [|task tasks IH]; intros t; simpl.
  - by rewrite app_nil_r.
  - destruct (IH (emit (TaskRollback task) t)) as (-> & -> & -> & -> & ->).
    simpl. by rewrite <- app_assoc.
Qed.

(** What [cancel] does, whatever the state it is called in. *)
Lemma cancel_spec (t : Transaction) :
  m_isCancelled (cancel w t) = true ∧
  m_tasks (cancel w t) = m_tasks t ∧
  m_step (cancel w t) = m_step t ∧
  m_queue (cancel w t) = m_queue t ∧
  trace (cancel w t)
    = trace t ++ (TaskRollback <$> m_tasks t)
      ++ (if idle t then [OnFinish; OnDestroy] else [QueueAbort]).
Proof.
  unfold cancel.
  destruct (rollback_all_trace (m_tasks (set_isCancelled true t))
              (set_isCancelled true t)) as (Htr & Hc & Hq & Htk & Hst).
  simpl in *.
  replace (idle (foldl (λ t0 task, emit (TaskRollback task) t0)
                   (set_isCancelled true t) (m_tasks t)))
    with (idle t) by (unfold idle; by rewrite Hq).
  destruct (idle t).
  - destruct (finish_fields (foldl (λ t0 task, emit (TaskRollback task) t0)
                (set_isCancelled true t) (m_tasks t)))
      as (-> & _ & -> & -> & -> & _).
    destruct (finish_trace (foldl (λ t0 task, emit (TaskRollback task) t0)
                (set_isCancelled true t) (m_tasks t)))
      as (evs & Hfin & Hev & _).
    rewrite Hfin, (Hev Hc), Htr. simpl. by rewrite <- app_assoc.
  - simpl. rewrite Htr. by rewrite <- app_assoc.
Qed.

Lemma stays_cancelled_cancel (t : Transaction) :
  stays_cancelled t (cancel w t).
Proof.
  intros _. destruct (cancel_spec t) as (Hc & _ & _ & _ & Htr).
  split; [done|]. eexists. split; [exact Htr|].
  apply Forall_app. split.
  - apply Forall_fmap, Forall_true. done.
  - destruct (idle t); by repeat constructor.
Qed.

Lemma stays_cancelled_uninstall (remote : Remote) (t : Transaction) :
  stays_cancelled t (uninstall w remote t).
Proof.
  unfold uninstall. case_bool_decide.
  - apply stays_cancelled_cancel.
  - apply stays_cancelled_foldl. intros t0 entry. unfold new_RemoveTask.
    eapply stays_cancelled_trans; [|apply stays_cancelled_addTask].
    by apply stays_cancelled_emit.
Qed.

Lemma stays_cancelled_saveRemoteIndex (dl : Fetched) (t t' : Transaction) :
  saveRemoteIndex w dl t = Some t' → stays_cancelled t t'.
Proof.
  unfold saveRemoteIndex, saveFile.
  destruct (negb (dl_status dl =? 200)%Z); simpl.
  { intros [= <-]. by apply stays_cancelled_quiet. }
  destruct (ofstream_error dl); simpl.
  { intros [= <-].
    apply (stays_cancelled_events
             [RecursiveCreateDirectory
                (dirname (m_dbPath t ++ ["remote_" +:+ dl_name dl +:+ ".xml"]))]);
      by repeat constructor. }
  intros Hload.
  apply (stays_cancelled_events
           [RecursiveCreateDirectory
              (dirname (m_dbPath t ++ ["remote_" +:+ dl_name dl +:+ ".xml"]));
            WriteFile (join (m_dbPath t ++ ["remote_" +:+ dl_name dl +:+ ".xml"]))
              (dl_contents dl)]);
    [| |by repeat constructor];
    destruct (Index.load _ _ _) as [[ri | what]|]; try done;
    injection Hload as <-; simpl; by rewrite <- ?app_assoc.
Qed.

Lemma stays_cancelled_step (op : Op) (t t' : Transaction) :
  step w op t = Some t' → stays_cancelled t t'.
Proof.
  destruct op as [remote | dl | | remote |]; simpl.
  - intros [= <-]. unfold synchronize.
    eapply stays_cancelled_trans; [|apply stays_cancelled_queue_push].
    by apply stays_cancelled_quiet.
  - apply stays_cancelled_saveRemoteIndex.
  - intros Hdone.
    eapply stays_cancelled_trans;
      [apply (stays_cancelled_quiet t (set_queue [] t)); reflexivity|].
    unfold onDone in Hdone.
    destruct (m_step (set_queue [] t)).
    + injection Hdone as <-. apply stays_cancelled_finish.
    + by apply stays_cancelled_updateAll.
    + injection Hdone as <-. apply stays_cancelled_finish.
  - intros [= <-]. apply stays_cancelled_uninstall.
  - intros [= <-]. apply stays_cancelled_cancel.
Qed.

Lemma stays_cancelled_run (ops : list Op) (t t' : Transaction) :
  run w ops t = Some t' → stays_cancelled t t'.
Proof.
  revert t. induction ops as [|op ops IH]; intros t; simpl.
  - intros [= <-]. apply stays_cancelled_refl.
  - destruct (step w op t) as [t1|] eqn:H1; [|done].
    intros H. eapply stays_cancelled_trans; [|by apply IH].
    by apply (stays_cancelled_step op).
Qed.

Lemma keeps_waiting_refl (t : Transaction) : keeps_waiting t t.
Proof. intros H. split; [done|]. exists []. by rewrite app_nil_r. Qed.

Lemma keeps_waiting_trans (t1 t2 t3 : Transaction) :
  keeps_waiting t1 t2 → keeps_waiting t2 t3 → keeps_waiting t1 t3.
Proof.
  intros H12 H23 Hb.
  destruct (H12 Hb) as (Hb2 & evs1 & Ht1 & Hall1).
  destruct (H23 Hb2) as (Hb3 & evs2 & Ht2 & Hall2).
  split; [done|]. exists (evs1 ++ evs2).
  split; [by rewrite Ht2, Ht1, app_assoc | by apply Forall_app].
Qed.

Lemma keeps_waiting_events (evs : list Event) (t t' : Transaction) :
  m_queue t' = m_queue t → trace t' = trace t ++ evs →
  Forall (λ e, is_observer e = false) evs →
  keeps_waiting t t'.
Proof.
  intros Hq Ht Hall H. unfold idle in *. rewrite Hq.
  split; [done|]. by exists evs.
Qed.

Lemma keeps_waiting_foldl {A} (f : Transaction → A → Transaction)
    (l : list A) (t : Transaction) :
  (∀ t x, keeps_waiting t (f t x)) → keeps_waiting t (foldl f t l).
Proof.
  intros Hf. revert t. induction l as [|x l IH]; intros t; simpl.
  - apply keeps_waiting_refl.
  - eapply keeps_waiting_trans; [apply Hf | apply IH].
Qed.

Lemma keeps_waiting_queue_push (name url : string) (t : Transaction) :
  keeps_waiting t (queue_push name url t).
Proof.
  intros _. split.
  - unfold idle. simpl. apply bool_decide_eq_false.
    by intros [_ [=]]%app_eq_nil.
  - exists [QueuePush name url]. by repeat constructor.
Qed.

Lemma keeps_waiting_addTask (task : Task) (t : Transaction) :
  keeps_waiting t (addTask w task t).
Proof.
  intros Hb. unfold addTask.
  change (idle (push_task task t)) with (idle t). rewrite Hb.
  split; [done|]. exists []. simpl. by rewrite app_nil_r.
Qed.

Lemma keeps_waiting_cancel (t : Transaction) :
  keeps_waiting t (cancel w t).
Proof.
  intros Hb. destruct (cancel_spec t) as (_ & _ & _ & Hq & Htr).
  split; [unfold idle in *; by rewrite Hq|].
  eexists. split; [exact Htr|]. rewrite Hb.
  apply Forall_app. split; [|by repeat constructor].
  apply Forall_fmap, Forall_true. done.
Qed.

Lemma keeps_waiting_uninstall (remote : Remote) (t : Transaction) :
  keeps_waiting t (uninstall w remote t).
Proof.
  unfold uninstall. case_bool_decide.
  - apply keeps_waiting_cancel.
  - apply keeps_waiting_foldl. intros t0 entry. unfold new_RemoveTask.
    eapply keeps_waiting_trans; [|apply keeps_waiting_addTask].
    apply (keeps_waiting_events
             [NewTask (RemoveTask (Registry_getFiles w (trace t0) entry) entry)]);
      by repeat constructor.
Qed.

Lemma keeps_waiting_saveRemoteIndex (dl : Fetched) (t t' : Transaction) :
  saveRemoteIndex w dl t = Some t' → keeps_waiting t t'.
Proof.
  unfold saveRemoteIndex, saveFile.
  destruct (negb (dl_status dl =? 200)%Z); simpl.
  { intros [= <-]. apply (keeps_waiting_events []); simpl;
      [done | by rewrite app_nil_r | constructor]. }
  destruct (ofstream_error dl); simpl.
  { intros [= <-].
    apply (keeps_waiting_events
             [RecursiveCreateDirectory
                (dirname (m_dbPath t ++ ["remote_" +:+ dl_name dl +:+ ".xml"]))]);
      by repeat constructor. }
  intros Hload.
  apply (keeps_waiting_events
           [RecursiveCreateDirectory
              (dirname (m_dbPath t ++ ["remote_" +:+ dl_name dl +:+ ".xml"]));
            WriteFile (join (m_dbPath t ++ ["remote_" +:+ dl_name dl +:+ ".xml"]))
              (dl_contents dl)]);
    [| |by repeat constructor];
    destruct (Index.load _ _ _) as [[ri | what]|]; try done;
    injection Hload as <-; simpl; by rewrite <- ?app_assoc.
Qed.

Lemma keeps_waiting_step (op : Op) (t t' : Transaction) :
  is_OpQueueDone op = false →
  step w op t = Some t' → keeps_waiting t t'.
Proof.
  destruct op as [remote | dl | | remote |]; simpl; intros Hop; [| |done| |].
  - intros [= <-]. unfold synchronize.
    eapply keeps_waiting_trans; [|apply keeps_waiting_queue_push].
    apply (keeps_waiting_events []); simpl;
      [done | by rewrite app_nil_r | constructor].
  - apply keeps_waiting_saveRemoteIndex.
  - intros [= <-]. apply keeps_waiting_uninstall.
  - intros [= <-]. apply keeps_waiting_cancel.
Qed.

Lemma keeps_waiting_run (ops : list Op) (t t' : Transaction) :
  Forall (λ op, is_OpQueueDone op = false) ops →
  run w ops t = Some t' → keeps_waiting t t'.
Proof.
  intros Hops. revert t. induction Hops as [|op ops Hop _ IH]; intros t; simpl.
  - intros [= <-]. apply keeps_waiting_refl.
  - destruct (step w op t) as [t1|] eqn:H1; [|done].
    intros H. eapply keeps_waiting_trans; [|by apply IH].
    by apply (keeps_waiting_step op).
Qed.

(** X26. [cancel] sets the cancelled flag and rolls back every task
    created so far, in creation order. When the queue is idle it then
    finishes at once: both observers fire and nothing is committed.
    Otherwise it asks the queue to abort and leaves the finish to the
    queue: no observer fires before the drain signal, whatever else
    happens to the transaction, and outside the synchronize step the drain
    signal finishes it, with nothing committed. After [cancel], whatever
    happens, the transaction stays cancelled and never commits a task or
    the registry. *)
Theorem cancel_rolls_back_and_never_commits (t : Transaction) :
  m_isCancelled (cancel w t) = true ∧
  trace (cancel w t)
    = trace t ++ (TaskRollback <$> m_tasks t)
      ++ (if idle t then [OnFinish; OnDestroy] else [QueueAbort]) ∧
  (idle t = false →
   ∀ ops t', Forall (λ op, is_OpQueueDone op = false) ops →
     run w ops (cancel w t) = Some t' →
     idle t' = false ∧
     ∃ evs, trace t' = trace (cancel w t) ++ evs ∧
            Forall (λ e, is_observer e = false) evs) ∧
  (idle t = false → m_step t ≠ Synchronize →
   ∃ t', step w OpQueueDone (cancel w t) = Some t' ∧
         trace t' = trace (cancel w t) ++ [OnFinish; OnDestroy]) ∧
  ∀ ops t', run w ops (cancel w t) = Some t' →
    m_isCancelled t' = true ∧
    ∃ evs, trace t' = trace (cancel w t) ++ evs ∧
           Forall (λ e, is_commit e = false) evs.
Proof.
  destruct (cancel_spec t) as (Hc & Htk & Hst & Hq & Htr).
  split; [done|]. split; [done|]. split; [|split].
  - intros Hidle ops t' Hops Hrun.
    apply (keeps_waiting_run ops (cancel w t)); [done..|].
    unfold idle in *. by rewrite Hq.
  - intros Hidle Hstep. simpl. unfold onDone. simpl.
    exists (finish w (set_queue [] (cancel w t))). split.
    + rewrite Hst. by destruct (m_step t).
    + destruct (finish_trace (set_queue [] (cancel w t)))
        as (evs & Hfin & Hev & _).
      by rewrite Hfin, (Hev Hc).
  - intros ops t' Hrun. by apply (stays_cancelled_run ops (cancel w t)).
Qed.

Lemma count_none (P : Event → bool) (evs : list Event) :
  Forall (λ e, P e = false) evs → count P evs = 0.
Proof.
  unfold count. induction 1 as [|e evs He _ IH]; [done|].
  rewrite filter_cons_False; [done|]. by rewrite He.
Qed.

Lemma task_commit_events (P : Event → bool) (evs : list Event) :
  (∀ e, is_task_commit e = true → P e = false) →
  Forall (λ e, is_task_commit e = true) evs → count P evs = 0.
Proof.
  intros HP Hall. apply count_none.
  eapply Forall_impl; [exact Hall|]. exact HP.
Qed.

(** X25. Every call of [finish] adds to the trace, in this
    order: when the transaction is not cancelled, the commit of every task
    in creation order (each with what its observer does) and then one
    registry commit; when it is cancelled, nothing; and in either case
    [onFinish] followed by [onDestroy], once each, as the last two
    events. *)
Theorem finish_commits_then_notifies (t : Transaction) :
  ∃ evs,
    trace (finish w t) = trace t ++ evs ++ [OnFinish; OnDestroy] ∧
    count is_OnFinish evs = 0 ∧ count is_OnDestroy evs = 0 ∧
    (m_isCancelled t = true → evs = []) ∧
    (m_isCancelled t = false →
     ∃ cs, evs = cs ++ [RegistryCommit] ∧ commits_of cs = m_tasks t ∧
           count is_RegistryCommit cs = 0 ∧
           Forall (λ e, is_task_commit e = true) cs).
Proof.
  destruct (finish_trace t) as (evs & Htrace & Hc & Hn).
  exists evs. split; [done|].
  assert (count is_OnFinish evs = 0 ∧ count is_OnDestroy evs = 0) as [H1 H2].
  { destruct (m_isCancelled t).
    - by rewrite Hc.
    - destruct Hn as (cs & -> & _ & Hall); [done|].
      unfold count. rewrite !filter_app, !length_app.
      change (count is_OnFinish cs + 0 = 0 ∧ count is_OnDestroy cs + 0 = 0).
      rewrite !(task_commit_events _ cs); try done; by intros []. }
  repeat split; try done.
  intros (cs & -> & Hcs & Hall)%Hn. exists cs. repeat split; try done.
  apply task_commit_events; [by intros [] | done].
Qed.

End Transactions.

(** *** Examples on a concrete world *)

Lemma ex_synchronized_claims :
  doubly_claimed (all_packages ex_synchronized) ["Scripts"; "foo.lua"].
Proof.
  eexists [], _, [], _, [_]. split; [reflexivity|].
  split; eexists; (split; [reflexivity|]); by left.
Qed.

Lemma conflict_refuses_install_witness :
  ∃ t1,
    updateAll ex_world (set_queue [] ex_synchronized)
      = Some (finish ex_world t1) ∧
    m_hasConflicts (finish ex_world t1) = true ∧
    (conflict_message, "Scripts/foo.lua") ∈ m_errors t1 ∧
    m_tasks (finish ex_world t1) = [] ∧
    ∃ evs,
      trace (finish ex_world t1)
        = trace ex_synchronized ++ evs ++ [OnFinish; OnDestroy] ∧
      evs = [RegistryCommit].
Proof.
  destruct (conflict_refuses_install ex_world (set_queue [] ex_synchronized))
    as (t1 & _ & Hupd & _ & Herr & Hflag & _ & Htasks
        & evs & Htrace & _ & _ & _ & Hevs).
  - repeat constructor; discriminate.
  - exists ["Scripts"; "foo.lua"]. exact ex_synchronized_claims.
  - exists t1. split; [exact Hupd|]. split; [exact Hflag|].
    split; [exact (Herr _ ex_synchronized_claims)|].
    split; [exact Htasks|].
    exists evs. split; [exact Htrace|]. by apply Hevs.
Defined.

(** The whole run: synchronize, the index arrives, the queue drains. One
    conflict error, no task, and only the index file was written. *)
Example conflicting_run :
  (λ t, (m_hasConflicts t, m_errors t, m_tasks t, trace t))
    <$> run ex_world
          [OpSynchronize ex_remote; OpIndexDownloaded ex_fetched; OpQueueDone]
          (new_Transaction ["REAPER"])
  = Some (true,
          [(conflict_message, "Scripts/foo.lua")],
          [],
          [RecursiveCreateDirectory "REAPER/ReaPack";
           QueuePush "repo" "https://example.com/index.xml";
           RecursiveCreateDirectory "REAPER/ReaPack";
           WriteFile "REAPER/ReaPack/remote_repo.xml" "<index version='1'/>";
           RegistryCommit; OnFinish; OnDestroy]).
Proof. reflexivity. Qed.

(** C1 (as stated) fails: a run in which the pass that meets the doubly
    claimed path is not the first thing the transaction does. The remote
    "repo" is synchronized and its two packages get their install tasks;
    while their downloads are outstanding the remote "other" is
    synchronized, whose index has two packages writing Scripts/foo.lua. At
    the drain signal the pass sets the conflict flag and calls [finish],
    which commits both install tasks: install tasks were created in this
    run and files are written for its packages. *)
Lemma conflicting_pass_commits_earlier_tasks :
  (λ t, (all_packages t, m_tasks t, m_hasConflicts t, m_isCancelled t))
    <$> run ex_two_remotes_world
          [OpSynchronize ex_remote; OpIndexDownloaded ex_fetched; OpQueueDone;
           OpSynchronize ex_other_remote; OpIndexDownloaded ex_other_fetched]
          (new_Transaction ["REAPER"])
  = Some (Index.m_packages ex_plain_index ++ Index.m_packages ex_conflict_index,
          [ex_install "foo.lua"; ex_install "bar.lua"], false, false) ∧
  doubly_claimed
    (Index.m_packages ex_plain_index ++ Index.m_packages ex_conflict_index)
    ["Scripts"; "foo.lua"] ∧
  (λ t, (m_hasConflicts t, commits_of (trace t), m_errors t))
    <$> run ex_two_remotes_world
          [OpSynchronize ex_remote; OpIndexDownloaded ex_fetched; OpQueueDone;
           OpSynchronize ex_other_remote; OpIndexDownloaded ex_other_fetched;
           OpQueueDone]
          (new_Transaction ["REAPER"])
  = Some (true, [ex_install "foo.lua"; ex_install "bar.lua"],
          [(conflict_message, "Scripts/foo.lua");
           (conflict_message, "Scripts/bar.lua");
           (conflict_message, "Scripts/foo.lua");
           (conflict_message, "Scripts/foo.lua");
           (conflict_message, "Scripts/bar.lua")]).
Proof.
  split; [vm_compute; reflexivity|]. split.
  - eexists [_; _], _, [], _, [_]. split; [reflexivity|].
    split; eexists; (split; [reflexivity|]); by left.
  - vm_compute. reflexivity.
Qed.

Lemma finish_commits_then_notifies_witness :
  ∃ cs,
    trace (finish ex_world
             (push_task (ex_remove 2)
                (push_task (ex_remove 1) (new_Transaction ["REAPER"]))))
    = [RecursiveCreateDirectory "REAPER/ReaPack"]
      ++ (cs ++ [RegistryCommit]) ++ [OnFinish; OnDestroy] ∧
    commits_of cs = [ex_remove 1; ex_remove 2].
Proof.
  destruct (finish_commits_then_notifies ex_world
              (push_task (ex_remove 2)
                 (push_task (ex_remove 1) (new_Transaction ["REAPER"]))))
    as (evs & Htrace & _ & _ & _ & Hn).
  destruct Hn as (cs & -> & Hcs & _); [reflexivity|].
  exists cs. split; [exact Htrace | exact Hcs].
Defined.

Lemma cancel_rolls_back_and_never_commits_witness :
  ∃ t',
    run ex_world [OpQueueDone] (cancel ex_world ex_busy) = Some t' ∧
    m_isCancelled t' = true ∧
    trace t'
      = trace ex_busy ++ [TaskRollback (ex_remove 1); QueueAbort]
        ++ [OnFinish; OnDestroy] ∧
    ∃ evs, trace t' = trace (cancel ex_world ex_busy) ++ evs ∧
           Forall (λ e, is_commit e = false) evs.
Proof.
  destruct (cancel_rolls_back_and_never_commits ex_world ex_busy)
    as (_ & Htr & _ & Hdone & Hrun).
  destruct Hdone as (t' & Hstep & Ht'); [reflexivity | discriminate|].
  assert (run ex_world [OpQueueDone] (cancel ex_world ex_busy) = Some t')
    as Hr by (cbn [run]; by rewrite Hstep).
  exists t'. split; [exact Hr|].
  destruct (Hrun _ _ Hr) as [Hc Hevs].
  split; [exact Hc|]. split; [|exact Hevs].
  rewrite Ht', Htr. by rewrite <- !app_assoc.
Defined.

(** C4 (defect). A transaction cancelled in the synchronize step, after
    an index has arrived and while the queue is busy: [cancel] asks the
    queue to abort, and at the drain signal the observer of the queue
    finds [m_step] at [Synchronize] and runs the resolution pass instead
    of [finish]. The pass starts the installation: two install tasks are
    created and two downloads queued after the cancellation, and no
    observer has fired. [finish] runs at the next drain signal only; no
    task is committed. *)
Theorem cancel_during_synchronize :
  (λ t, (m_isCancelled t, m_step t, idle t, m_tasks t,
         count is_OnFinish (trace t), count is_OnDestroy (trace t)))
    <$> run ex_plain_world
          [OpSynchronize ex_remote; OpIndexDownloaded ex_fetched;
           OpCancel; OpQueueDone]
          (new_Transaction ["REAPER"])
  = Some (true, Install, false,
          [ex_install "foo.lua"; ex_install "bar.lua"], 0, 0) ∧
  trace <$> run ex_plain_world
              [OpSynchronize ex_remote; OpIndexDownloaded ex_fetched;
               OpCancel; OpQueueDone; OpQueueDone]
              (new_Transaction ["REAPER"])
  = Some [RecursiveCreateDirectory "REAPER/ReaPack";
          QueuePush "repo" "https://example.com/index.xml";
          RecursiveCreateDirectory "REAPER/ReaPack";
          WriteFile "REAPER/ReaPack/remote_repo.xml" "<index version='1'/>";
          QueueAbort;
          NewTask (InstallTask (ex_version "1.0" ["Scripts"; "foo.lua"], ex_entry 0) []);
          QueuePush "1.0" "https://example.com/file";
          NewTask (InstallTask (ex_version "1.0" ["Scripts"; "bar.lua"], ex_entry 0) []);
          QueuePush "1.0" "https://example.com/file";
          OnFinish; OnDestroy].
Proof. split; vm_compute; reflexivity. Qed.

(** Cancelled in the install step, the same transaction finishes at the
    drain signal that follows the cancellation. *)
Example cancel_during_install :
  trace <$> run ex_plain_world
              [OpSynchronize ex_remote; OpIndexDownloaded ex_fetched;
               OpQueueDone; OpCancel; OpQueueDone]
              (new_Transaction ["REAPER"])
  = Some [RecursiveCreateDirectory "REAPER/ReaPack";
          QueuePush "repo" "https://example.com/index.xml";
          RecursiveCreateDirectory "REAPER/ReaPack";
          WriteFile "REAPER/ReaPack/remote_repo.xml" "<index version='1'/>";
          NewTask (ex_install "foo.lua");
          QueuePush "1.0" "https://example.com/file";
          NewTask (ex_install "bar.lua");
          QueuePush "1.0" "https://example.com/file";
          TaskRollback (ex_install "foo.lua");
          TaskRollback (ex_install "bar.lua");
          QueueAbort; OnFinish; OnDestroy].
Proof. vm_compute. reflexivity. Qed.

(** The same run without the cancellation installs and commits both
    packages. *)
Example plain_run :
  trace <$> run ex_plain_world
              [OpSynchronize ex_remote; OpIndexDownloaded ex_fetched;
               OpQueueDone; OpQueueDone]
              (new_Transaction ["REAPER"])
  = Some [RecursiveCreateDirectory "REAPER/ReaPack";
          QueuePush "repo" "https://example.com/index.xml";
          RecursiveCreateDirectory "REAPER/ReaPack";
          WriteFile "REAPER/ReaPack/remote_repo.xml" "<index version='1'/>";
          NewTask (InstallTask (ex_version "1.0" ["Scripts"; "foo.lua"], ex_entry 0) []);
          QueuePush "1.0" "https://example.com/file";
          NewTask (InstallTask (ex_version "1.0" ["Scripts"; "bar.lua"], ex_entry 0) []);
          QueuePush "1.0" "https://example.com/file";
          TaskCommit (InstallTask (ex_version "1.0" ["Scripts"; "foo.lua"], ex_entry 0) []);
          RegistryPush (ex_version "1.0" ["Scripts"; "foo.lua"]);
          AddToREAPER (ex_version "1.0" ["Scripts"; "foo.lua"]);
          TaskCommit (InstallTask (ex_version "1.0" ["Scripts"; "bar.lua"], ex_entry 0) []);
          RegistryPush (ex_version "1.0" ["Scripts"; "bar.lua"]);
          AddToREAPER (ex_version "1.0" ["Scripts"; "bar.lua"]);
          RegistryCommit; OnFinish; OnDestroy].
Proof. reflexivity. Qed.

(** Nothing guards [finish]: two [addTask] calls while the download queue
    is idle run it twice. Both observers fire twice, the registry is
    committed twice and the first task is committed twice. *)
Lemma finish_runs_at_every_idle_addTask :
  idle (new_Transaction ["REAPER"]) = true ∧
  count is_OnFinish
    (trace (addTask ex_world (ex_remove 2)
              (addTask ex_world (ex_remove 1) (new_Transaction ["REAPER"])))) = 2 ∧
  count is_OnDestroy
    (trace (addTask ex_world (ex_remove 2)
              (addTask ex_world (ex_remove 1) (new_Transaction ["REAPER"])))) = 2 ∧
  count is_RegistryCommit
    (trace (addTask ex_world (ex_remove 2)
              (addTask ex_world (ex_remove 1) (new_Transaction ["REAPER"])))) = 2 ∧
  commits_of
    (trace (addTask ex_world (ex_remove 2)
              (addTask ex_world (ex_remove 1) (new_Transaction ["REAPER"]))))
  = [ex_remove 1; ex_remove 1; ex_remove 2].
Proof. repeat split. Qed.

(** C2 (defect). Uninstalling a remote with two installed packages on a
    fresh transaction, whose queue is idle: [uninstall] calls [addTask]
    once per registry entry and [addTask] calls [finish] each time. The
    first task is committed twice, the registry is committed twice and
    [onFinish] and [onDestroy] fire twice each. *)
Theorem uninstall_two_entries_finishes_twice :
  idle (new_Transaction ["REAPER"]) = true ∧
  Registry_queryAll ex_world (trace (new_Transaction ["REAPER"])) ex_remote
    = [ex_installed 1; ex_installed 2] ∧
  count is_OnFinish
    (trace (uninstall ex_world ex_remote (new_Transaction ["REAPER"]))) = 2 ∧
  count is_OnDestroy
    (trace (uninstall ex_world ex_remote (new_Transaction ["REAPER"]))) = 2 ∧
  count is_RegistryCommit
    (trace (uninstall ex_world ex_remote (new_Transaction ["REAPER"]))) = 2 ∧
  commits_of
    (trace (uninstall ex_world ex_remote (new_Transaction ["REAPER"])))
    = [ex_remove 1; ex_remove 1; ex_remove 2] ∧
  trace (uninstall ex_world ex_remote (new_Transaction ["REAPER"]))
  = [RecursiveCreateDirectory "REAPER/ReaPack";
     NewTask (ex_remove 1);
     TaskCommit (ex_remove 1); RegistryForget (ex_installed 1);
     RegistryCommit; OnFinish; OnDestroy;
     NewTask (ex_remove 2);
     TaskCommit (ex_remove 1); RegistryForget (ex_installed 1);
     TaskCommit (ex_remove 2); RegistryForget (ex_installed 2);
     RegistryCommit; OnFinish; OnDestroy].
Proof. repeat split. Qed.

(** The install path of the same transaction finishes once: the install
    tasks queue their downloads, so [addTask] finds the queue busy and
    [finish] waits for the drain signal (example [plain_run]). *)
Example install_finishes_once :
  (λ t, (count is_OnFinish (trace t), count is_RegistryCommit (trace t),
         commits_of (trace t)))
    <$> run ex_plain_world
          [OpSynchronize ex_remote; OpIndexDownloaded ex_fetched;
           OpQueueDone; OpQueueDone]
          (new_Transaction ["REAPER"])
  = Some (1, 1, [ex_install "foo.lua"; ex_install "bar.lua"]).
Proof. vm_compute. reflexivity. Qed.

(** * Further properties of the code *)

(** ** Index model: what a built index looks like *)

Section IndexStructure.

Import Index.

Lemma addPackage_stored (pkg : Package) (cat cat' : Category) :
  addPackage pkg cat = Ok cat' →
  cat_name cat' = cat_name cat ∧
  (cat' = cat ∨
   (cat_packages cat' = cat_packages cat ++ [pkg] ∧
    m_type pkg ≠ Package.UnknownType ∧ m_versions pkg ≠ [])).
Proof.
  unfold addPackage.
  destruct (negb (Nat.eqb _ _)); [done|].
  destruct (Package.Type_eqb (m_type pkg) Package.UnknownType) eqn:Ety.
  { intros [= <-]. auto. }
  case_bool_decide as Hv; intros [= <-]; simpl; [auto|].
  split; [done|]. right. repeat split; [|done].
  intros Hty. by rewrite Hty in Ety.
Qed.

Lemma built_category_shape (cat : Category) :
  built_category cat →
  cat_name cat ≠ "" ∧
  Forall (λ pkg, m_type pkg ≠ Package.UnknownType ∧ m_versions pkg ≠ [])
         (cat_packages cat).
Proof.
  induction 1 as [this name ri cat Hnew | pkg cat cat' _ [IHn IHp] Hadd].
  - unfold new_Category in Hnew.
    destruct (String.eqb_spec name ""); [done|].
    injection Hnew as <-. simpl. by split.
  - apply addPackage_stored in Hadd as (Hname & [-> | (Hp & Hty & Hv)]);
      [done|].
    rewrite Hname, Hp. split; [done|].
    apply Forall_app. split; [done|]. by repeat constructor.
Qed.

(** X1. In every index the code has built, the flat package list is made
    of one non-empty stretch per stored category, in the order of the
    categories: the packages the category held when it was added. Each
    stretch is the leading part of what the category holds now: a package
    added to the category afterwards is in the category and not in the
    flat list. No stored category is without packages. *)
Theorem built_index_packages_by_category (ri : RemoteIndex) :
  built_index ri →
  ∃ added : list (list Package),
    m_packages ri = concat added ∧
    Forall2 (λ pkgs cat, pkgs ≠ [] ∧ pkgs `prefix_of` cat_packages cat)
            added (m_categories ri) ∧
    Forall (λ cat, cat_packages cat ≠ []) (m_categories ri).
Proof.
  induction 1 as [this name ri Hnew | cat ri ri' _ (added & IHp & IHa & IHc) Hcat Hadd
                 | type link ri _ IH | this pkg ri _ (added & IHp & IHa & IHc)].
  - unfold new_RemoteIndex in Hnew. destruct (String.eqb name ""); [done|].
    injection Hnew as <-. simpl. exists []. repeat split; constructor.
  - unfold addCategory in Hadd. destruct (negb (Nat.eqb _ _)); [done|].
    case_bool_decide as Hne; injection Hadd as <-; simpl; [by exists added|].
    exists (added ++ [cat_packages cat]). split; [|split].
    + rewrite concat_app, IHp. simpl. by rewrite app_nil_r.
    + apply Forall2_app; [done|]. by repeat constructor.
    + apply Forall_app. split; [done|]. by repeat constructor.
  - destruct (addLink_fields type link ri) as (_ & -> & ->). exact IH.
  - exists added. simpl. split; [done|]. split.
    + apply Forall2_fmap_r. eapply Forall2_impl; [exact IHa|].
      intros pkgs cat [Hne Hpre]. split; [done|].
      destruct (addPackage_at_fields this pkg cat) as (_ & _ & _ & [-> | ->]);
        [done|]. by apply prefix_app_r.
    + apply Forall_fmap. eapply Forall_impl; [exact IHc|].
      intros cat Hne. simpl.
      destruct (addPackage_at_fields this pkg cat) as (_ & _ & _ & [-> | ->]);
        [done|]. by destruct (cat_packages cat).
Qed.

Lemma built_index_packages_by_category_witness :
  built_index ex_index_1 ∧
  ∃ added, m_packages ex_index_1 = concat added ∧
           length added = length (m_categories ex_index_1).
Proof.
  split; [exact ex_index_1_built|].
  destruct (built_index_packages_by_category ex_index_1 ex_index_1_built)
    as (added & Hp & Ha & _).
  exists added. split; [exact Hp|]. exact (Forall2_length _ _ _ Ha).
Defined.

(** A package added to a category after the category was added to the
    index: the stored category has it, the flat list of the index has
    not. *)
Example addPackage_after_addCategory :
  let late := ex_package Package.ScriptType [ex_version "2.0" ["Scripts"; "b.lua"]] in
  built_index (addPackage_later 2 late ex_index_1) ∧
  m_packages (addPackage_later 2 late ex_index_1) = [ex_script] ∧
  cat_packages <$> m_categories (addPackage_later 2 late ex_index_1)
    = [[ex_script; late]].
Proof.
  split; [|by split].
  apply built_addPackage_later, ex_index_1_built.
Qed.

(** X2. In every index the code has built, the index and its stored
    categories have non-empty names, and every stored package, in the flat
    list of the index and in the stored categories, has a known type and
    at least one version. *)
Theorem built_index_well_formed (ri : RemoteIndex) :
  built_index ri →
  ri_name ri ≠ "" ∧
  Forall (λ cat, cat_name cat ≠ "") (m_categories ri) ∧
  Forall (λ pkg, m_type pkg ≠ Package.UnknownType ∧ m_versions pkg ≠ [])
         (m_packages ri) ∧
  Forall (λ cat,
            Forall (λ pkg, m_type pkg ≠ Package.UnknownType ∧ m_versions pkg ≠ [])
                   (cat_packages cat))
         (m_categories ri).
Proof.
  intros Hb.
  assert (Forall (λ cat,
            Forall (λ pkg, m_type pkg ≠ Package.UnknownType ∧ m_versions pkg ≠ [])
                   (cat_packages cat))
          (m_categories ri)) as Hcats.
  { apply Forall_forall. intros cat Hin.
    destruct (built_index_inv ri Hb) as [Hc _].
    destruct (Hc cat Hin) as [_ Hcat].
    by apply built_category_shape. }
  cut (ri_name ri ≠ "" ∧
       Forall (λ cat, cat_name cat ≠ "") (m_categories ri) ∧
       Forall (λ pkg, m_type pkg ≠ Package.UnknownType ∧ m_versions pkg ≠ [])
              (m_packages ri)).
  { intros (H1 & H2 & H3). done. }
  clear Hcats.
  induction Hb as [this name ri Hnew | cat ri ri' _ (IHn & IHc & IHp) Hcat Hadd
                  | type link ri _ IH | this pkg ri _ (IHn & IHc & IHp)].
  - unfold new_RemoteIndex in Hnew.
    destruct (String.eqb_spec name ""); [done|].
    injection Hnew as <-. simpl. by repeat split.
  - destruct (built_category_shape cat Hcat) as [Hname Hpkgs].
    unfold addCategory in Hadd. destruct (negb (Nat.eqb _ _)); [done|].
    case_bool_decide as Hne; injection Hadd as <-; simpl; [done|].
    split; [done|]. split; apply Forall_app; split; try done.
    by repeat constructor.
  - destruct (addLink_fields type link ri) as (_ & -> & ->).
    unfold addLink. by destruct (starts_with _ _).
  - simpl. split; [done|]. split; [|done].
    apply Forall_fmap. eapply Forall_impl; [exact IHc|].
    intros cat Hne. simpl.
    by destruct (addPackage_at_fields this pkg cat) as (_ & _ & -> & _).
Qed.

Lemma built_index_well_formed_witness :
  built_index ex_index_1 ∧ ri_name ex_index_1 ≠ "" ∧
  Forall (λ pkg, m_type pkg ≠ Package.UnknownType ∧ m_versions pkg ≠ [])
         (m_packages ex_index_1).
Proof.
  split; [exact ex_index_1_built|].
  destruct (built_index_well_formed ex_index_1 ex_index_1_built)
    as (Hn & _ & Hp & _).
  split; [exact Hn | exact Hp].
Defined.

(** X3. Links: adding a link of one type never changes the links of the
    other type, and in every index the code has built each stored link
    has a URL that begins with "http". *)
Theorem links_by_type (ri : RemoteIndex) :
  built_index ri →
  Forall (λ e, starts_with (link_url (snd e)) "http" = true) (m_links ri) ∧
  ∀ type type' link, type' ≠ type →
    links type' (addLink type link ri) = links type' ri.
Proof.
  intros Hb. split.
  - induction Hb as [this name ri Hnew | cat ri ri' _ IH Hcat Hadd
                    | type link ri _ IH | this pkg ri _ IH].
    + unfold new_RemoteIndex in Hnew. destruct (String.eqb name ""); [done|].
      injection Hnew as <-. constructor.
    + unfold addCategory in Hadd. destruct (negb (Nat.eqb _ _)); [done|].
      case_bool_decide; by injection Hadd as <-.
    + unfold addLink. destruct (starts_with _ _) eqn:E; [simpl|done].
      apply Forall_app. split; [done|]. by repeat constructor.
    + exact IH.
  - intros type type' link Hne. unfold addLink, links.
    destruct (starts_with _ _); [simpl|done].
    rewrite filter_app, fmap_app, filter_cons_False, filter_nil; simpl.
    + by rewrite app_nil_r.
    + destruct type, type'; done.
Qed.

Lemma links_by_type_witness :
  built_index ex_index_1 ∧
  links WebsiteLink
    (addLink DonationLink (ex_link "https://example.com/donate") ex_index_1)
  = [].
Proof.
  split; [exact ex_index_1_built|].
  destruct (links_by_type ex_index_1 ex_index_1_built) as [_ H].
  by rewrite H.
Defined.

End IndexStructure.

(** ** Downloads: outcome, request headers, received data *)

Section DownloadOutcome.

Import Download.

(** X4. Every run reports exactly one terminal state, never [Idle] or
    [Running]: [Success] exactly when the job was aborted neither before
    nor during the transfer and curl returned [CURLE_OK]; [Aborted] exactly
    when it was aborted before or during the transfer, whatever curl
    returned. *)
Theorem run_reports_one_outcome (NoCacheFlag : Z) (dl : Download) (env : Env) :
  ∃ s m,
    filter (λ e, is_finish e = true) (run NoCacheFlag dl env) = [finish s m] ∧
    final_state (run NoCacheFlag dl env) = Some s ∧
    (s = Success ↔
     aborted_on_entry env = false ∧ aborted_after_transfer env = false ∧
     res env = CURLE_OK) ∧
    (s = Aborted ↔
     aborted_on_entry env = true ∨ aborted_after_transfer env = true) ∧
    s ≠ Idle ∧ s ≠ Running.
Proof.
  unfold final_state, run.
  destruct (aborted_on_entry env) eqn:E1.
  { exists Aborted, (Some "cancelled"). repeat split; try done; auto.
    by intros (? & _). }
  destruct (aborted_after_transfer env) eqn:E2.
  { exists Aborted, (Some "aborted by user").
    repeat split; try done; auto. by intros (_ & ? & _). }
  destruct (Z.eqb_spec (res env) CURLE_OK) as [E3 | E3]; simpl.
  - exists Success, None. repeat split; try done. by intros [|].
  - eexists Failure, _. repeat split; try done.
    + by intros (_ & _ & ?).
    + by intros [|].
Qed.

End DownloadOutcome.

Section DownloadData.

Lemma append_cons (x : ascii) (a b : string) :
  String x a +:+ b = String x (a +:+ b).
Proof. reflexivity. Qed.

Lemma substring_all (s : string) : substring 0 (String.length s) s = s.
Proof. induction s as [|c s IH]; simpl; [done|]. by f_equal. Qed.

Lemma string_app_assoc (a b c : string) : (a +:+ b) +:+ c = a +:+ (b +:+ c).
Proof.
  induction a as [|x a IH]; [done|]. rewrite !append_cons. by f_equal.
Qed.

Lemma string_app_nil_r (a : string) : a +:+ "" = a.
Proof.
  induction a as [|x a IH]; [done|]. rewrite append_cons. by f_equal.
Qed.

Lemma length_string_app (a b : string) :
  String.length (a +:+ b) = (String.length a + String.length b)%nat.
Proof.
  induction a as [|x a IH]; [done|]. rewrite append_cons. simpl. by f_equal.
Qed.

(** [WriteData] on a chunk of [rawsize * nmemb] bytes takes all of it. *)
Lemma WriteData_whole (data : string) (rawsize nmemb : N) (contents : string) :
  (rawsize * nmemb < 2 ^ 64)%N →
  N.of_nat (String.length data) = (rawsize * nmemb)%N →
  WriteData data rawsize nmemb contents
  = (N.of_nat (String.length data), contents +:+ data).
Proof.
  intros Hfit Hlen. unfold WriteData.
  rewrite N.mod_small by done. rewrite <- Hlen, Nat2N.id.
  by rewrite substring_all.
Qed.

(** X5. [WriteData] reports every byte it was handed as consumed, so the
    transport never sees a short write, and appends exactly those bytes:
    after a transfer delivered in chunks the contents are what was there
    before followed by the chunks in the order of arrival. *)
Theorem receive_concatenates (chunks : list string) (contents : string) :
  Forall (λ data, (N.of_nat (String.length data) < 2 ^ 64)%N) chunks →
  Forall (λ data,
            fst (WriteData data 1 (N.of_nat (String.length data)) contents)
            = N.of_nat (String.length data)) chunks ∧
  receive chunks contents = contents +:+ String.concat "" chunks ∧
  String.length (receive chunks contents)
  = (String.length contents + list_sum (String.length <$> chunks))%nat.
Proof.
  intros Hfit.
  assert (∀ data c, (N.of_nat (String.length data) < 2 ^ 64)%N →
            WriteData data 1 (N.of_nat (String.length data)) c
            = (N.of_nat (String.length data), c +:+ data)) as Hone.
  { intros data c H. apply WriteData_whole; rewrite N.mul_1_l; done. }
  split.
  { eapply Forall_impl; [exact Hfit|]. intros data H. simpl in H.
    by rewrite Hone. }
  assert (receive chunks contents
          = contents +:+ foldr String.append "" chunks) as Hrec.
  { unfold receive. revert contents.
    induction Hfit as [|data chunks Hd _ IH]; intros contents;
      cbn [foldl foldr].
    - by rewrite string_app_nil_r.
    - rewrite Hone by done. cbn [snd]. rewrite IH. apply string_app_assoc. }
  assert (∀ l : list string, String.concat "" l = foldr String.append "" l)
    as Hconcat.
  { induction l as [|a [|b l] IH]; simpl in *; [done| |].
    - by rewrite string_app_nil_r.
    - by rewrite IH. }
  split; [by rewrite Hconcat|].
  rewrite Hrec, length_string_app. f_equal.
  clear. induction chunks as [|a l IH]; simpl; [done|].
  by rewrite length_string_app, IH.
Qed.

Lemma receive_concatenates_witness :
  receive ["<index "; "version='1'"; "/>"] "" = "<index version='1'/>".
Proof.
  destruct (receive_concatenates ["<index "; "version='1'"; "/>"] "")
    as (_ & H & _); [repeat constructor|].
  exact H.
Defined.

End DownloadData.

(** ** The transaction as a sequence of elementary updates *)

Section Updates.

Context (w : World).

(** Peels the outermost elementary update off the state on the right. *)
Ltac last_update := eapply rtc_r; [|solve [constructor; done]].

Lemma updates_foldl {A} (I : Transaction → Prop)
    (f : Transaction → A → Transaction) (l : list A) (t : Transaction) :
  (∀ t x, I t → rtc (update w) t (f t x) ∧ I (f t x)) →
  I t → rtc (update w) t (foldl f t l) ∧ I (foldl f t l).
Proof.
  intros Hf. revert t. induction l as [|x l IH]; intros t Ht; simpl.
  - by split.
  - destruct (Hf t x Ht) as [H1 Ht1].
    destruct (IH _ Ht1) as [H2 Ht2]. split; [by etrans | done].
Qed.

Lemma updates_foldl_plain {A} (f : Transaction → A → Transaction)
    (l : list A) (t : Transaction) :
  (∀ t x, rtc (update w) t (f t x)) → rtc (update w) t (foldl f t l).
Proof.
  intros Hf.
  apply (updates_foldl (λ _, True) f l t); [|done].
  intros t0 x _. by split.
Qed.

Lemma load_Ok (loader : Index.TiXmlElement → string → result Index.RemoteIndex)
    (name : string) (file : Index.IndexFile) (ri : Index.RemoteIndex) :
  Index.load loader name file = Some (Ok ri) →
  ∃ root name, loader root name = Ok ri.
Proof.
  destruct file as [e | e | [root|]]; simpl; try done.
  destruct (negb _); [done|].
  destruct (_ =? 0)%Z; [done|]. destruct (_ =? 1)%Z; [|done].
  intros [= H]. by exists root, name.
Qed.

Lemma updates_queue_push (name url : string) (t : Transaction) :
  rtc (update w) t (queue_push name url t).
Proof. unfold queue_push. do 2 last_update. done. Qed.

Lemma updates_saveRemoteIndex (dl : Fetched) (t t' : Transaction) :
  saveRemoteIndex w dl t = Some t' → rtc (update w) t t'.
Proof.
  unfold saveRemoteIndex, saveFile.
  destruct (negb (dl_status dl =? 200)%Z); simpl.
  { intros [= <-]. by last_update. }
  destruct (ofstream_error dl); simpl.
  { intros [= <-]. by do 2 last_update. }
  destruct (Index.load _ _ _) as [[ri | what]|] eqn:Hload; [| |done];
    intros [= <-]; [|by do 3 last_update].
  eapply rtc_r; [|apply update_push_remoteIndex; by eapply load_Ok].
  by do 2 last_update.
Qed.

Lemma updates_registerFiles (list : list Path) (t : Transaction) :
  rtc (update w) t (registerFiles list t).
Proof.
  unfold registerFiles. last_update.
  apply updates_foldl_plain. intros t0 path.
  case_bool_decide; [|done]. by apply rtc_once, update_conflict.
Qed.

Lemma Status_eqb_eq (a b : Registry.Status) :
  Registry.Status_eqb a b = true ↔ a = b.
Proof. destruct a, b; simpl; split; done. Qed.

Lemma updates_updateAll_package (pkg : Package) (t t' : Transaction) :
  updateAll_package w pkg t = Some t' → rtc (update w) t t'.
Proof.
  unfold updateAll_package.
  destruct (lastVersion pkg) as [ver|]; [|done].
  destruct (Registry.Status_eqb _ _) eqn:E;
    [destruct (allFilesExists _ _ _)|]; intros [= <-].
  - apply updates_registerFiles.
  - last_update. apply updates_registerFiles.
  - eapply rtc_r; [apply updates_registerFiles|].
    apply update_push_package. simpl.
    intros H%Status_eqb_eq. by rewrite H in E.
Qed.

Lemma updates_updateAll_packages (pkgs : list Package) (t t' : Transaction) :
  updateAll_packages w pkgs t = Some t' → rtc (update w) t t'.
Proof.
  revert t. induction pkgs as [|pkg pkgs IH]; intros t; simpl.
  - by intros [= <-].
  - destruct (updateAll_package w pkg t) as [t1|] eqn:H1; [|done].
    intros H. etrans; [by eapply updates_updateAll_package | by apply IH].
Qed.

Lemma updates_onCommit (task : Task) (t : Transaction) :
  m_isCancelled t = false → rtc (update w) t (onCommit w task t).
Proof.
  intros Hc. destruct task as [entry files | files entry]; simpl.
  - assert (rtc (update w) t
              (if Registry.Status_eqb (Registry.status (snd entry))
                    Registry.UpdateAvailable
               then push_update entry t else push_new entry t)) as H1.
    { destruct (Registry.Status_eqb _ _) eqn:E; apply rtc_once.
      - apply update_push_update; [done|]. by apply Status_eqb_eq.
      - apply update_push_new; [done|].
        intros H%Status_eqb_eq. by rewrite H in E. }
    assert (m_isCancelled
              (if Registry.Status_eqb (Registry.status (snd entry))
                    Registry.UpdateAvailable
               then push_update entry t else push_new entry t) = false) as H2.
    { by destruct (Registry.Status_eqb _ _). }
    destruct (negb _).
    + last_update. eapply rtc_r; [|by apply update_commit].
      eapply rtc_r; [exact H1|]. by apply update_commit.
    + eapply rtc_r; [|by apply update_commit].
      eapply rtc_r; [exact H1|]. by apply update_commit.
  - eapply rtc_r; [|by apply update_add_removals].
    by apply rtc_once, update_commit.
Qed.

Lemma updates_commit (t : Transaction) (task : Task) :
  m_isCancelled t = false → rtc (update w) t (commit w t task).
Proof.
  intros Hc. unfold commit. destruct (Task_commit w (trace t) task).
  - etrans; [|by apply updates_onCommit].
    by apply rtc_once, update_commit.
  - by apply rtc_once, update_commit.
Qed.

Lemma updates_finish (t : Transaction) : rtc (update w) t (finish w t).
Proof.
  unfold finish.
  eapply rtc_r; [|by apply update_observer].
  eapply rtc_r; [|by apply update_observer].
  destruct (m_isCancelled t) eqn:Hc; simpl; [done|].
  destruct (updates_foldl (λ t, m_isCancelled t = false) (commit w)
              (m_tasks t) t) as [H1 H2]; [|done|].
  - intros t0 task H0. split; [by apply updates_commit|].
    by destruct (commit_fields w t0 task) as (-> & _).
  - eapply rtc_r; [exact H1|]. by apply update_commit.
Qed.

Lemma updates_addTask (task : Task) (t : Transaction) :
  rtc (update w) t (addTask w task t).
Proof.
  unfold addTask.
  etrans; [apply rtc_once, update_push_task|].
  destruct (idle _); [apply updates_finish | done].
Qed.

Lemma updates_install (t : Transaction) : rtc (update w) t (install w t).
Proof.
  unfold install.
  etrans; [apply rtc_once, update_set_step|].
  apply updates_foldl_plain. intros t0 entry. unfold new_InstallTask.
  etrans; [|apply updates_addTask].
  etrans; [|apply updates_foldl_plain; intros t1 src; apply updates_queue_push].
  by apply rtc_once, update_emit.
Qed.

Lemma updates_updateAll (t t' : Transaction) :
  updateAll w t = Some t' → rtc (update w) t t'.
Proof.
  unfold updateAll. rewrite updateAll_indexes_packages.
  destruct (updateAll_packages w _ t) as [t1|] eqn:H1; [|done].
  apply updates_updateAll_packages in H1.
  destruct (_ || _); intros [= <-]; (etrans; [exact H1|]).
  - apply updates_finish.
  - apply updates_install.
Qed.

Lemma updates_cancel (t : Transaction) : rtc (update w) t (cancel w t).
Proof.
  unfold cancel.
  assert (rtc (update w) t
            (foldl (λ t task, emit (TaskRollback task) t)
               (set_isCancelled true t) (m_tasks (set_isCancelled true t))))
    as H1.
  { etrans; [apply rtc_once, update_cancel|].
    apply updates_foldl_plain. intros t0 task.
    by apply rtc_once, update_emit. }
  destruct (idle _).
  - etrans; [exact H1 | apply updates_finish].
  - eapply rtc_r; [exact H1|]. by apply update_emit.
Qed.

Lemma updates_uninstall (remote : Remote) (t : Transaction) :
  rtc (update w) t (uninstall w remote t).
Proof.
  unfold uninstall. case_bool_decide; [apply updates_cancel|].
  apply updates_foldl_plain. intros t0 entry. unfold new_RemoveTask.
  etrans; [|apply updates_addTask].
  by apply rtc_once, update_emit.
Qed.

Lemma updates_step (op : Op) (t t' : Transaction) :
  step w op t = Some t' → rtc (update w) t t'.
Proof.
  destruct op as [remote | dl | | remote |]; simpl.
  - intros [= <-]. unfold synchronize.
    etrans; [apply rtc_once, update_set_step | apply updates_queue_push].
  - apply updates_saveRemoteIndex.
  - intros Hdone.
    etrans; [apply rtc_once, (update_set_queue w [])|].
    unfold onDone in Hdone. destruct (m_step (set_queue [] t)).
    + injection Hdone as <-. apply updates_finish.
    + by apply updates_updateAll.
    + injection Hdone as <-. apply updates_finish.
  - intros [= <-]. apply updates_uninstall.
  - intros [= <-]. apply updates_cancel.
Qed.

(** Every run is a sequence of elementary updates. *)
Lemma updates_run (ops : list Op) (t t' : Transaction) :
  run w ops t = Some t' → rtc (update w) t t'.
Proof.
  revert t. induction ops as [|op ops IH]; intros t; simpl.
  - by intros [= <-].
  - destruct (step w op t) as [t1|] eqn:H1; [|done].
    intros H. etrans; [by eapply updates_step | by apply IH].
Qed.

End Updates.

(** ** What holds along every run *)

Section RunInvariants.

Context (w : World).

Lemma prefix_snoc {A} (l : list A) (x : A) : l `prefix_of` l ++ [x].
Proof. by exists [x]. Qed.

Lemma only_grows_refl (t : Transaction) : only_grows t t.
Proof. by repeat split. Qed.

Lemma only_grows_trans (t1 t2 t3 : Transaction) :
  only_grows t1 t2 → only_grows t2 t3 → only_grows t1 t3.
Proof.
  intros (A1 & A2 & A3 & A4 & A5 & A6 & A7 & A8 & A9 & A10 & A11 & A12 & A13)
         (B1 & B2 & B3 & B4 & B5 & B6 & B7 & B8 & B9 & B10 & B11 & B12 & B13).
  repeat split; try (by etrans); try congruence; auto.
Qed.

Lemma update_only_grows (t t' : Transaction) :
  update w t t' → only_grows t t'.
Proof.
  destruct 1; repeat split; simpl;
    try done; try apply prefix_snoc; try (by eexists).
  apply union_subseteq_l.
Qed.

(** X6. Over every run of a transaction nothing recorded is taken back:
    errors, tasks, loaded indexes, install candidates, the lists of new,
    updated and removed items and the trace are only ever appended to, the
    set of registered files only grows, the conflict and cancelled flags
    are never cleared, and the root and database paths do not change. *)
Theorem run_only_grows (ops : list Op) (t t' : Transaction) :
  run w ops t = Some t' → only_grows t t'.
Proof.
  intros H%updates_run. induction H as [t | t1 t2 t3 H12 _ IH].
  - apply only_grows_refl.
  - eapply only_grows_trans; [by apply update_only_grows | exact IH].
Qed.

(** X7. Once the cancelled flag is set, no run adds anything to the lists
    of new, updated or removed items. *)
Theorem cancelled_reports_nothing (ops : list Op) (t t' : Transaction) :
  m_isCancelled t = true →
  run w ops t = Some t' →
  m_isCancelled t' = true ∧
  m_new t' = m_new t ∧ m_updates t' = m_updates t ∧
  m_removals t' = m_removals t.
Proof.
  intros Hc H%updates_run. induction H as [t | t1 t2 t3 H12 _ IH]; [done|].
  assert (m_isCancelled t2 = true ∧ m_new t2 = m_new t1 ∧
          m_updates t2 = m_updates t1 ∧ m_removals t2 = m_removals t1)
    as (Hc2 & <- & <- & <-).
  { destruct H12; simpl; repeat split; congruence. }
  by apply IH.
Qed.

Lemma update_well_reported (t t' : Transaction) :
  update w t t' → well_reported t → well_reported t'.
Proof.
  intros Hu (Hup & Hnew & Hpk).
  destruct Hu; repeat split; simpl; try done;
    apply Forall_app; split; try done; by repeat constructor.
Qed.

(** X8. In every run that starts from a fresh transaction, an item is
    filed under updates only with registry status [UpdateAvailable], under
    new installs only with another status, and no install candidate has
    status [UpToDate]: a package found up to date with a file missing is
    a candidate with status [Uninstalled]. *)
Theorem run_well_reported (root : Path) (ops : list Op) (t' : Transaction) :
  run w ops (new_Transaction root) = Some t' → well_reported t'.
Proof.
  intros H%updates_run.
  assert (well_reported (new_Transaction root)) as H0
    by (repeat split; constructor).
  revert H0. induction H as [t | t1 t2 t3 H12 _ IH]; [done|].
  intros H1. apply IH. by eapply update_well_reported.
Qed.

Lemma update_conflict_backed (t t' : Transaction) :
  update w t t' → conflict_backed t → conflict_backed t'.
Proof.
  intros Hu Hb.
  assert (∀ t0, m_hasConflicts t0 = m_hasConflicts t →
                m_errors t `prefix_of` m_errors t0 → conflict_backed t0)
    as Hkeep.
  { intros t0 Hf [k Hk] Hc. rewrite Hf in Hc.
    destruct (Hb Hc) as [title Hin]. exists title.
    rewrite Hk. apply elem_of_app. by left. }
  destruct Hu; try (apply Hkeep; [done | simpl; try done; apply prefix_snoc]).
  intros _. exists (join path). simpl. apply elem_of_app. right. by left.
Qed.

(** X9. In every run that starts from a fresh transaction, the conflict
    flag is raised only together with a conflict error: whenever
    [m_hasConflicts] is set, [m_errors] holds an error with the conflict
    message. *)
Theorem run_conflict_backed (root : Path) (ops : list Op) (t' : Transaction) :
  run w ops (new_Transaction root) = Some t' → conflict_backed t'.
Proof.
  intros H%updates_run.
  assert (conflict_backed (new_Transaction root)) as H0 by done.
  revert H0. induction H as [t | t1 t2 t3 H12 _ IH]; [done|].
  intros H1. apply IH. by eapply update_conflict_backed.
Qed.

End RunInvariants.

Lemma ex_plain_run :
  is_Some (run ex_plain_world ex_plain_ops (new_Transaction ["REAPER"])).
Proof. apply not_eq_None_Some. vm_compute. discriminate. Qed.

Lemma ex_conflict_run :
  is_Some (run ex_world ex_conflict_ops (new_Transaction ["REAPER"])).
Proof. apply not_eq_None_Some. vm_compute. discriminate. Qed.

Lemma ex_cancelled_run :
  is_Some (run ex_world [OpQueueDone; OpUninstall ex_remote]
             (cancel ex_world ex_busy)).
Proof. apply not_eq_None_Some. vm_compute. discriminate. Qed.

Lemma run_only_grows_witness :
  ∃ t', run ex_plain_world ex_plain_ops (new_Transaction ["REAPER"]) = Some t' ∧
        only_grows (new_Transaction ["REAPER"]) t'.
Proof.
  destruct ex_plain_run as [t' H]. exists t'. split; [exact H|].
  exact (run_only_grows ex_plain_world _ _ _ H).
Defined.

Lemma cancelled_reports_nothing_witness :
  ∃ t', run ex_world [OpQueueDone; OpUninstall ex_remote]
          (cancel ex_world ex_busy) = Some t' ∧
        m_new t' = [] ∧ m_updates t' = [] ∧ m_removals t' = [].
Proof.
  destruct ex_cancelled_run as [t' H]. exists t'. split; [exact H|].
  destruct (cancelled_reports_nothing ex_world _
              (cancel ex_world ex_busy) t' eq_refl H)
    as (_ & H1 & H2 & H3).
  split; [exact H1|]. split; [exact H2 | exact H3].
Defined.

Lemma run_well_reported_witness :
  ∃ t', run ex_plain_world ex_plain_ops (new_Transaction ["REAPER"]) = Some t' ∧
        well_reported t'.
Proof.
  destruct ex_plain_run as [t' H]. exists t'. split; [exact H|].
  exact (run_well_reported ex_plain_world _ _ _ H).
Defined.

Lemma run_conflict_backed_witness :
  ∃ t', run ex_world ex_conflict_ops (new_Transaction ["REAPER"]) = Some t' ∧
        conflict_backed t'.
Proof.
  destruct ex_conflict_run as [t' H]. exists t'. split; [exact H|].
  exact (run_conflict_backed ex_world _ _ _ H).
Defined.

(** ** The transaction: single operations *)

Section Operations.

Context (w : World).

(** X10. A finished index download is accounted for exactly once: either
    one index is appended to the loaded indexes and no error is recorded,
    or exactly one error is recorded and no index is added. A download
    whose status is not 200 leaves the disk alone, and the only file ever
    written is the database path followed by remote_<name>.xml, with the
    downloaded contents. *)
Theorem saveRemoteIndex_accounts (dl : Fetched) (t t' : Transaction) :
  saveRemoteIndex w dl t = Some t' →
  ((∃ ri, m_remoteIndexes t' = m_remoteIndexes t ++ [ri] ∧
          m_errors t' = m_errors t) ∨
   (∃ e, m_remoteIndexes t' = m_remoteIndexes t ∧
         m_errors t' = m_errors t ++ [e])) ∧
  (dl_status dl ≠ 200%Z → trace t' = trace t) ∧
  ∃ evs, trace t' = trace t ++ evs ∧
         Forall (λ e, is_WriteFile e = true →
                      e = WriteFile (join (remote_index_path t dl))
                                    (dl_contents dl)) evs.
Proof.
  unfold saveRemoteIndex, saveFile, remote_index_path.
  destruct (Z.eqb_spec (dl_status dl) 200) as [E | E]; simpl.
  2:{ intros [= <-]. simpl. split; [right; by eexists|]. split; [done|].
      exists []. by rewrite app_nil_r. }
  destruct (ofstream_error dl); simpl.
  { intros [= <-]. simpl. split; [right; by eexists|]. split; [done|].
    eexists. split; [done|]. by repeat constructor. }
  destruct (Index.load _ _ _) as [[ri | what]|]; [| |done];
    intros [= <-]; simpl.
  - split; [left; by eexists|]. split; [done|].
    eexists. split; [by rewrite <- app_assoc|]. by repeat constructor.
  - split; [right; by eexists|]. split; [done|].
    eexists. split; [by rewrite <- app_assoc|]. by repeat constructor.
Qed.

(** *** The resolution pass *)

Lemma registerFiles_quiet (list : list Path) (t : Transaction) :
  (∀ p, p ∈ list → p ∉ m_files t) →
  registerFiles list t = insert_files list t.
Proof.
  intros Hfresh. unfold registerFiles. f_equal.
  induction list as [|path list IH]; simpl; [done|].
  rewrite bool_decide_false by (apply Hfresh; by left).
  apply IH. intros p Hp. apply Hfresh. by right.
Qed.

Lemma registerFiles_files (list : list Path) (t : Transaction) :
  m_files (registerFiles list t) = m_files t ∪ list_to_set list ∧
  m_packages (registerFiles list t) = m_packages t ∧
  m_root (registerFiles list t) = m_root t.
Proof.
  destruct (registerFiles_loop list t) as (Hf & _).
  unfold registerFiles. simpl in *. rewrite Hf. split; [done|].
  clear Hf. revert t. induction list as [|path list IH]; intros t; simpl.
  - done.
  - match goal with |- context [foldl ?f ?a list] =>
      destruct (IH a) as [-> ->] end.
    by case_bool_decide.
Qed.

Lemma updateAll_package_files (pkg : Package) (t t' : Transaction) :
  updateAll_package w pkg t = Some t' →
  m_files t' = m_files t ∪ list_to_set (claimed_paths [pkg]).
Proof.
  unfold updateAll_package, claimed_paths. simpl.
  destruct (lastVersion pkg) as [ver|]; [|done]. rewrite app_nil_r.
  destruct (registerFiles_files (Version_files ver) t) as (Hf & _).
  destruct (Registry.Status_eqb _ _); [destruct (allFilesExists _ _ _)|];
    by intros [= <-].
Qed.

Lemma claimed_paths_cons (pkg : Package) (pkgs : list Package) :
  claimed_paths (pkg :: pkgs) = claimed_paths [pkg] ++ claimed_paths pkgs.
Proof. unfold claimed_paths. simpl. by rewrite app_nil_r. Qed.

(** X11. A resolution pass registers exactly the files of the last
    version of every package it walks through, those of packages it finds
    up to date included: afterwards [m_files] is what it was, plus these
    paths. *)
Theorem updateAll_registers_claimed_paths (pkgs : list Package)
    (t t' : Transaction) :
  updateAll_packages w pkgs t = Some t' →
  m_files t' = m_files t ∪ list_to_set (claimed_paths pkgs).
Proof.
  revert t. induction pkgs as [|pkg pkgs IH]; intros t;
    cbn [updateAll_packages].
  - intros [= <-]. change (claimed_paths []) with (@nil Path).
    by rewrite list_to_set_nil, (right_id_L ∅ (∪)).
  - destruct (updateAll_package w pkg t) as [t1|] eqn:H1; [|done].
    intros H. rewrite (IH _ H), (updateAll_package_files _ _ _ H1).
    rewrite (claimed_paths_cons pkg pkgs), list_to_set_app_L.
    by rewrite (assoc_L (∪)).
Qed.

Lemma updateAll_package_quiet (pkg : Package) (t t' : Transaction) :
  (∀ p, p ∈ claimed_paths [pkg] → p ∉ m_files t) →
  updateAll_package w pkg t = Some t' →
  m_hasConflicts t' = m_hasConflicts t ∧ m_errors t' = m_errors t.
Proof.
  unfold updateAll_package, claimed_paths. simpl.
  destruct (lastVersion pkg) as [ver|]; [|done]. rewrite app_nil_r.
  intros Hfresh. rewrite (registerFiles_quiet _ _ Hfresh).
  destruct (Registry.Status_eqb _ _); [destruct (allFilesExists _ _ _)|];
    by intros [= <-].
Qed.

(** X12. No false alarm: when the paths a resolution pass registers are
    pairwise different and none of them was registered before, the pass
    leaves the conflict flag and the error list as they were. *)
Theorem updateAll_no_false_conflict (pkgs : list Package)
    (t t' : Transaction) :
  NoDup (claimed_paths pkgs) →
  (∀ p, p ∈ claimed_paths pkgs → p ∉ m_files t) →
  updateAll_packages w pkgs t = Some t' →
  m_hasConflicts t' = m_hasConflicts t ∧ m_errors t' = m_errors t.
Proof.
  revert t. induction pkgs as [|pkg pkgs IH]; intros t;
    cbn [updateAll_packages].
  - by intros _ _ [= <-].
  - rewrite (claimed_paths_cons pkg pkgs). intros Hnd Hfresh.
    destruct (updateAll_package w pkg t) as [t1|] eqn:H1; [|done].
    intros H.
    apply NoDup_app in Hnd as (_ & Hdisj & Hnd).
    destruct (updateAll_package_quiet pkg t t1) as [<- <-]; [|done|].
    { intros p Hp. apply Hfresh, elem_of_app. by left. }
    apply (IH t1); [done| |done].
    intros p Hp. rewrite (updateAll_package_files _ _ _ H1).
    intros [Hin | Hin%elem_of_list_to_set]%elem_of_union.
    + by apply (Hfresh p); [apply elem_of_app; right|].
    + by apply (Hdisj p).
Qed.

Lemma registerFiles_trace (list : list Path) (t : Transaction) :
  trace (registerFiles list t) = trace t.
Proof. by destruct (registerFiles_spec list t) as ((-> & _) & _). Qed.

Lemma updateAll_package_satisfied (pkg : Package) (t0 t : Transaction) :
  trace t0 = trace t → m_root t0 = m_root t →
  satisfied w t pkg →
  ∃ t1, updateAll_package w pkg t0 = Some t1 ∧
        m_packages t1 = m_packages t0 ∧
        trace t1 = trace t ∧ m_root t1 = m_root t.
Proof.
  intros Htr Hroot (ver & Hlast & Hst & Hfiles).
  unfold updateAll_package. rewrite Hlast, Htr, Hst. simpl.
  destruct (registerFiles_files (Version_files ver) t0) as (_ & Hp & Hr).
  assert (allFilesExists w (Version_files ver)
            (registerFiles (Version_files ver) t0) = true) as ->.
  { unfold allFilesExists, prefixPath.
    rewrite registerFiles_trace, Hr, Htr, Hroot.
    apply forallb_forall. intros p Hp'%list_elem_of_In.
    by apply (proj1 (Forall_forall _ _) Hfiles). }
  eexists. split; [done|]. rewrite registerFiles_trace, Hr. auto.
Qed.

Lemma updateAll_packages_satisfied (pkgs : list Package) (t0 t : Transaction) :
  trace t0 = trace t → m_root t0 = m_root t →
  Forall (satisfied w t) pkgs →
  ∃ t1, updateAll_packages w pkgs t0 = Some t1 ∧
        m_packages t1 = m_packages t0.
Proof.
  intros Htr Hroot Hall. revert t0 Htr Hroot.
  induction Hall as [|pkg pkgs Hpkg _ IH]; intros t0 Htr Hroot;
    cbn [updateAll_packages].
  - by eexists.
  - destruct (updateAll_package_satisfied pkg t0 t Htr Hroot Hpkg)
      as (t1 & -> & Hp & Htr1 & Hroot1).
    destruct (IH t1 Htr1 Hroot1) as (t2 & -> & Hp2).
    exists t2. split; [done | congruence].
Qed.

(** X13. Nothing to do: when the registry reports every package of the
    loaded indexes up to date and every file of their last versions
    exists, and there is no candidate from before, [updateAll] creates no
    task and calls [finish] at once; with no task from before, all that
    happens is the registry commit of a transaction that is not
    cancelled, then [onFinish] and [onDestroy]. *)
Theorem updateAll_nothing_to_install (t : Transaction) :
  Forall (satisfied w t) (all_packages t) →
  m_packages t = [] →
  ∃ t1,
    updateAll w t = Some (finish w t1) ∧
    m_packages t1 = [] ∧
    m_tasks (finish w t1) = m_tasks t ∧
    (m_tasks t = [] →
     trace (finish w t1)
     = trace t ++ (if m_isCancelled t then [] else [RegistryCommit])
       ++ [OnFinish; OnDestroy]).
Proof.
  intros Hall Hnone. unfold all_packages in Hall.
  destruct (updateAll_packages_satisfied _ t t eq_refl eq_refl Hall)
    as (t1 & H1 & Hp).
  exists t1. rewrite Hnone in Hp.
  destruct (updateAll_packages_spec w _ _ _ H1)
    as ((Htrace & Htasks & Hcanc & _) & _).
  destruct (finish_fields w t1) as (_ & _ & Hft & _).
  split.
  { unfold updateAll. rewrite updateAll_indexes_packages, H1, Hp.
    by rewrite bool_decide_true. }
  split; [done|]. split; [congruence|].
  intros Hno. unfold finish. rewrite Htasks, Hno, Hcanc.
  destruct (m_isCancelled t); simpl; rewrite Htrace;
    by rewrite <- !app_assoc.
Qed.

(** *** Installing and uninstalling *)

Lemma queue_pushes_tasks {A} (f : A → string * string) (l : list A)
    (t : Transaction) :
  m_tasks (foldl (λ t x, queue_push (fst (f x)) (snd (f x)) t) t l) = m_tasks t ∧
  m_step (foldl (λ t x, queue_push (fst (f x)) (snd (f x)) t) t l) = m_step t.
Proof.
  revert t. induction l as [|x l IH]; intros t; simpl; [done|].
  by destruct (IH (queue_push (fst (f x)) (snd (f x)) t)) as [-> ->].
Qed.

Lemma addTask_tasks (task : Task) (t : Transaction) :
  m_tasks (addTask w task t) = m_tasks t ++ [task] ∧
  m_step (addTask w task t) = m_step t ∧
  m_isCancelled (addTask w task t) = m_isCancelled t.
Proof.
  unfold addTask. destruct (idle _); [|done].
  by destruct (finish_fields w (push_task task t)) as (-> & _ & -> & _ & -> & _).
Qed.

Lemma install_loop (l : list PackageEntry) (t : Transaction) :
  ∃ tasks,
    m_tasks (foldl (install_step w) t l) = m_tasks t ++ tasks ∧
    omap task_entry tasks = l ∧ length tasks = length l ∧
    m_step (foldl (install_step w) t l) = m_step t.
Proof.
  revert t. induction l as [|entry l IH]; intros t; cbn [foldl].
  - exists []. by rewrite app_nil_r.
  - destruct (IH (install_step w t entry)) as (tasks & -> & Hentries & Hlen & ->).
    unfold install_step, new_InstallTask.
    match goal with |- context [addTask w ?task ?a] =>
      destruct (addTask_tasks task a) as (-> & -> & _) end.
    destruct (queue_pushes_tasks
                (λ src : Source, (ver_name (fst entry), src_url src))
                (ver_sources (fst entry))
                (emit (NewTask (InstallTask entry
                         (Registry_getFiles w (trace t) (snd entry)))) t))
      as [Ht Hs].
    simpl in Ht, Hs. rewrite Ht, Hs.
    exists (InstallTask entry (Registry_getFiles w (trace t) (snd entry))
            :: tasks).
    split; [by rewrite <- app_assoc|].
    split; [by rewrite <- Hentries|].
    split; [simpl; by rewrite Hlen | done].
Qed.

(** X14. [install] creates one [InstallTask] per install candidate, in
    the order of the candidates, and appends them to the task list, also
    when [finish] runs in between; afterwards the step is [Install]. *)
Theorem install_one_task_per_candidate (t : Transaction) :
  ∃ tasks,
    m_tasks (install w t) = m_tasks t ++ tasks ∧
    omap task_entry tasks = m_packages t ∧
    length tasks = length (m_packages t) ∧
    m_step (install w t) = Install.
Proof.
  change (install w t)
    with (foldl (install_step w) (set_step Install t) (m_packages t)).
  destruct (install_loop (m_packages t) (set_step Install t))
    as (tasks & H1 & H2 & H3 & H4).
  exists tasks. by rewrite H1, H4.
Qed.

Lemma finish_cancelled (t : Transaction) :
  m_isCancelled t = true → finish w t = emit OnDestroy (emit OnFinish t).
Proof. intros H. unfold finish. by rewrite H. Qed.

Lemma rollback_all_lists (tasks : list Task) (t : Transaction) :
  m_errors (foldl (λ t task, emit (TaskRollback task) t) t tasks)
    = m_errors t ∧
  m_removals (foldl (λ t task, emit (TaskRollback task) t) t tasks)
    = m_removals t ∧
  m_isCancelled (foldl (λ t task, emit (TaskRollback task) t) t tasks)
    = m_isCancelled t.
Proof.
  revert t. induction tasks as [|task tasks IH]; intros t; simpl; [done|].
  by destruct (IH (emit (TaskRollback task) t)) as (-> & -> & ->).
Qed.

(** X16. Uninstalling a remote without registry entries is a
    cancellation: the transaction is cancelled, no task is created, no
    error and no removal is recorded, nothing is committed, and with an
    idle queue it finishes at once. *)
Theorem uninstall_nothing_cancels (remote : Remote) (t : Transaction) :
  Registry_queryAll w (trace t) remote = [] →
  uninstall w remote t = cancel w t ∧
  m_isCancelled (uninstall w remote t) = true ∧
  m_tasks (uninstall w remote t) = m_tasks t ∧
  m_errors (uninstall w remote t) = m_errors t ∧
  m_removals (uninstall w remote t) = m_removals t ∧
  trace (uninstall w remote t)
  = trace t ++ (TaskRollback <$> m_tasks t)
    ++ (if idle t then [OnFinish; OnDestroy] else [QueueAbort]).
Proof.
  intros Hnone.
  assert (uninstall w remote t = cancel w t) as ->.
  { unfold uninstall. by rewrite Hnone. }
  destruct (cancel_spec w t) as (Hc & Htk & _ & _ & Htr).
  split; [done|]. split; [done|]. split; [done|].
  assert (m_errors (cancel w t) = m_errors t ∧
          m_removals (cancel w t) = m_removals t) as [He Hr].
  { clear Htr. unfold cancel. cbv zeta.
    destruct (rollback_all_lists (m_tasks (set_isCancelled true t))
                (set_isCancelled true t)) as (He & Hr & Hcc).
    destruct (idle _); [rewrite finish_cancelled by done|];
      cbn [emit m_errors m_removals]; by rewrite He, Hr. }
  done.
Qed.

Lemma uninstall_loop (l : list Registry.Entry) (t : Transaction) :
  ∃ tasks,
    m_tasks (foldl (uninstall_step w) t l) = m_tasks t ++ tasks ∧
    omap task_removal tasks = l ∧ length tasks = length l ∧
    m_isCancelled (foldl (uninstall_step w) t l) = m_isCancelled t.
Proof.
  revert t. induction l as [|entry l IH]; intros t; cbn [foldl].
  - exists []. by rewrite app_nil_r.
  - destruct (IH (uninstall_step w t entry))
      as (tasks & -> & Hentries & Hlen & ->).
    unfold uninstall_step, new_RemoveTask.
    match goal with |- context [addTask w ?task ?a] =>
      destruct (addTask_tasks task a) as (-> & _ & ->) end.
    exists (RemoveTask (Registry_getFiles w (trace t) entry) entry :: tasks).
    split; [by rewrite <- app_assoc|].
    split; [by rewrite <- Hentries|].
    split; [simpl; by rewrite Hlen | done].
Qed.

(** X17. Uninstalling a remote with registry entries creates one
    [RemoveTask] per entry, in the order of the entries, appends them to
    the task list and does not cancel the transaction. *)
Theorem uninstall_one_task_per_entry (remote : Remote) (t : Transaction) :
  Registry_queryAll w (trace t) remote ≠ [] →
  ∃ tasks,
    m_tasks (uninstall w remote t) = m_tasks t ++ tasks ∧
    omap task_removal tasks = Registry_queryAll w (trace t) remote ∧
    length tasks = length (Registry_queryAll w (trace t) remote) ∧
    m_isCancelled (uninstall w remote t) = m_isCancelled t.
Proof.
  intros Hsome. unfold uninstall. rewrite bool_decide_false by done.
  apply (uninstall_loop (Registry_queryAll w (trace t) remote) t).
Qed.

(** *** What a finish reports *)

Lemma commit_reports (t : Transaction) (task : Task) :
  (∀ h task, Task_commit w h task = true) →
  m_updates (commit w t task)
    = m_updates t ++ filter (λ e, is_update e = true) (omap task_entry [task]) ∧
  m_new (commit w t task)
    = m_new t ++ filter (λ e, is_update e = false) (omap task_entry [task]) ∧
  ∃ evs, trace (commit w t task) = trace t ++ evs ∧
         pushes_of evs = fst <$> omap task_entry [task] ∧
         forgets_of evs = omap task_removal [task].
Proof.
  intros Hall. unfold commit. rewrite Hall.
  destruct task as [entry files | files entry]; cbn [onCommit].
  - change (omap task_entry [InstallTask entry files]) with [entry].
    change (omap task_removal [InstallTask entry files])
      with (@nil Registry.Entry).
    unfold is_update.
    destruct (Registry.Status_eqb _ _) eqn:E.
    + rewrite filter_cons_True, filter_cons_False, !filter_nil
        by (simpl; congruence).
      destruct (negb _); simpl; (split; [done|]); (split; [by rewrite app_nil_r|]);
        eexists; (split; [by rewrite <- !app_assoc|]); done.
    + rewrite filter_cons_False, filter_cons_True, !filter_nil
        by (simpl; congruence).
      destruct (negb _); simpl; (split; [by rewrite app_nil_r|]); (split; [done|]);
        eexists; (split; [by rewrite <- !app_assoc|]); done.
  - change (omap task_entry [RemoveTask files entry]) with (@nil PackageEntry).
    change (omap task_removal [RemoveTask files entry]) with [entry].
    rewrite !filter_nil, !app_nil_r. simpl. split; [done|]. split; [done|].
    eexists. split; [by rewrite <- !app_assoc|]. done.
Qed.

(** X15. When a transaction that is not cancelled finishes and every
    task's commit reaches its observer, each install task is reported
    exactly once, in task order: under updates when its registry status
    was [UpdateAvailable], under new installs otherwise, whether or not
    the registration with the host succeeded; the registry is pushed one
    version per install task and forgets one entry per remove task, in
    task order. *)
Theorem finish_reports_every_task (t : Transaction) :
  m_isCancelled t = false →
  (∀ h task, Task_commit w h task = true) →
  m_updates (finish w t)
    = m_updates t
      ++ filter (λ e, is_update e = true) (omap task_entry (m_tasks t)) ∧
  m_new (finish w t)
    = m_new t
      ++ filter (λ e, is_update e = false) (omap task_entry (m_tasks t)) ∧
  ∃ evs, trace (finish w t) = trace t ++ evs ∧
         pushes_of evs = fst <$> omap task_entry (m_tasks t) ∧
         forgets_of evs = omap task_removal (m_tasks t).
Proof.
  intros Hc Hall. unfold finish. rewrite Hc. cbn [negb].
  assert (∀ l t0,
            m_updates (foldl (commit w) t0 l)
              = m_updates t0
                ++ filter (λ e, is_update e = true) (omap task_entry l) ∧
            m_new (foldl (commit w) t0 l)
              = m_new t0
                ++ filter (λ e, is_update e = false) (omap task_entry l) ∧
            ∃ evs, trace (foldl (commit w) t0 l) = trace t0 ++ evs ∧
                   pushes_of evs = fst <$> omap task_entry l ∧
                   forgets_of evs = omap task_removal l) as Hloop.
  { induction l as [|task l IH]; intros t0; cbn [foldl].
    - change (omap task_entry []) with (@nil PackageEntry).
      rewrite !filter_nil, !app_nil_r. split; [done|]. split; [done|].
      exists []. by rewrite app_nil_r.
    - destruct (IH (commit w t0 task)) as (-> & -> & evs2 & -> & Hp2 & Hf2).
      destruct (commit_reports t0 task Hall) as (-> & -> & evs1 & -> & Hp1 & Hf1).
      change (task :: l) with ([task] ++ l).
      rewrite !omap_app, !filter_app, !fmap_app, !app_assoc.
      split; [done|]. split; [done|].
      exists (evs1 ++ evs2). rewrite !app_assoc. split; [done|].
      unfold pushes_of, forgets_of in *.
      by rewrite !omap_app, Hp1, Hp2, Hf1, Hf2. }
  destruct (Hloop (m_tasks t) t) as (Hu & Hn & evs & Htr & Hp & Hf).
  simpl. split; [done|]. split; [done|].
  exists (evs ++ [RegistryCommit; OnFinish; OnDestroy]).
  rewrite Htr. split; [by rewrite <- !app_assoc|].
  unfold pushes_of, forgets_of in *. rewrite !omap_app, Hp, Hf. simpl.
  by rewrite !app_nil_r.
Qed.

End Operations.

Lemma saveRemoteIndex_accounts_witness :
  ∃ ri, m_remoteIndexes ex_synchronized = [] ++ [ri] ∧
        m_errors ex_synchronized = [].
Proof.
  destruct (saveRemoteIndex_accounts ex_world ex_fetched
              (synchronize ex_remote (new_Transaction ["REAPER"]))
              ex_synchronized) as ([H | [e [_ H]]] & _); [reflexivity| |].
  - exact H.
  - destruct (app_cons_not_nil _ _ _ H).
Defined.

Lemma ex_resolved_pass :
  is_Some (updateAll_packages ex_world (all_packages ex_synchronized)
             (set_queue [] ex_synchronized)).
Proof. apply not_eq_None_Some. vm_compute. discriminate. Qed.

Lemma updateAll_registers_claimed_paths_witness :
  ∃ t', updateAll_packages ex_world (all_packages ex_synchronized)
          (set_queue [] ex_synchronized) = Some t' ∧
        m_files t'
        = m_files (set_queue [] ex_synchronized)
          ∪ list_to_set (claimed_paths (all_packages ex_synchronized)).
Proof.
  destruct ex_resolved_pass as [t' H]. exists t'. split; [exact H|].
  exact (updateAll_registers_claimed_paths ex_world _ _ _ H).
Defined.

Lemma updateAll_no_false_conflict_witness :
  ∃ t', updateAll_packages ex_plain_world (Index.m_packages ex_plain_index)
          (new_Transaction ["REAPER"]) = Some t' ∧
        m_hasConflicts t' = false ∧ m_errors t' = [].
Proof.
  assert (is_Some (updateAll_packages ex_plain_world
                     (Index.m_packages ex_plain_index)
                     (new_Transaction ["REAPER"]))) as [t' H].
  { apply not_eq_None_Some. vm_compute. discriminate. }
  exists t'. split; [exact H|].
  apply (updateAll_no_false_conflict ex_plain_world
           (Index.m_packages ex_plain_index) (new_Transaction ["REAPER"]) t').
  - apply (bool_decide_unpack _). vm_compute. exact I.
  - intros p _. apply not_elem_of_empty.
  - exact H.
Defined.

(** A world in which everything is installed and on disk. *)
Lemma updateAll_nothing_to_install_witness :
  ∃ t1,
    updateAll ex_installed_world ex_installed_tx
      = Some (finish ex_installed_world t1) ∧
    m_tasks (finish ex_installed_world t1) = [] ∧
    trace (finish ex_installed_world t1)
    = trace ex_installed_tx ++ [RegistryCommit] ++ [OnFinish; OnDestroy].
Proof.
  destruct (updateAll_nothing_to_install ex_installed_world ex_installed_tx)
    as (t1 & H1 & _ & H2 & H3).
  - repeat constructor; eexists; (split; [reflexivity|]);
      (split; [reflexivity|]); by repeat constructor.
  - reflexivity.
  - exists t1. split; [exact H1|]. split; [exact H2|]. by apply H3.
Defined.

Lemma uninstall_nothing_cancels_witness :
  trace (uninstall ex_installed_world ex_remote (new_Transaction ["REAPER"]))
  = [RecursiveCreateDirectory "REAPER/ReaPack"] ++ [] ++ [OnFinish; OnDestroy].
Proof.
  apply (uninstall_nothing_cancels ex_installed_world ex_remote
           (new_Transaction ["REAPER"])).
  reflexivity.
Defined.

Lemma uninstall_one_task_per_entry_witness :
  ∃ tasks,
    m_tasks (uninstall ex_world ex_remote ex_busy)
      = [ex_remove 1] ++ tasks ∧
    omap task_removal tasks = [ex_installed 1; ex_installed 2].
Proof.
  destruct (uninstall_one_task_per_entry ex_world ex_remote ex_busy)
    as (tasks & H1 & H2 & _); [discriminate|].
  exists tasks. split; [exact H1 | exact H2].
Defined.

Lemma finish_reports_every_task_witness :
  ∃ evs,
    trace (finish ex_world
             (push_task (ex_remove 2)
                (push_task (ex_remove 1) (new_Transaction ["REAPER"]))))
    = [RecursiveCreateDirectory "REAPER/ReaPack"] ++ evs ∧
    forgets_of evs = [ex_installed 1; ex_installed 2].
Proof.
  destruct (finish_reports_every_task ex_world
              (push_task (ex_remove 2)
                 (push_task (ex_remove 1) (new_Transaction ["REAPER"]))))
    as (_ & _ & evs & H1 & _ & H2); [reflexivity | reflexivity|].
  exists evs. split; [exact H1 | exact H2].
Defined.

(** ** Dialogs: timers *)

Section Timers.

Import Dialog.

Lemma greatest_bound (timers : gset Z) (x : Z) :
  x ∈ timers → (x ≤ greatest timers)%Z.
Proof.
  unfold greatest. intros Hin%elem_of_elements.
  generalize (hd 0%Z (elements timers)).
  induction (elements timers) as [|y l IH]; intros d.
  - by apply elem_of_nil in Hin.
  - apply elem_of_cons in Hin as [-> | Hin]; simpl; [lia|].
    specialize (IH Hin d). lia.
Qed.

Lemma greatest_elem (timers : gset Z) :
  timers ≠ ∅ → greatest timers ∈ timers.
Proof.
  intros Hne. apply elem_of_elements. unfold greatest.
  assert (elements timers ≠ []) as Hl.
  { intros H. by apply elements_empty_inv, leibniz_equiv in H. }
  destruct (elements timers) as [|d l]; [done|]. simpl. clear Hl Hne.
  assert (∀ k, foldr Z.max d k ∈ d :: k) as Hin.
  { induction k as [|y k IH]; simpl; [by left|].
    destruct (Z.max_spec y (foldr Z.max d k)) as [[_ ->] | [_ ->]].
    - apply elem_of_cons in IH as [-> | IH]; [by left|]. by do 2 right.
    - right. by left. }
  destruct (Z.max_spec d (foldr Z.max d l)) as [[_ ->] | [_ ->]];
    [apply Hin | by left].
Qed.

Lemma startTimer_auto (ms : Z) (replace : bool) (timers : gset Z) :
  (∀ x, x ∈ timers → (INT_MIN ≤ x ≤ INT_MAX)%Z) →
  let '(id, timers', calls) := startTimer ms 0 replace timers in
  timers' = timers ∪ {[id]} ∧ calls = [SetTimer id ms] ∧
  (INT_MIN ≤ id ≤ INT_MAX)%Z ∧
  ((INT_MAX ∉ timers) →
   (id ∉ timers) ∧ (∀ x, x ∈ timers → (x < id)%Z) ∧
   ((∀ x, x ∈ timers → (0 ≤ x)%Z) → (1 ≤ id)%Z)) ∧
  (INT_MAX ∈ timers → id = INT_MIN).
Proof.
  intros Hint. unfold startTimer. simpl. case_bool_decide as He.
  - subst timers. split; [done|]. split; [done|]. split; [done|]. split.
    + intros _. split; [apply not_elem_of_empty|]. split; [|done].
      intros x Hx. by apply not_elem_of_empty in Hx.
    + intros Hx. by apply not_elem_of_empty in Hx.
  - pose proof (greatest_elem timers He) as Hg.
    pose proof (Hint _ Hg) as Hrange.
    split; [done|]. split; [done|]. split; [apply to_int_range|]. split.
    + intros Hmax.
      assert (greatest timers ≠ INT_MAX) as Hne by (by intros Heq; rewrite Heq in Hg).
      rewrite to_int_id by (unfold INT_MIN, INT_MAX in *; lia).
      assert (∀ x, x ∈ timers → (x < greatest timers + 1)%Z) as Hlt.
      { intros x Hx%greatest_bound. lia. }
      repeat split; [|done|].
      * intros Hin%Hlt. lia.
      * intros Hpos. specialize (Hpos _ Hg). lia.
    + intros Hmax%greatest_bound.
      replace (greatest timers) with INT_MAX by lia. reflexivity.
Qed.

(** X18. A timer started with id 0, the ids of the running timers being
    [int]s: the timer is set under the id returned and the running timers
    stay. As long as [INT_MAX] is not among the running timers, the id is
    one that no running timer has, greater than all of them, and at least
    1 when no running timer has a negative id, so it is not mistaken for
    the refusal value 0. With [INT_MAX] running, the addition leaves the
    range of [int] and the id is [INT_MIN]. *)
Theorem startTimer_fresh_id (ms : Z) (replace : bool) (timers : gset Z) :
  (∀ x, x ∈ timers → (INT_MIN ≤ x ≤ INT_MAX)%Z) →
  let '(id, timers', calls) := startTimer ms 0 replace timers in
  timers' = timers ∪ {[id]} ∧ calls = [SetTimer id ms] ∧
  (INT_MIN ≤ id ≤ INT_MAX)%Z ∧
  ((INT_MAX ∉ timers) →
   (id ∉ timers) ∧ (∀ x, x ∈ timers → (x < id)%Z) ∧
   ((∀ x, x ∈ timers → (0 ≤ x)%Z) → (1 ≤ id)%Z)) ∧
  (INT_MAX ∈ timers → id = INT_MIN).
Proof. apply startTimer_auto. Qed.

Lemma startTimer_fresh_id_witness :
  (1 ≤ fst (fst (startTimer 100 0 true ({[3%Z]} ∪ {[5%Z]}))))%Z.
Proof.
  assert (∀ x : Z, x ∈ ({[3%Z]} ∪ {[5%Z]} : gset Z) → x = 3%Z ∨ x = 5%Z)
    as Hin.
  { intros x [->%elem_of_singleton | ->%elem_of_singleton]%elem_of_union; auto. }
  pose proof (startTimer_fresh_id 100 true ({[3%Z]} ∪ {[5%Z]})) as H.
  destruct (startTimer 100 0 true ({[3%Z]} ∪ {[5%Z]})) as [[id timers'] calls].
  destruct H as (_ & _ & _ & H & _).
  - intros x [-> | ->]%Hin; unfold INT_MIN, INT_MAX; lia.
  - destruct H as (_ & _ & H).
    + intros [H | H]%Hin; discriminate H.
    + apply H. intros x [-> | ->]%Hin; lia.
Defined.

(** The overflow: with [INT_MAX] and [INT_MIN] both running, the id chosen
    is [INT_MIN], which is already running. *)
Example startTimer_at_INT_MAX :
  fst (fst (startTimer 100 0 false ({[INT_MAX]} ∪ {[INT_MIN]}))) = INT_MIN.
Proof. vm_compute. reflexivity. Qed.

(** X19. A timer started with an id of its own: when a timer of that id
    runs and replacing is off, the call is refused with 0, no timer is
    set and the running timers stay as they are; in every other case the
    timer is set and the id returned, and the set of running timers is
    unchanged when the id was already there. *)
Theorem startTimer_given_id (ms id : Z) (replace : bool) (timers : gset Z) :
  id ≠ 0%Z →
  (replace = false → id ∈ timers →
   startTimer ms id replace timers = (0%Z, timers, [])) ∧
  (replace = true ∨ id ∉ timers →
   startTimer ms id replace timers
   = (id, timers ∪ {[id]}, [SetTimer id ms])) ∧
  (id ∈ timers → snd (fst (startTimer ms id replace timers)) = timers).
Proof.
  intros Hid. unfold startTimer.
  rewrite (proj2 (Z.eqb_neq id 0)) by done. repeat split.
  - intros -> Hin. by rewrite bool_decide_true.
  - intros [-> | Hnot]; [done|].
    rewrite bool_decide_false by done. by rewrite andb_false_r.
  - intros Hin. destruct (negb replace && _); simpl; [done|].
    rewrite (comm_L (∪)). apply subseteq_union_1_L.
    by apply singleton_subseteq_l.
Qed.

Lemma startTimer_given_id_witness :
  startTimer 500 7 false {[7%Z]} = (0%Z, {[7%Z]}, []) ∧
  startTimer 500 7 true {[7%Z]} = (7%Z, {[7%Z]} ∪ {[7%Z]}, [SetTimer 7 500]).
Proof.
  destruct (startTimer_given_id 500 7 false {[7%Z]}) as (H1 & _); [done|].
  destruct (startTimer_given_id 500 7 true {[7%Z]}) as (_ & H2 & _); [done|].
  split; [apply H1; [done | by apply elem_of_singleton] | apply H2; by left].
Defined.

(** X20. Stopping a timer removes its id and no other. When the ids of
    the running timers are [int]s below [INT_MAX], starting a timer with
    an automatic id and stopping it again leaves the set of running timers
    as it was before. *)
Theorem stopTimer_after_startTimer (ms : Z) (replace : bool) (timers : gset Z) :
  (∀ id x, x ∈ fst (stopTimer id timers) ↔ x ∈ timers ∧ x ≠ id) ∧
  ((∀ x, x ∈ timers → (INT_MIN ≤ x < INT_MAX)%Z) →
   let '(id, timers', _) := startTimer ms 0 replace timers in
   stopTimer id timers' = (timers, [KillTimer id])).
Proof.
  split.
  - intros id x. unfold stopTimer. simpl.
    rewrite elem_of_difference, elem_of_singleton. done.
  - intros Hint.
    pose proof (startTimer_auto ms replace timers) as H.
    destruct (startTimer ms 0 replace timers) as [[id timers'] calls].
    destruct H as (-> & _ & _ & H & _).
    { intros x Hx%Hint. lia. }
    destruct H as (Hfresh & _).
    { intros Hx%Hint. lia. }
    unfold stopTimer. f_equal. apply leibniz_equiv.
    intros x. rewrite elem_of_difference, elem_of_union, elem_of_singleton.
    split; [by intros [[?|?] ?] | intros Hx; split; [by left|]].
    intros ->. done.
Qed.

Lemma stopTimer_after_startTimer_witness :
  let '(id, timers', _) := startTimer 100 0 false {[7%Z]} in
  stopTimer id timers' = ({[7%Z]}, [KillTimer id]).
Proof.
  apply (stopTimer_after_startTimer 100 false {[7%Z]}).
  intros x ->%elem_of_singleton. unfold INT_MIN, INT_MAX. lia.
Defined.

End Timers.

(** ** Dialogs: position and saved state *)

Section Geometry.

Import Dialog.

(** X21. [boundedMove] clamps each coordinate on its own: the position it
    sets is never beyond the limit "viewport extent minus window extent
    minus the absolute viewport origin"; when the viewport origin is
    within that limit, the position is not before the origin either, a
    position already between origin and limit is kept, and moving to the
    position obtained changes nothing; when the limit is before the
    origin, the position is the limit, whatever was asked for. For a
    viewport whose horizontal origin is 0 and that is at least as wide as
    the window, the window ends up between the left and right edges of
    the viewport; likewise vertically when the vertical origin is 0 and
    the viewport is at least as high as the window. A window higher than
    the viewport gets a negative vertical position. *)
Theorem boundedMove_clamps (rect : RECT) (vp : Viewport) (x y : Z) :
  let width := (right rect - left rect)%Z in
  let height := (bottom rect - top rect)%Z in
  let limX := (viewportWidth vp - width - Z.abs (viewportX vp))%Z in
  let limY := (viewportHeight vp - height - Z.abs (viewportY vp))%Z in
  let '(x', y') := boundedMove rect vp x y in
  (x' ≤ limX)%Z ∧ (y' ≤ limY)%Z ∧
  ((viewportX vp ≤ limX)%Z → (viewportX vp ≤ x')%Z) ∧
  ((viewportY vp ≤ limY)%Z → (viewportY vp ≤ y')%Z) ∧
  ((viewportX vp ≤ x ≤ limX)%Z → x' = x) ∧
  ((viewportY vp ≤ y ≤ limY)%Z → y' = y) ∧
  ((viewportX vp ≤ limX)%Z → (viewportY vp ≤ limY)%Z →
   boundedMove (move x' y' rect) vp x' y' = (x', y')) ∧
  (viewportX vp = 0%Z → (width ≤ viewportWidth vp)%Z →
   (0 ≤ x')%Z ∧ (x' + width ≤ viewportWidth vp)%Z) ∧
  (viewportY vp = 0%Z → (height ≤ viewportHeight vp)%Z →
   (0 ≤ y')%Z ∧ (y' + height ≤ viewportHeight vp)%Z) ∧
  ((limX < viewportX vp)%Z → x' = limX) ∧
  ((limY < viewportY vp)%Z → y' = limY) ∧
  (viewportY vp = 0%Z → (viewportHeight vp < height)%Z → (y' < 0)%Z).
Proof.
  unfold boundedMove. cbv zeta. repeat split; try lia.
  intros HX HY. simpl. f_equal; lia.
Qed.

Lemma boundedMove_clamps_witness :
  boundedMove ex_rect ex_viewport 5000 (-20) = (1120%Z, 0%Z) ∧
  boundedMove ex_rect ex_viewport 100 50 = (100%Z, 50%Z) ∧
  (0 ≤ snd (boundedMove ex_rect ex_viewport 100 5000)
   ≤ viewportHeight ex_viewport - (bottom ex_rect - top ex_rect))%Z.
Proof.
  pose proof (boundedMove_clamps ex_rect ex_viewport 100 50) as H.
  pose proof (boundedMove_clamps ex_rect ex_viewport 100 5000) as H'.
  cbv zeta in H, H'.
  destruct (boundedMove ex_rect ex_viewport 100 50) as [x' y'].
  destruct (boundedMove ex_rect ex_viewport 100 5000) as [x'' y''].
  destruct H as (_ & _ & _ & _ & Hx & Hy & _).
  destruct H' as (_ & _ & _ & _ & _ & _ & _ & _ & Hin & _).
  split; [reflexivity|]. split.
  - rewrite Hx, Hy; [reflexivity | simpl; lia..].
  - simpl. destruct Hin as [H0 H1]; [reflexivity | simpl; lia |].
    simpl in H1. lia.
Defined.

(** A window higher than the viewport: 800 by 2000 on a screen of 1920 by
    1080 at origin 0. The vertical position comes out negative; the top
    of the window is above the screen. *)
Example boundedMove_of_a_tall_window :
  boundedMove {| left := 0; top := 0; right := 800; bottom := 2000 |}
              {| viewportX := 0; viewportWidth := 1920;
                 viewportY := 0; viewportHeight := 1080 |} 100 50
  = (100%Z, (-920)%Z).
Proof. reflexivity. Qed.

(** X22. Saved state round trip. [saveState] appends two records,
    position and size; [restoreState] takes the first two records off the
    data, gives the window the saved size and moves it to the saved
    position clamped by [boundedMove], and does nothing when fewer than
    two records are there. So restoring what was saved from a rectangle
    whose corner lies between viewport origin and limit gives back that
    rectangle, whatever the window was before, and hands on the records
    that follow. *)
Theorem restoreState_after_saveState (vp : Viewport) (saved now : RECT)
    (rest : Data) :
  (viewportX vp ≤ left saved
   ≤ viewportWidth vp - (right saved - left saved) - Z.abs (viewportX vp))%Z →
  (viewportY vp ≤ top saved
   ≤ viewportHeight vp - (bottom saved - top saved) - Z.abs (viewportY vp))%Z →
  restoreState vp now (saveState saved [] ++ rest)
  = (saved, rest,
     [SetWindowPos_size (right saved - left saved) (bottom saved - top saved);
      onResize; SetWindowPos_move (left saved) (top saved)]) ∧
  (∀ data, (length data < 2)%nat → restoreState vp now data = (now, data, [])) ∧
  (∀ data, length (saveState saved data) = S (S (length data))).
Proof.
  intros HX HY. split; [|split].
  - unfold saveState, restoreState, boundedMove, resize, move. simpl.
    rewrite !Z.add_simpl_l.
    rewrite (Z.max_r (viewportX vp)), (Z.max_r (viewportY vp)) by lia.
    rewrite !Z.min_l by lia.
    destruct saved as [l t r b]. simpl. do 3 f_equal; f_equal; lia.
  - intros [|a [|b data]] Hlen; simpl in *; try done. lia.
  - intros data. unfold saveState. rewrite length_app. simpl. lia.
Qed.

Lemma restoreState_after_saveState_witness :
  fst (fst (restoreState ex_viewport
              {| left := 0; top := 0; right := 10; bottom := 10 |}
              (saveState ex_rect [])))
  = ex_rect.
Proof.
  destruct (restoreState_after_saveState ex_viewport ex_rect
              {| left := 0; top := 0; right := 10; bottom := 10 |} [])
    as (H & _); [simpl; lia.. |].
  rewrite app_nil_r in H. by rewrite H.
Defined.

End Geometry.

(** ** Browser entries: flags *)

Section Flags.

Import Entry.

Lemma test_lor (a b : Z) (f : Flag) :
  test (Z.lor a b) f = test a f || test b f.
Proof.
  unfold test. rewrite Z.land_lor_distr_l.
  destruct (Z.eqb_spec (Z.land a (Flag_value f)) 0) as [Ha | Ha];
    destruct (Z.eqb_spec (Z.land b (Flag_value f)) 0) as [Hb | Hb]; simpl.
  - by rewrite Ha, Hb.
  - apply negb_true_iff, Z.eqb_neq. intros [_ H]%Z.lor_eq_0_iff. done.
  - apply negb_true_iff, Z.eqb_neq. intros [H _]%Z.lor_eq_0_iff. done.
  - apply negb_true_iff, Z.eqb_neq. intros [H _]%Z.lor_eq_0_iff. done.
Qed.

(** X23. The four flags occupy different bits: in a flag word put
    together from some flags with bitwise or, [test] answers true exactly
    for these flags; and an entry without a chosen target can be pinned
    exactly when the installed flag is among them. *)
Theorem test_flags_of (l : list Flag) (f : Flag) :
  test (flags_of l) f = bool_decide (f ∈ l) ∧
  canPin (flags_of l) None = bool_decide (InstalledFlag ∈ l).
Proof.
  assert (∀ g, test (flags_of l) g = bool_decide (g ∈ l)) as H;
    [|split; apply H].
  intros g. induction l as [|h l IH]; simpl.
  - by destruct g.
  - rewrite test_lor, IH.
    destruct (decide (g = h)) as [-> | Hne].
    + rewrite (bool_decide_true (h ∈ h :: l)) by (by left). by destruct h.
    + replace (test (Flag_value h) g) with false by (by destruct g, h).
      simpl. apply bool_decide_ext. rewrite elem_of_cons.
      split; [by right | by intros [?|?]].
Qed.

End Flags.

(** ** Runs are defined *)

Section Defined.

Context (w : World).

Lemma update_versioned (t t' : Transaction) :
  (∀ root name ri, loadV1 w root name = Ok ri →
                   versioned (Index.m_packages ri)) →
  update w t t' → versioned (all_packages t) → versioned (all_packages t').
Proof.
  intros Hload Hu Hv. destruct Hu as [| | | | | | | | | ri t [root [name H]] | | | | |];
    try exact Hv.
  unfold all_packages, versioned in *. simpl.
  rewrite fmap_app, concat_app. apply Forall_app. split; [done|].
  simpl. rewrite app_nil_r. by eapply Hload.
Qed.

(** X24. No null dereference: when the version 1 loader only yields
    indexes whose packages have a version, every downloaded index document
    has a root element and the packages loaded so far have a version, a
    run of any length goes through: [ver->files()] is never reached with a
    null [lastVersion()] and [root->Value()] never with a null root. *)
Theorem run_defined (ops : list Op) (t : Transaction) :
  (∀ root name ri, loadV1 w root name = Ok ri →
                   versioned (Index.m_packages ri)) →
  Forall rooted ops →
  versioned (all_packages t) →
  is_Some (run w ops t).
Proof.
  intros Hload Hops. revert t.
  induction Hops as [|op ops Hop _ IH]; intros t Hv; cbn [run]; [done|].
  assert (is_Some (step w op t)) as [t1 H1].
  { destruct op as [remote | dl | | remote |]; cbn [step]; try done.
    - unfold saveRemoteIndex.
      destruct (saveFile _ _ _) as [[|] t0]; cbn [negb]; [|done].
      destruct (on_disk dl) as [e | e | [root|]] eqn:Hd; simpl in *;
        [done | done | | done].
      destruct (negb _); [done|].
      destruct (_ =? 0)%Z; [done|]. destruct (_ =? 1)%Z; [|done].
      by destruct (loadV1 w root (dl_name dl)).
    - unfold onDone. destruct (m_step (set_queue [] t)); try done.
      unfold updateAll. rewrite updateAll_indexes_packages.
      destruct (updateAll_packages_total w
                  (concat (Index.m_packages <$> m_remoteIndexes (set_queue [] t)))
                  (set_queue [] t) Hv) as [t1 ->].
      by destruct (_ || _). }
  rewrite H1. apply IH.
  apply updates_step in H1. clear IH.
  induction H1 as [t | t1 t2 t3 H12 _ IH']; [done|].
  apply IH'. by eapply update_versioned.
Qed.

End Defined.

Lemma run_defined_witness :
  is_Some (run ex_plain_world ex_plain_ops (new_Transaction ["REAPER"])).
Proof.
  apply run_defined.
  - intros root name ri [= <-]. repeat constructor; discriminate.
  - repeat constructor; discriminate.
  - constructor.
Defined.
